(** * Boost.Algorithm: searching (Boyer-Moore, Boyer-Moore-Horspool,
      Knuth-Morris-Pratt) and the hex codec

    A shallow embedding of [boost/algorithm/search.hpp], of
    [boost/algorithm/hex.hpp] and of [boost/algorithm/none_of.hpp], with the
    properties of the specification, and further ones of the code, proved
    about it.

    Conventions of the embedding.
    - An iterator into a sequence is the index ([Z]) of the element it
      points to; [first] is index 0 and [last] is the length.
    - [int] is a 32-bit two's complement integer, [std::size_t] a 64-bit
      unsigned one and [std::ptrdiff_t] a 64-bit two's complement one; every
      conversion and arithmetic operation of the source on these types is
      written with [to_int], [to_size] or [to_diff].
    - Indexing ([operator[]] on an iterator, a vector or an array) is checked:
      it yields [OutOfBounds] outside of the sequence.
    - A [while] or [for] loop is an iteration of its body bounded by a fuel
      that counts the back edges taken; running out of it yields
      [OutOfFuel]. *)

From stdpp Require Import base decidable option numbers list countable gmap.
From Stdlib Require Import ZArith Lia.
From Stdlib.Strings Require Byte.

Local Open Scope Z_scope.

(** ** Results of checked, fuel-bounded computations *)

Inductive res (A : Type) : Type :=
  | Ok (a : A)
  | OutOfBounds
  | AssertFailed
  | OutOfFuel.
Arguments Ok {A} a.
Arguments OutOfBounds {A}.
Arguments AssertFailed {A}.
Arguments OutOfFuel {A}.

#[global] Instance res_ret : MRet res := λ A a, Ok a.
#[global] Instance res_bind : MBind res := λ A B k m,
  match m with
  | Ok a => k a
  | OutOfBounds => OutOfBounds
  | AssertFailed => AssertFailed
  | OutOfFuel => OutOfFuel
  end.

(** [BOOST_ASSERT]. *)
Definition BOOST_ASSERT (c : Prop) `{!Decision c} : res () :=
  if decide c then Ok () else AssertFailed.

(** What one run of a loop body decides: go round again, or leave the loop
    (by its condition, by [break] or by [return]) with a result. *)
Inductive ctl (S R : Type) : Type :=
  | Continue (s : S)
  | Break (r : R).
Arguments Continue {S R} s.
Arguments Break {S R} r.

Fixpoint while {S R : Type} (fuel : nat) (body : S → res (ctl S R)) (s : S)
    : res R :=
  match body s with
  | Ok (Break r) => Ok r
  | Ok (Continue s') =>
      match fuel with
      | O => OutOfFuel
      | Datatypes.S fuel' => while fuel' body s'
      end
  | OutOfBounds => OutOfBounds
  | AssertFailed => AssertFailed
  | OutOfFuel => OutOfFuel
  end.

(** ** Machine integers *)

Definition INT_MAX : Z := 2147483647.
Definition PTRDIFF_MAX : Z := 9223372036854775807.
Definition SIZE_MAX : Z := 18446744073709551615.

(** Conversion to [int]. *)
Definition to_int (z : Z) : Z := (z + 2147483648) `mod` 4294967296 - 2147483648.
(** Conversion to [std::size_t]. *)
Definition to_size (z : Z) : Z := z `mod` 18446744073709551616.
(** Conversion to [std::ptrdiff_t], the [difference_type] an iterator is
    indexed and advanced by. *)
Definition to_diff (z : Z) : Z :=
  (z + 9223372036854775808) `mod` 18446744073709551616 - 9223372036854775808.

(** ** Sequences *)

Definition len {A : Type} (l : list A) : Z := Z.of_nat (length l).

(** The element at an index, if the index is inside of the sequence. *)
Definition zget {A : Type} (l : list A) (i : Z) : option A :=
  if decide (0 ≤ i) then l !! Z.to_nat i else None.

(** [l[i]], read. *)
Definition at_ {A : Type} (l : list A) (i : Z) : res A :=
  match zget l i with
  | Some x => Ok x
  | None => OutOfBounds
  end.

(** [l[i] = v]. *)
Definition write {A : Type} (l : list A) (i : Z) (v : A) : res (list A) :=
  match zget l i with
  | Some _ => Ok (<[Z.to_nat i := v]> l)
  | None => OutOfBounds
  end.

(** A range [first, last) of random access iterators, as the searches get
    their corpus: the distance from [first] to [last] and the read of
    [first[i]]. *)
Record range (A : Type) : Type := Range {
  distance : Z;
  deref : Z → res A;
}.
Arguments Range {A} _ _.
Arguments distance {A} _.
Arguments deref {A} _ _.

Definition range_of {A : Type} (l : list A) : range A :=
  Range (len l) (at_ l).

(** ** Skip tables ([detail::skip_table])

    The table of the bad character shifts of Boyer-Moore and of
    Boyer-Moore-Horspool. [BM_traits] picks the array for the integral types
    of one byte and the map for every other type. *)

Class SkipTable (K T : Type) : Type := {
  (** [skip_table ( patSize, default_value )] *)
  skip_table_new : Z → Z → T;
  (** [insert ( key, val )] *)
  skip_insert : T → K → Z → T;
  (** [operator [] ( val )] *)
  skip_lookup : T → K → Z;
}.

(** [skip_table<value_type, false>]: a [std::tr1::unordered_map]. *)
Record skip_table_map (K : Type) `{Countable K} : Type := SkipTableMap {
  map_k_default_value : Z;
  map_skip_ : gmap K Z;
}.
Arguments SkipTableMap {K _ _} _ _.
Arguments map_k_default_value {K _ _} _.
Arguments map_skip_ {K _ _} _.

#[global] Instance skip_table_map_ops `{Countable K} :
    SkipTable K (skip_table_map K) := {
  skip_table_new patSize default_value := SkipTableMap default_value ∅;
  skip_insert t key val :=
    SkipTableMap (map_k_default_value t) (<[key := val]> (map_skip_ t));
  skip_lookup t val :=
    match map_skip_ t !! val with
    | None => map_k_default_value t
    | Some second => second
    end;
}.

(** [skip_table<value_type, true>]: a [boost::array] of [1U << CHAR_BIT]
    entries, indexed by the key converted to its unsigned type. The keys are
    the 256 values of a byte, and [Byte.to_nat] is that conversion: an index
    is always below 256, the size of the array. *)
Record skip_table_array : Type := SkipTableArray {
  arr_skip_ : list Z;
  arr_k_default_value : Z;
}.

#[global] Instance skip_table_array_ops : SkipTable Byte.byte skip_table_array := {
  skip_table_new patSize default_value :=
    SkipTableArray (replicate 256 default_value) default_value;
  skip_insert t key val :=
    SkipTableArray (<[Byte.to_nat key := val]> (arr_skip_ t))
                   (arr_k_default_value t);
  skip_lookup t val := arr_skip_ t !!! Byte.to_nat val;
}.

#[global] Instance byte_eq_dec : EqDecision Byte.byte := Byte.byte_eq_dec.
#[global] Instance byte_countable : Countable Byte.byte :=
  inj_countable Byte.to_N Byte.of_N Byte.of_to_N.

(** ** Boyer-Moore *)

Module boyer_moore.
Section defs.
Context {A : Type} `{EqDecision A} {T : Type} `{SkipTable A T}.

Record t : Type := Build {
  pat : list A;               (* [pat_first, pat_last) *)
  k_pattern_length : Z;
  skip_ : T;
  suffix_ : list Z;
}.

Definition compute_bm_prefix (fuel : nat) (pat : list A) (prefix : list Z)
    : res (list Z) :=
  let count := to_size (len pat) in
  _ ← BOOST_ASSERT (count > 0);
  _ ← BOOST_ASSERT (to_size (len prefix) = count);
  prefix ← write prefix 0 0;
  while fuel (λ '(i, k, prefix),
    if decide (i < count) then
      _ ← BOOST_ASSERT (k < count);
      k ← while fuel (λ k,
             if decide (k > 0) then
               a ← at_ pat (to_diff k);
               b ← at_ pat (to_diff i);
               if decide (a ≠ b) then
                 _ ← BOOST_ASSERT (k < count);
                 k ← at_ prefix (to_size (k - 1));
                 mret (Continue k)
               else mret (Break k)
             else mret (Break k)) k;
      a ← at_ pat (to_diff k);
      b ← at_ pat (to_diff i);
      let k := if decide (a = b) then to_size (k + 1) else k in
      prefix ← write prefix i k;
      mret (Continue (to_size (i + 1), k, prefix))
    else mret (Break prefix)) (1, 0, prefix).

Definition create_suffix_table (fuel : nat) (pat : list A) (suffix_ : list Z)
    : res (list Z) :=
  let count := to_size (len pat) in
  if decide (count > 0) then
    let reversed := reverse pat in
    let prefix := replicate (Z.to_nat count) 0 in
    prefix ← compute_bm_prefix fuel pat prefix;
    let prefix_reversed := replicate (Z.to_nat count) 0 in
    prefix_reversed ← compute_bm_prefix fuel reversed prefix_reversed;
    suffix_ ← while fuel (λ '(i, suffix_),
      if decide (i ≤ count) then
        p ← at_ prefix (to_size (count - 1));
        suffix_ ← write suffix_ i (to_size (count - p));
        mret (Continue (to_size (i + 1), suffix_))
      else mret (Break suffix_)) (0, suffix_);
    while fuel (λ '(i, suffix_),
      if decide (i < count) then
        p ← at_ prefix_reversed i;
        let j := to_size (count - p) in
        p ← at_ prefix_reversed i;
        let k := to_size (to_size (i - p) + 1) in
        s ← at_ suffix_ j;
        suffix_ ← (if decide (s > k) then write suffix_ j k else mret suffix_);
        mret (Continue (to_size (i + 1), suffix_))
      else mret (Break suffix_)) (0, suffix_)
  else mret suffix_.

Definition build_bm_tables (fuel : nat) (pat : list A) (skip_ : T)
    (suffix_ : list Z) : res (T * list Z) :=
  skip_ ← while fuel (λ '(iter, i, skip_),
    if decide (iter ≠ len pat) then
      x ← at_ pat iter;
      let skip_ := skip_insert skip_ x (to_int i) in
      mret (Continue (iter + 1, to_size (i + 1), skip_))
    else mret (Break skip_)) (0, 0, skip_);
  suffix_ ← create_suffix_table fuel pat suffix_;
  mret (skip_, suffix_).

(** [boyer_moore ( first, last )] *)
Definition new (fuel : nat) (pat : list A) : res t :=
  let k_pattern_length := to_size (len pat) in
  let skip_ := skip_table_new k_pattern_length (-1) in
  let suffix_ := replicate (Z.to_nat (to_size (k_pattern_length + 1))) 0 in
  '(skip_, suffix_) ← build_bm_tables fuel pat skip_ suffix_;
  mret (Build pat k_pattern_length skip_ suffix_).

(** How the comparison at one alignment ends. *)
Inductive compared : Type :=
  | Matched                  (* [return curPos] *)
  | Mismatch (j : Z).        (* the inner loop was left, with this [j] *)

(** The inner loop of [do_search]: do we match right where we are? *)
Definition match_here (fuel : nat) (bm : t) (corpus : range A) (curPos : Z)
    : res compared :=
  while fuel (λ j,
    a ← at_ (pat bm) (to_diff (to_size (j - 1)));
    b ← deref corpus (curPos + to_diff (to_size (j - 1)));
    if decide (a = b) then
      let j := to_size (j - 1) in
      if decide (j = 0) then mret (Break Matched)
      else mret (Continue j)
    else mret (Break (Mismatch j))) (k_pattern_length bm).

(** The end of the body of the outer loop of [do_search]: since we did not
    match, figure out how far to skip forward. *)
Definition skip_forward (bm : t) (corpus : range A) (curPos j : Z) : res Z :=
  c ← deref corpus (curPos + to_diff (to_size (j - 1)));
  let k := skip_lookup (skip_ bm) c in
  let m := to_int (to_size (to_size (j - to_size k) - 1)) in
  if decide (k < to_int j) then
    s ← at_ (suffix_ bm) j;
    if decide (m > to_int s) then mret (curPos + to_diff m)
    else
      s ← at_ (suffix_ bm) j;
      mret (curPos + to_diff s)
  else
    s ← at_ (suffix_ bm) j;
    mret (curPos + to_diff s).

Definition do_search_body (fuel : nat) (bm : t) (corpus : range A)
    (curPos : Z) : res (ctl Z Z) :=
  let lastPos := distance corpus - to_diff (k_pattern_length bm) in
  if decide (curPos ≤ lastPos) then
    r ← match_here fuel bm corpus curPos;
    match r with
    | Matched => mret (Break curPos)
    | Mismatch j =>
        curPos ← skip_forward bm corpus curPos j;
        mret (Continue curPos)
    end
  else mret (Break (distance corpus)).

Definition do_search (fuel : nat) (bm : t) (corpus : range A)
    (k_corpus_length : Z) : res Z :=
  while fuel (do_search_body fuel bm corpus) 0.

(** [operator () ( corpus_first, corpus_last )] *)
Definition call (fuel : nat) (bm : t) (corpus : range A) : res Z :=
  if decide (distance corpus = 0) then mret (distance corpus)
  else if decide (len (pat bm) = 0) then mret 0
  else
    let k_corpus_length := to_size (distance corpus) in
    if decide (k_corpus_length < k_pattern_length bm) then
      mret (distance corpus)
    else do_search fuel bm corpus k_corpus_length.

End defs.
Arguments t A T : clear implicits.
End boyer_moore.

(** [boyer_moore_search ( corpus_first, corpus_last, pat_first, pat_last )] *)
Definition boyer_moore_search {A : Type} `{EqDecision A} {T : Type}
    `{SkipTable A T} (fuel : nat) (corpus : range A) (pat : list A) : res Z :=
  bm ← boyer_moore.new (T := T) fuel pat;
  boyer_moore.call fuel bm corpus.

(** ** Boyer-Moore-Horspool *)

Module boyer_moore_horspool.
Section defs.
Context {A : Type} `{EqDecision A} {T : Type} `{SkipTable A T}.

Record t : Type := Build {
  pat : list A;               (* [pat_first, pat_last) *)
  k_pattern_length : Z;
  skip_ : T;
}.

(** [boyer_moore_horspool ( first, last )] *)
Definition new (fuel : nat) (pat : list A) : res t :=
  let k_pattern_length := to_size (len pat) in
  let skip_ := skip_table_new k_pattern_length (to_int k_pattern_length) in
  skip_ ←
    (if decide (0 ≠ len pat) then
       while fuel (λ '(iter, i, skip_),
         if decide (iter ≠ len pat - 1) then
           x ← at_ pat iter;
           let skip_ :=
             skip_insert skip_ x
               (to_int (to_size (to_size (k_pattern_length - 1) - i))) in
           mret (Continue (iter + 1, to_size (i + 1), skip_))
         else mret (Break skip_)) (0, 0, skip_)
     else mret skip_);
  mret (Build pat k_pattern_length skip_).

Inductive compared : Type :=
  | Matched                  (* [return curPos] *)
  | Mismatch (j : Z).        (* the inner loop was left, with this [j] *)

(** The inner loop of [do_search]: do we match right where we are? *)
Definition match_here (fuel : nat) (bmh : t) (corpus : range A) (curPos : Z)
    : res compared :=
  while fuel (λ j,
    a ← at_ (pat bmh) (to_diff j);
    b ← deref corpus (curPos + to_diff j);
    if decide (a = b) then
      if decide (j = 0) then mret (Break Matched)
      else mret (Continue (to_size (j - 1)))
    else mret (Break (Mismatch j))) (to_size (k_pattern_length bmh - 1)).

Definition do_search_body (fuel : nat) (bmh : t) (corpus : range A)
    (curPos : Z) : res (ctl Z Z) :=
  let lastPos := distance corpus - to_diff (k_pattern_length bmh) in
  if decide (curPos ≤ lastPos) then
    r ← match_here fuel bmh corpus curPos;
    match r with
    | Matched => mret (Break curPos)
    | Mismatch _ =>
        c ← deref corpus
              (curPos + to_diff (to_size (k_pattern_length bmh - 1)));
        mret (Continue (curPos + to_diff (skip_lookup (skip_ bmh) c)))
    end
  else mret (Break (distance corpus)).

Definition do_search (fuel : nat) (bmh : t) (corpus : range A)
    (k_corpus_length : Z) : res Z :=
  while fuel (do_search_body fuel bmh corpus) 0.

(** [operator () ( corpus_first, corpus_last )] *)
Definition call (fuel : nat) (bmh : t) (corpus : range A) : res Z :=
  if decide (distance corpus = 0) then mret (distance corpus)
  else if decide (len (pat bmh) = 0) then mret 0
  else
    let k_corpus_length := to_size (distance corpus) in
    if decide (k_corpus_length < k_pattern_length bmh) then
      mret (distance corpus)
    else do_search fuel bmh corpus k_corpus_length.

End defs.
Arguments t A T : clear implicits.
End boyer_moore_horspool.

(** [boyer_moore_horspool_search ( corpus_first, corpus_last, pat_first,
    pat_last )] *)
Definition boyer_moore_horspool_search {A : Type} `{EqDecision A} {T : Type}
    `{SkipTable A T} (fuel : nat) (corpus : range A) (pat : list A) : res Z :=
  bmh ← boyer_moore_horspool.new (T := T) fuel pat;
  boyer_moore_horspool.call fuel bmh corpus.

(** ** Knuth-Morris-Pratt *)

Module knuth_morris_pratt.
Section defs.
Context {A : Type} `{EqDecision A}.

Record t : Type := Build {
  pat : list A;               (* [pat_first, pat_last) *)
  k_pattern_length : Z;
  skip_ : list Z;
}.

Definition init_skip_table (fuel : nat) (first : list A) (skip_ : list Z)
    : res (list Z) :=
  let count := to_int (len first) in
  skip_ ← write skip_ 0 (-1);
  while fuel (λ '(i, skip_),
    if decide (i ≤ count) then
      j ← at_ skip_ (to_size (to_int (i - 1)));
      j ← while fuel (λ j,
             if decide (j >= 0) then
               a ← at_ first (to_diff j);
               b ← at_ first (to_diff (to_int (i - 1)));
               if decide (a = b) then mret (Break j)
               else
                 j ← at_ skip_ (to_size j);
                 mret (Continue j)
             else mret (Break j)) j;
      skip_ ← write skip_ (to_size i) (to_int (j + 1));
      mret (Continue (to_int (i + 1), skip_))
    else mret (Break skip_)) (1, skip_).

(** [knuth_morris_pratt ( first, last )] *)
Definition new (fuel : nat) (pat : list A) : res t :=
  let k_pattern_length := to_size (len pat) in
  let skip_ := replicate (Z.to_nat (to_size (k_pattern_length + 1))) 0 in
  skip_ ← init_skip_table fuel pat skip_;
  mret (Build pat k_pattern_length skip_).

Inductive compared : Type :=
  | Matched                  (* [return corpus_first + match_start] *)
  | Mismatch (idx : Z).      (* the inner loop was left, with this [idx] *)

(** The inner loop of [do_search]. *)
Definition match_here (fuel : nat) (kmp : t) (corpus : range A)
    (idx match_start : Z) : res compared :=
  while fuel (λ idx,
    a ← at_ (pat kmp) (to_diff idx);
    b ← deref corpus (to_diff (to_size (match_start + idx)));
    if decide (a = b) then
      let idx := to_size (idx + 1) in
      if decide (idx = k_pattern_length kmp) then mret (Break Matched)
      else mret (Continue idx)
    else mret (Break (Mismatch idx))) idx.

(** The end of the body of the outer loop of [do_search]: figure out where
    to start searching again. *)
Definition start_again (kmp : t) (idx match_start : Z) : res (Z * Z) :=
  s ← at_ (skip_ kmp) idx;
  let match_start := to_size (match_start + to_size (idx - to_size s)) in
  s ← at_ (skip_ kmp) idx;
  idx ← (if decide (s >= 0) then
           s ← at_ (skip_ kmp) idx; mret (to_size s)
         else mret 0);
  mret (idx, match_start).

Definition do_search_body (fuel : nat) (kmp : t) (corpus : range A)
    (last_match : Z) : Z * Z → res (ctl (Z * Z) Z) :=
  λ '(idx, match_start),
  if decide (match_start ≤ last_match) then
    r ← match_here fuel kmp corpus idx match_start;
    match r with
    | Matched => mret (Break (to_diff match_start))
    | Mismatch idx =>
        st ← start_again kmp idx match_start;
        mret (Continue st)
    end
  else mret (Break (distance corpus)).

Definition do_search (fuel : nat) (kmp : t) (corpus : range A)
    (k_corpus_length : Z) : res Z :=
  let last_match := to_size (k_corpus_length - k_pattern_length kmp) in
  while fuel (do_search_body fuel kmp corpus last_match) (0, 0).

(** [operator () ( corpus_first, corpus_last )] *)
Definition call (fuel : nat) (kmp : t) (corpus : range A) : res Z :=
  if decide (distance corpus = 0) then mret (distance corpus)
  else if decide (len (pat kmp) = 0) then mret 0
  else
    let k_corpus_length := to_size (distance corpus) in
    if decide (k_corpus_length < k_pattern_length kmp) then
      mret (distance corpus)
    else do_search fuel kmp corpus k_corpus_length.

End defs.
Arguments t A : clear implicits.
End knuth_morris_pratt.

(** [knuth_morris_pratt_search ( corpus_first, corpus_last, pat_first,
    pat_last )] *)
Definition knuth_morris_pratt_search {A : Type} `{EqDecision A}
    (fuel : nat) (corpus : range A) (pat : list A) : res Z :=
  kmp ← knuth_morris_pratt.new fuel pat;
  knuth_morris_pratt.call fuel kmp corpus.

(** * The hex codec ([boost/algorithm/hex.hpp]) *)

Module hex.

(** The exceptions of the decoder. *)
Inductive hex_decode_error : Type :=
  | non_hex_input
  | not_enough_input.

Inductive outcome (A : Type) : Type :=
  | Returns (a : A)
  | Throws (e : hex_decode_error)
  | Stuck.          (* out of fuel, or a read past the end of the input *)
Arguments Returns {A} a.
Arguments Throws {A} e.
Arguments Stuck {A}.

#[global] Instance outcome_ret : MRet outcome := λ A a, Returns a.
#[global] Instance outcome_bind : MBind outcome := λ A B k m,
  match m with
  | Returns a => k a
  | Throws e => Throws e
  | Stuck => Stuck
  end.

(** A character ([char]) is its code. *)
Definition hex_char_to_int (c : Z) : outcome Z :=
  if decide (c >= 48 ∧ c <= 57) then mret (c - 48)
  else if decide (c >= 65 ∧ c <= 70) then mret (c - 65 + 10)
  else if decide (c >= 97 ∧ c <= 102) then mret (c - 97 + 10)
  else Throws non_hex_input.

(** The conversion of an element of the input, of whatever integral type,
    to [char], the parameter of [hex_char_to_int]: its low byte, read as a
    signed [char] (a value out of the range of [char] is converted modulo
    256). With an unsigned [char] the tests of [hex_char_to_int] end in the
    same way, the digits being below 128. *)
Definition to_char (z : Z) : Z := (z + 128) `mod` 256 - 128.

(** An integral type: an integer or character type, with its size in bytes
    and its signedness, or [bool], of one byte. *)
Inductive integral : Type :=
  | Integral (sizeof : positive) (is_signed : bool)
  | Bool.

Definition sizeof (T : integral) : positive :=
  match T with
  | Integral n _ => n
  | Bool => 1%positive
  end.

(** Conversion to the integral type [T]: modulo two to the number of its
    bits for an integer or character type, and by [!= 0] for [bool]. *)
Definition convert (T : integral) (z : Z) : Z :=
  match T with
  | Integral n signed =>
      let bits := 8 * Z.pos n in
      if signed then (z + 2 ^ (bits - 1)) `mod` 2 ^ bits - 2 ^ (bits - 1)
      else z `mod` 2 ^ bits
  | Bool => if decide (z ≠ 0) then 1 else 0
  end.

(** The number of characters that make one value of [T]. *)
Definition unit_size (T : integral) : nat := Pos.to_nat (2 * sizeof T).

(** The loop of [decode_one], with [i] runs to go. An input iterator is the
    input from it on; [last] is the distance from [first] to [last]. The
    elements of the input are of any integral type; [*first] is converted to
    [char] where [hex_char_to_int] is called. *)
Fixpoint decode_loop (T : integral) (i : nat) (first : list Z) (last : nat)
    (res : Z) : outcome (Z * list Z * nat) :=
  match i with
  | O => mret (res, first, last)
  | S i =>
      if decide (last = 0%nat) then Throws not_enough_input
      else
        match first with
        | [] => Stuck
        | c :: first =>
            let res := convert T (res * 16) in
            d ← hex_char_to_int (to_char c);
            let res := convert T (res + d) in
            decode_loop T i first (last - 1) res
        end
  end.

(** [decode_one ( first, last, out )], with [first] passed by reference. *)
Definition decode_one (T : integral) (first : list Z) (last : nat)
    (out : list Z) : outcome (list Z * nat * list Z) :=
  '(res, first, last) ← decode_loop T (unit_size T) first last 0;
  mret (first, last, out ++ [res]).

Fixpoint unhex_loop (T : integral) (fuel : nat) (first : list Z) (last : nat)
    (out : list Z) : outcome (list Z) :=
  if decide (last ≠ 0%nat) then
    match fuel with
    | O => Stuck
    | S fuel =>
        '(first, last, out) ← decode_one T first last out;
        unhex_loop T fuel first last out
    end
  else mret out.

(** [unhex ( first, last, out )], and with it [unhex ( r, out )] and
    [unhex ( input )]; [T] is the type that the output takes. *)
Definition unhex (T : integral) (input : list Z) : outcome (list Z) :=
  unhex_loop T (length input) input (length input) [].

Fixpoint unhex_ptr_loop (T : integral) (fuel : nat) (ptr : list Z)
    (out : list Z) : outcome (list Z) :=
  match ptr with
  | [] => Stuck
  | c :: _ =>
      if decide (c ≠ 0) then
        match fuel with
        | O => Stuck
        | S fuel =>
            '(ptr, _, out) ← decode_one T ptr (unit_size T) out;
            unhex_ptr_loop T fuel ptr out
        end
      else mret out
  end.

(** [unhex ( ptr, out )]: [s] is the string that [ptr] points to, before
    its terminator. *)
Definition unhex_ptr (T : integral) (s : list Z) : outcome (list Z) :=
  unhex_ptr_loop T (length s) (s ++ [0]) [].

(** The string literal ["0123456789ABCDEF"]. *)
Definition digits : list Z :=
  [48; 49; 50; 51; 52; 53; 54; 55; 56; 57; 65; 66; 67; 68; 69; 70].

(** The loop of [encode_one], with [i] runs to go: [res] is the array and [p]
    the index that the pointer [p] is at. *)
Fixpoint encode_loop (T : integral) (i : nat) (val : Z) (p : nat)
    (res : list Z) : list Z :=
  match i with
  | O => res
  | S i =>
      let p := (p - 1)%nat in
      let res := <[p := digits !!! Z.to_nat (Z.land val 15)]> res in
      encode_loop T i (convert T (Z.shiftr val 4)) p res
  end.

(** [encode_one ( val, out )]; the array [res] starts with zeros, and the
    shift to the right of a negative value is the arithmetic one. *)
Definition encode_one (T : integral) (val : Z) (out : list Z) : list Z :=
  let res := replicate (unit_size T) 0 in
  out ++ encode_loop T (unit_size T) val (unit_size T) res.

Fixpoint hex_loop (T : integral) (first : list Z) (out : list Z) : list Z :=
  match first with
  | [] => out
  | val :: first => hex_loop T first (encode_one T val out)
  end.

(** [hex ( first, last, out )], and with it [hex ( r, out )] and
    [hex ( input )]; [T] is the type of the elements of the input. *)
Definition hex (T : integral) (input : list Z) : list Z :=
  hex_loop T input [].

Fixpoint hex_ptr_loop (T : integral) (ptr : list Z) (out : list Z)
    : outcome (list Z) :=
  match ptr with
  | [] => Stuck
  | val :: ptr =>
      if decide (val ≠ 0) then hex_ptr_loop T ptr (encode_one T val out)
      else mret out
  end.

(** [hex ( ptr, out )]: [s] is what [ptr] points to, before the terminator. *)
Definition hex_ptr (T : integral) (s : list Z) : outcome (list Z) :=
  hex_ptr_loop T (s ++ [0]) [].

(** The digits 0-9, A-F and a-f. *)
Definition is_hex_digit (c : Z) : bool :=
  bool_decide (48 ≤ c ≤ 57 ∨ 65 ≤ c ≤ 70 ∨ 97 ≤ c ≤ 102).

(** The elements of the input that [hex_char_to_int] takes for a digit:
    the ones whose conversion to [char] is one. For an input of [char], these
    are the digits. *)
Definition is_hex_digit_element (c : Z) : bool := is_hex_digit (to_char c).

End hex.

(** * Testing that no element matches ([boost/algorithm/none_of.hpp]) *)

Section none_of.
Context {A : Type} `{EqDecision A}.

(** [none_of ( first, last, p )] (the version of the file, for a compiler
    before C++11); [first] is the index of the element that the iterator is
    at. *)
Definition none_of (fuel : nat) (r : range A) (p : A → bool) : res bool :=
  while fuel (λ first,
    if decide (first ≠ distance r) then
      x ← deref r first;
      if p x then mret (Break false)
      else mret (Continue (first + 1))
    else mret (Break true)) 0.

(** [none_of_equal ( first, last, val )] *)
Definition none_of_equal (fuel : nat) (r : range A) (val : A) : res bool :=
  while fuel (λ first,
    if decide (first ≠ distance r) then
      x ← deref r first;
      if decide (val = x) then mret (Break false)
      else mret (Continue (first + 1))
    else mret (Break true)) 0.

End none_of.

(** * Specification *)

(** ** The reference: a brute-force scan *)

Fixpoint naive_scan {A : Type} `{EqDecision A} (pat corpus : list A) (p : Z)
    : option Z :=
  if decide (take (length pat) corpus = pat) then Some p
  else
    match corpus with
    | [] => None
    | _ :: corpus' => naive_scan pat corpus' (p + 1)
    end.

(** The leftmost position at which the corpus reads as the pattern, and one
    past the end of the corpus if there is none. *)
Definition naive_search {A : Type} `{EqDecision A} (corpus pat : list A) : Z :=
  default (len corpus) (naive_scan pat corpus 0).

Section specification.
Context {A : Type}.
Implicit Types (s pat corpus : list A) (i b : Z).

(** The corpus reads as the pattern at position [p]. *)
Definition occ pat corpus (p : Z) : Prop :=
  0 ≤ p ∧ p + len pat ≤ len corpus ∧
  ∀ i, 0 ≤ i < len pat → zget corpus (p + i) = zget pat i.

(** What a search has to return: the leftmost occurrence, or one past the
    end of the corpus if there is none. *)
Definition found pat corpus (r : Z) : Prop :=
  (occ pat corpus r ∧ ∀ q, occ pat corpus q → r ≤ q) ∨
  (r = len corpus ∧ ∀ q, ¬ occ pat corpus q).

(** [border s i b]: the first [b] elements of [s], fewer than [i], are also
    the last [b] of its first [i] elements. *)
Definition border s i b : Prop :=
  0 ≤ b < i ∧ ∀ k, 0 ≤ k < b → zget s k = zget s (i - b + k).

(** The longest border. *)
Definition lborder s i b : Prop :=
  border s i b ∧ ∀ b', border s i b' → b' ≤ b.

(** What [init_skip_table] leaves in [skip_]. *)
Definition kmp_table pat (skip_ : list Z) : Prop :=
  len skip_ = len pat + 1 ∧
  zget skip_ 0 = Some (-1) ∧
  ∀ i, 1 ≤ i ≤ len pat → ∃ b, zget skip_ i = Some b ∧ lborder pat i b.

(** What [compute_bm_prefix] leaves in [prefix]: at [i], the length of the
    longest border of the first [i + 1] elements. *)
Definition bm_prefix s (prefix : list Z) : Prop :=
  len prefix = len s ∧
  ∀ i, 0 ≤ i < len s → ∃ b, zget prefix i = Some b ∧ lborder s (i + 1) b.

(** A shift by [sh] of the pattern agrees with the part of it that matched,
    from [j] on. *)
Definition compat pat (j sh : Z) : Prop :=
  ∀ t, j ≤ t < len pat → 0 ≤ t - sh → zget pat (t - sh) = zget pat t.

(** What [create_suffix_table] leaves in [suffix_]: at [j], a shift of at
    least one that passes over no shift that agrees with the pattern from
    [j] on. *)
Definition bm_suffix pat (suffix_ : list Z) : Prop :=
  len suffix_ = len pat + 1 ∧
  ∀ j, 0 ≤ j ≤ len pat →
    ∃ v, zget suffix_ j = Some v ∧ 1 ≤ v ≤ len pat ∧
         ∀ sh, 1 ≤ sh → compat pat j sh → v ≤ sh.

(** [k] is the last index below [bound] at which [pat] has [c], and [-1] if
    there is none. *)
Definition rightmost pat (bound : Z) (c : A) (k : Z) : Prop :=
  -1 ≤ k < bound ∧ (0 ≤ k → zget pat k = Some c) ∧
  ∀ i, k < i < bound → zget pat i ≠ Some c.

Context {T : Type} `{SkipTable A T}.

(** What [build_bm_tables] leaves in the skip table: the last position of
    the symbol in the pattern, and [-1] for a symbol that does not occur. *)
Definition bm_table pat (sk : T) : Prop :=
  ∀ c, rightmost pat (len pat) c (skip_lookup sk c).

(** What the constructor of Boyer-Moore-Horspool leaves in the skip table:
    the distance from the last occurrence of the symbol before the last
    position to the last position, and the length of the pattern for a symbol
    that does not occur there. *)
Definition bmh_table pat (sk : T) : Prop :=
  ∀ c, rightmost pat (len pat - 1) c (len pat - 1 - skip_lookup sk c).

(** A sequence of calls of [insert]. *)
Definition skip_inserts (ops : list (A * Z)) (t : T) : T :=
  foldl (λ t op, skip_insert t op.1 op.2) t ops.

End specification.

(** The shift of Boyer-Moore after a mismatch at [j - 1], from the last
    position [k] of the corpus symbol in the pattern and the good suffix
    shift [v]. *)
Definition bm_shift (j k v : Z) : Z :=
  let m := j - k - 1 in
  if decide (k < j ∧ m > v) then Z.max m v else v.

(** The length of the longest proper prefix of [s] that is also a suffix of
    [s], searched from the longest candidate down. *)
Fixpoint longest_border_below {A : Type} `{EqDecision A} (s : list A)
    (n : nat) : nat :=
  match n with
  | O => O
  | S n' =>
      if decide (take n' s = drop (length s - n') s) then n'
      else longest_border_below s n'
  end.

Definition longest_border {A : Type} `{EqDecision A} (s : list A) : nat :=
  longest_border_below s (length s).

(** The value of the last call of [insert] for the symbol [c], and [d] if
    there is none. *)
Fixpoint last_inserted {K : Type} `{EqDecision K} (ops : list (K * Z))
    (d : Z) (c : K) : Z :=
  match ops with
  | [] => d
  | op :: ops => last_inserted ops (if decide (op.1 = c) then op.2 else d) c
  end.

(** ** What a skip table has to do *)

Class SkipTableLaws (K T : Type) `{EqDecision K} `{SkipTable K T} : Type := {
  (** the tables that the operations build *)
  skip_wf : T → Prop;
  skip_wf_new patSize default_value :
    skip_wf (skip_table_new patSize default_value);
  skip_wf_insert t key val : skip_wf t → skip_wf (skip_insert t key val);
  skip_lookup_new patSize default_value c :
    skip_lookup (skip_table_new patSize default_value) c = default_value;
  skip_lookup_insert t key val c :
    skip_wf t →
    skip_lookup (skip_insert t key val) c =
      if decide (key = c) then val else skip_lookup t c;
}.

(** The arrays of the operations have their 256 entries. *)
Definition skip_table_array_wf (t : skip_table_array) : Prop :=
  length (arr_skip_ t) = 256%nat.

(** ** The hex codec: what is written and what is read *)

(** The values of the integral type [T]. *)
Definition value_of (T : hex.integral) (v : Z) : Prop :=
  match T with
  | hex.Integral n signed =>
      let bits := 8 * Z.pos n in
      if signed then - 2 ^ (bits - 1) ≤ v < 2 ^ (bits - 1)
      else 0 ≤ v < 2 ^ bits
  | hex.Bool => 0 ≤ v ≤ 1
  end.

(** [std::toupper], in the "C" locale. *)
Definition toupper (c : Z) : Z :=
  if decide (97 ≤ c ≤ 122) then c - 32 else c.

(** The characters that [hex] writes: the digits and the capital letters A
    to F. *)
Definition is_upper_hex_digit (c : Z) : bool :=
  bool_decide (48 ≤ c ≤ 57 ∨ 65 ≤ c ≤ 70).

(** The value of a hexadecimal digit. *)
Definition digit_value (c : Z) : Z :=
  if decide (c ≤ 57) then c - 48
  else if decide (c ≤ 70) then c - 55
  else c - 87.

(** The four-bit groups of the lowest [4 * i] bits of [val], the highest
    group first, as the loop of [encode_one] takes them. *)
Fixpoint nibbles (T : hex.integral) (i : nat) (val : Z) : list Z :=
  match i with
  | O => []
  | S i => nibbles T i (hex.convert T (Z.shiftr val 4)) ++ [Z.land val 15]
  end.

(** The number of the values of the type [T]. *)
Definition modulus (T : hex.integral) : Z := 2 ^ (8 * Z.pos (hex.sizeof T)).

(** The number that a sequence of groups stands for, after [X]. *)
Definition positional (X : Z) (ds : list Z) : Z :=
  foldl (λ a d, a * 16 + d) X ds.

(** The characters that [encode_one] writes for [val]. *)
Definition encoding (T : hex.integral) (val : Z) : list Z :=
  (λ d, hex.digits !!! Z.to_nat d) <$> nibbles T (hex.unit_size T) val.

(** ** What a computation does *)

(** [sat F r Q]: the computation stayed inside of its sequences and its
    assertions hold, its result satisfies [Q], and it ran out of fuel only if
    the fuel was not enough ([F] false). *)
Definition sat {A : Type} (F : Prop) (r : res A) (Q : A → Prop) : Prop :=
  match r with
  | Ok a => Q a
  | OutOfBounds => False
  | AssertFailed => False
  | OutOfFuel => ¬ F
  end.

(** ** The scenarios of the specification *)

Definition ABABCABAB : list Byte.byte :=
  [Byte.x41; Byte.x42; Byte.x41; Byte.x42; Byte.x43; Byte.x41; Byte.x42;
   Byte.x41; Byte.x42].
Definition ABABDABACDABABCABAB : list Byte.byte :=
  [Byte.x41; Byte.x42; Byte.x41; Byte.x42; Byte.x44; Byte.x41; Byte.x42;
   Byte.x41; Byte.x43; Byte.x44; Byte.x41; Byte.x42; Byte.x41; Byte.x42;
   Byte.x43; Byte.x41; Byte.x42; Byte.x41; Byte.x42].
Definition AABA : list Byte.byte := [Byte.x41; Byte.x41; Byte.x42; Byte.x41].
Definition AABAACAADAABAABA : list Byte.byte :=
  [Byte.x41; Byte.x41; Byte.x42; Byte.x41; Byte.x41; Byte.x43; Byte.x41;
   Byte.x41; Byte.x44; Byte.x41; Byte.x41; Byte.x42; Byte.x41; Byte.x41;
   Byte.x42; Byte.x41].
Definition ABC : list Byte.byte := [Byte.x41; Byte.x42; Byte.x43].
Definition only_X : list Byte.byte := [Byte.x58].
Definition AAA : list Byte.byte := [Byte.x41; Byte.x41; Byte.x41].
Definition AAAA : list Byte.byte := [Byte.x41; Byte.x41; Byte.x41; Byte.x41].

(** The three searches of a corpus for a pattern, with the array and with
    the map as the skip table. *)
Definition all_searches (fuel : nat) (corpus pat : list Byte.byte)
    : list (res Z) :=
  [boyer_moore_search (T := skip_table_array) fuel (range_of corpus) pat;
   boyer_moore_search (T := skip_table_map Byte.byte) fuel (range_of corpus)
     pat;
   boyer_moore_horspool_search (T := skip_table_array) fuel (range_of corpus)
     pat;
   boyer_moore_horspool_search (T := skip_table_map Byte.byte) fuel
     (range_of corpus) pat;
   knuth_morris_pratt_search fuel (range_of corpus) pat].

(** * Proofs *)

(** ** Reasoning about [res] *)

Lemma sat_ret {A} (F : Prop) (a : A) (Q : A → Prop) : Q a → sat F (Ok a) Q.
Proof. done. Qed.

Lemma sat_bind {A B} (F : Prop) (m : res A) (k : A → res B) (Q : B → Prop) :
  sat F m (λ a, sat F (k a) Q) → sat F (m ≫= k) Q.
Proof. by destruct m. Qed.

Lemma sat_mono {A} (F : Prop) (r : res A) (Q Q' : A → Prop) :
  sat F r Q → (∀ a, Q a → Q' a) → sat F r Q'.
Proof. destruct r; simpl; auto. Qed.

Lemma sat_Ok {A} (F : Prop) (r : res A) (Q : A → Prop) :
  sat F r Q → F → ∃ a, r = Ok a ∧ Q a.
Proof. destruct r; simpl; [eauto | done | done | done]. Qed.

Lemma sat_in_bounds {A} (F : Prop) (r : res A) (Q : A → Prop) :
  sat F r Q → r ≠ OutOfBounds.
Proof. by destruct r. Qed.

(** The rule of a loop: an invariant, and a bound on the back edges still to
    be taken that every one of them decreases. *)
Lemma sat_while {S R} (F : Prop) (Inv : S → Prop) (mu : S → nat)
    (Q : R → Prop) (body : S → res (ctl S R)) :
  (∀ s, Inv s →
     sat F (body s) (λ c, match c with
                          | Continue s' => Inv s' ∧ (mu s' < mu s)%nat
                          | Break r => Q r
                          end)) →
  ∀ fuel s, Inv s → (F → (mu s ≤ fuel)%nat) → sat F (while fuel body s) Q.
Proof.
  intros Hbody fuel. induction fuel as [|fuel IH]; intros s Hs Hfuel; simpl;
    specialize (Hbody s Hs); destruct (body s) as [[s'|r]| | |]; simpl in *;
    try done.
  - intros HF. specialize (Hfuel HF). lia.
  - apply IH; [tauto|]. intros HF. specialize (Hfuel HF). lia.
Qed.

Lemma to_int_small z : -2147483648 ≤ z ≤ INT_MAX → to_int z = z.
Proof. unfold to_int, INT_MAX. intros ?. rewrite Z.mod_small; lia. Qed.

Lemma to_diff_small z : -9223372036854775808 ≤ z ≤ PTRDIFF_MAX → to_diff z = z.
Proof. unfold to_diff, PTRDIFF_MAX. intros ?. rewrite Z.mod_small; lia. Qed.

Lemma to_size_small z : 0 ≤ z ≤ SIZE_MAX → to_size z = z.
Proof. unfold to_size, SIZE_MAX. intros ?. rewrite Z.mod_small; lia. Qed.

Lemma to_size_sub_r a b : to_size (a - to_size b) = to_size (a - b).
Proof. unfold to_size. apply Zminus_mod_idemp_r. Qed.

Lemma to_size_sub_l a b : to_size (to_size a - b) = to_size (a - b).
Proof. unfold to_size. apply Zminus_mod_idemp_l. Qed.

Lemma to_size_add_r a b : to_size (a + to_size b) = to_size (a + b).
Proof. unfold to_size. apply Zplus_mod_idemp_r. Qed.

Lemma to_int_to_size a : to_int (to_size a) = to_int a.
Proof.
  unfold to_int, to_size. f_equal.
  rewrite <- Zplus_mod_idemp_l.
  rewrite Z.mod_mod_divide by (by exists 4294967296).
  by rewrite Zplus_mod_idemp_l.
Qed.

Lemma sat_assert (F : Prop) (c : Prop) `{!Decision c} (Q : () → Prop) :
  c → Q () → sat F (BOOST_ASSERT c) Q.
Proof. intros Hc HQ. unfold BOOST_ASSERT. by rewrite decide_True. Qed.

(** ** Indexing *)

Section indexing.
Context {A : Type}.
Implicit Types (l : list A) (i : Z).

Lemma len_nonneg l : 0 ≤ len l.
Proof. unfold len. lia. Qed.

Lemma zget_Some_range l i x : zget l i = Some x → 0 ≤ i < len l.
Proof.
  unfold zget, len. case_decide; [|done]. intros Hx%lookup_lt_Some. lia.
Qed.

Lemma zget_in_range l i : 0 ≤ i < len l → is_Some (zget l i).
Proof.
  unfold zget, len. intros ?. rewrite decide_True by lia.
  apply lookup_lt_is_Some. lia.
Qed.

Lemma zget_ext l1 l2 :
  len l1 = len l2 → (∀ i, 0 ≤ i < len l1 → zget l1 i = zget l2 i) → l1 = l2.
Proof.
  unfold len. intros Hlen Hi. apply list_eq. intros n.
  destruct (decide (n < length l1)%nat) as [Hn|Hn].
  - specialize (Hi (Z.of_nat n)). unfold zget in Hi.
    rewrite !decide_True, !Nat2Z.id in Hi by lia. apply Hi. lia.
  - rewrite !lookup_ge_None_2; [done|lia..].
Qed.

Lemma len_insert l (n : nat) x : len (<[n := x]> l) = len l.
Proof. unfold len. by rewrite length_insert. Qed.

Lemma zget_insert_eq l i x : 0 ≤ i < len l → zget (<[Z.to_nat i := x]> l) i = Some x.
Proof.
  unfold zget, len. intros ?. rewrite decide_True by lia.
  apply list_lookup_insert_eq. lia.
Qed.

Lemma zget_insert_ne l i j x :
  0 ≤ i → i ≠ j → zget (<[Z.to_nat i := x]> l) j = zget l j.
Proof.
  unfold zget. intros ??. case_decide; [|done].
  apply list_lookup_insert_ne. lia.
Qed.

Lemma len_replicate (n : Z) (x : A) : 0 ≤ n → len (replicate (Z.to_nat n) x) = n.
Proof. unfold len. rewrite length_replicate. lia. Qed.

Lemma len_reverse l : len (reverse l) = len l.
Proof. unfold len. by rewrite length_reverse. Qed.

Lemma zget_reverse l i :
  0 ≤ i < len l → zget (reverse l) i = zget l (len l - 1 - i).
Proof.
  unfold zget, len. intros ?. rewrite !decide_True by lia.
  rewrite reverse_lookup by lia. f_equal. lia.
Qed.

Lemma zget_cons_succ x l i : 0 ≤ i → zget (x :: l) (i + 1) = zget l i.
Proof.
  unfold zget. intros ?. rewrite !decide_True by lia.
  replace (Z.to_nat (i + 1)) with (S (Z.to_nat i)) by lia. done.
Qed.

Lemma sat_at (F : Prop) l i (Q : A → Prop) :
  0 ≤ i < len l → (∀ x, zget l i = Some x → Q x) → sat F (at_ l i) Q.
Proof.
  intros [x Hx]%zget_in_range HQ. unfold at_. rewrite Hx. by apply HQ.
Qed.

Lemma sat_write (F : Prop) l i x (Q : list A → Prop) :
  0 ≤ i < len l → Q (<[Z.to_nat i := x]> l) → sat F (write l i x) Q.
Proof. intros [y Hy]%zget_in_range HQ. unfold write. by rewrite Hy. Qed.

End indexing.

(** The steps of a proof about a computation: at a bind, the first
    computation and then the rest of them. *)
Ltac sat_bind := apply sat_bind; cbv beta.
Tactic Notation "sat_at" "as" ident(x) ident(H) :=
  apply sat_bind, sat_at; [try lia | intros x H; cbv beta].
Ltac sat_write := apply sat_bind, sat_write; [try lia | cbv beta].
Ltac sat_assert := apply sat_bind, sat_assert; [try lia | cbv beta].

(** Conversions of values that the target type holds. *)
Ltac unwrap :=
  repeat match goal with
  | |- context [to_int ?z] =>
      rewrite (to_int_small z) by (unfold INT_MAX in *; lia)
  | |- context [to_size ?z] =>
      rewrite (to_size_small z)
        by (unfold INT_MAX, PTRDIFF_MAX, SIZE_MAX in *; lia)
  | |- context [to_diff ?z] =>
      rewrite (to_diff_small z) by (unfold INT_MAX, PTRDIFF_MAX in *; lia)
  end.

(** ** Borders *)

Section borders.
Context {A : Type}.
Implicit Types (s : list A) (i b : Z).

Lemma border_0 s i : 0 < i → border s i 0.
Proof. intros ?. split; [lia|]. intros k ?. lia. Qed.

Lemma border_trans s i j b : border s i j → border s j b → border s i b.
Proof.
  intros [? Hj] [? Hb]. split; [lia|]. intros k ?.
  rewrite (Hb k), (Hj (j - b + k)) by lia. f_equal. lia.
Qed.

Lemma border_restrict s i j b :
  border s i j → border s i b → b < j → border s j b.
Proof.
  intros [? Hj] [? Hb] ?. split; [lia|]. intros k ?.
  rewrite (Hb k), (Hj (j - b + k)) by lia. f_equal. lia.
Qed.

Lemma border_pred s i b :
  border s i b → 1 ≤ b →
  zget s (b - 1) = zget s (i - 1) ∧ (1 < i → border s (i - 1) (b - 1)).
Proof.
  intros [? Hb] ?. split.
  - rewrite Hb by lia. f_equal. lia.
  - intros ?. split; [lia|]. intros k ?. rewrite Hb by lia. f_equal. lia.
Qed.

Lemma border_succ s i b :
  border s (i - 1) b → zget s b = zget s (i - 1) → border s i (b + 1).
Proof.
  intros [? Hb] Heq. split; [lia|]. intros k ?.
  destruct (decide (k = b)) as [->|].
  - rewrite Heq. f_equal. lia.
  - rewrite Hb by lia. f_equal. lia.
Qed.

Lemma lborder_unique s i b b' : lborder s i b → lborder s i b' → b = b'.
Proof.
  intros [Hb H1] [Hb' H2]. apply H1 in Hb'. apply H2 in Hb. lia.
Qed.

End borders.

(** ** The failure table of Knuth-Morris-Pratt *)

Section kmp_table.
Context {A : Type} `{EqDecision A}.
Implicit Types (pat : list A).

Lemma kmp_init_skip_table_sat (F : Prop) fuel pat (skip_ : list Z) :
  len pat < INT_MAX →
  (F → len pat < Z.of_nat fuel) →
  len skip_ = len pat + 1 →
  sat F (knuth_morris_pratt.init_skip_table fuel pat skip_) (kmp_table pat).
Proof.
  intros Hpat Hfuel Hlen. pose proof (len_nonneg pat) as Hpat0.
  unfold knuth_morris_pratt.init_skip_table. unwrap.
  sat_write. 
  apply sat_while with
    (Inv := λ s : Z * list Z, let '(i, sk) := s in 1 ≤ i ≤ len pat + 1 ∧ len sk = len pat + 1 ∧
       zget sk 0 = Some (-1) ∧
       ∀ i', 1 ≤ i' < i → ∃ b, zget sk i' = Some b ∧ lborder pat i' b)
    (mu := λ s, Z.to_nat (len pat + 1 - s.1)).
  - intros [i sk] (Hi & Hsk & Hsk0 & Hborders).
    case_decide as Hcond; simpl.
    2:{ split; [done|]. split; [done|]. intros i' ?. apply Hborders. lia. }
    unwrap. sat_at as j0 Hj0.
    assert (-1 ≤ j0 < i - 1 ∧ (0 ≤ j0 → border pat (i - 1) j0) ∧
      ∀ b, border pat (i - 1) b → j0 < b → zget pat b ≠ zget pat (i - 1))
      as Hinit.
    { destruct (decide (i = 1)) as [->|Hi1].
      * change (1 - 1) with 0 in Hj0. rewrite Hsk0 in Hj0. injection Hj0 as <-.
        split; [lia|]. split; [lia|]. intros b [? _]. lia.
      * destruct (Hborders (i - 1)) as (b & Hb & Hbb & Hbmax); [lia|].
        rewrite Hb in Hj0. injection Hj0 as <-. pose proof Hbb as [? _].
        split; [lia|]. split; [done|]. intros b' Hb' ?.
        apply Hbmax in Hb'. lia. }
    sat_bind.
    eapply sat_mono; [apply sat_while with
      (Inv := λ j, -1 ≤ j < i - 1 ∧ (0 ≤ j → border pat (i - 1) j) ∧
         ∀ b, border pat (i - 1) b → j < b → zget pat b ≠ zget pat (i - 1))
      (mu := λ j, Z.to_nat (j + 1))
      (Q := λ j, -1 ≤ j < i - 1 ∧ lborder pat i (j + 1))|].
    + intros j (Hj & Hjb & Hjmax).
      case_decide as Hj0'; simpl.
      * unwrap. sat_at as a Ha. sat_at as b Hb. case_decide as Heq; simpl.
        -- split; [done|]. split.
           ++ apply border_succ; [apply Hjb; lia|]. congruence.
           ++ intros b' Hb'. destruct (decide (b' ≤ j + 1)); [done|]. exfalso.
              destruct (border_pred _ _ _ Hb') as [Hlast Hrest]; [lia|].
              apply (Hjmax (b' - 1)); [apply Hrest|..]; [lia..|done].
        -- unwrap. sat_at as j' Hj'. simpl.
           destruct (decide (j = 0)) as [->|Hjne].
           ++ rewrite Hsk0 in Hj'. injection Hj' as <-.
              split; [|lia]. split; [lia|]. split; [lia|].
              intros b0 Hb0 Hlt. destruct (decide (b0 = 0)) as [->|].
              ** congruence.
              ** apply Hjmax; [done|lia].
           ++ destruct (Hborders j) as (bj & Hbj & Hbjb & Hbjmax); [lia|].
              rewrite Hbj in Hj'. injection Hj' as <-.
              pose proof Hbjb as [? _].
              split; [|lia]. split; [lia|]. split.
              { intros _. eapply border_trans; [apply Hjb; lia|done]. }
              intros b0 Hb0 Hlt. destruct (decide (j < b0)); [by apply Hjmax|].
              destruct (decide (b0 = j)) as [->|]; [congruence|].
              exfalso. 
              assert (border pat j b0) as Hb'.
              { eapply border_restrict; [apply Hjb; lia|done|lia]. }
              apply Hbjmax in Hb'. lia.
      * assert (j = -1) as -> by lia.
        split; [lia|]. split; [apply border_0; lia|].
        intros b' Hb'. destruct (decide (b' ≤ -1 + 1)); [done|]. exfalso.
        destruct (border_pred _ _ _ Hb') as [Hlast Hrest]; [lia|].
        destruct (decide (i = 1)) as [->|]; [destruct Hb'; lia|].
        apply (Hjmax (b' - 1)); [apply Hrest|..]; [lia..|done].
    + done.
    + intros HF. specialize (Hfuel HF). lia.
    + simpl. intros j [Hj Hjb]. unwrap. sat_write. simpl.
      rewrite len_insert. split; [|lia].
      split; [lia|]. split; [done|]. split.
      { rewrite zget_insert_ne by lia. done. }
      intros i' Hi'. destruct (decide (i' = i)) as [->|].
      * exists (j + 1). split; [|done]. apply zget_insert_eq. lia.
      * rewrite zget_insert_ne by lia. apply Hborders. lia.
  - rewrite len_insert. split; [lia|]. split; [done|]. split.
    + apply (zget_insert_eq skip_ 0). lia.
    + intros i' ?. lia.
  - simpl. intros HF. specialize (Hfuel HF). lia.
Qed.

End kmp_table.

(** ** The search of Knuth-Morris-Pratt *)

Section kmp_search.
Context {A : Type} `{EqDecision A}.
Implicit Types (pat corpus : list A).

Lemma kmp_match_here_sat (F : Prop) fuel pat corpus (skip_ : list Z) idx ms :
  0 ≤ idx < len pat →
  0 ≤ ms ≤ len corpus - len pat →
  len corpus ≤ PTRDIFF_MAX →
  (F → len pat < Z.of_nat fuel) →
  sat F (knuth_morris_pratt.match_here fuel
           (knuth_morris_pratt.Build pat (len pat) skip_) (range_of corpus)
           idx ms)
    (λ r, match r with
          | knuth_morris_pratt.Matched =>
              ∀ k, idx ≤ k < len pat → zget pat k = zget corpus (ms + k)
          | knuth_morris_pratt.Mismatch j =>
              idx ≤ j < len pat ∧
              (∀ k, idx ≤ k < j → zget pat k = zget corpus (ms + k)) ∧
              zget pat j ≠ zget corpus (ms + j)
          end).
Proof.
  intros Hidx Hms Hn Hfuel. unfold knuth_morris_pratt.match_here.
  apply sat_while with
    (Inv := λ j, idx ≤ j < len pat ∧
       ∀ k, idx ≤ k < j → zget pat k = zget corpus (ms + k))
    (mu := λ j, Z.to_nat (len pat - j)).
  - intros j (Hj & Hjpre). simpl. unwrap.
    sat_at as a Ha. sat_at as b Hb. case_decide as Heq; simpl.
    + unwrap. case_decide as Hend; simpl.
      * intros k Hk.
        destruct (decide (k = j)) as [->|]; [congruence|].
        apply Hjpre. lia.
      * split; [|lia]. split; [lia|]. intros k Hk.
        destruct (decide (k = j)) as [->|]; [congruence|].
        apply Hjpre. lia.
    + split; [lia|]. split; [done|]. congruence.
  - split; [lia|]. intros k ?. lia.
  - intros HF. specialize (Hfuel HF). lia.
Qed.

(** Where the search starts again after a mismatch at [j]. *)
Lemma kmp_start_again_eq pat (skip_ : list Z) j s ms :
  zget skip_ j = Some s →
  -1 ≤ s < j →
  0 ≤ ms →
  ms + j ≤ PTRDIFF_MAX →
  knuth_morris_pratt.start_again
    (knuth_morris_pratt.Build pat (len pat) skip_) j ms
  = Ok (Z.max s 0, ms + (j - s)).
Proof.
  intros Hs Hsj Hms Hsum. unfold knuth_morris_pratt.start_again, at_.
  simpl. rewrite Hs. simpl.
  rewrite to_size_sub_r, to_size_add_r. unwrap.
  case_decide; simpl; unwrap; do 2 f_equal; lia.
Qed.

Lemma kmp_do_search_sat (F : Prop) fuel pat corpus (skip_ : list Z) :
  kmp_table pat skip_ →
  0 < len pat ≤ len corpus →
  len corpus ≤ PTRDIFF_MAX →
  (F → len corpus < Z.of_nat fuel) →
  sat F (knuth_morris_pratt.do_search fuel
           (knuth_morris_pratt.Build pat (len pat) skip_) (range_of corpus)
           (len corpus))
        (found pat corpus).
Proof.
  intros (Hlen & Hsk0 & Hborders) Hm Hn Hfuel.
  unfold knuth_morris_pratt.do_search. simpl. unwrap.
  apply sat_while with
    (Inv := λ s : Z * Z, let '(idx, ms) := s in
       0 ≤ idx < len pat ∧ 0 ≤ ms ∧ ms + idx ≤ len corpus ∧
       (∀ q, occ pat corpus q → ms ≤ q) ∧
       ∀ k, 0 ≤ k < idx → zget pat k = zget corpus (ms + k))
    (mu := λ s, Z.to_nat (len corpus + 1 - s.2)).
  - intros [idx ms] (Hidx & Hms & Hsum & Hbefore & Hpre).
    unfold knuth_morris_pratt.do_search_body.
    case_decide as Hcond; simpl.
    2:{ right. split; [done|]. intros q Hq. pose proof (Hbefore q Hq).
        destruct Hq as (? & ? & _). lia. }
    sat_bind. eapply sat_mono.
    { apply kmp_match_here_sat; [done|lia|done|].
      intros HF. specialize (Hfuel HF). lia. }
    intros [|j]; simpl.
    + intros Hrest. unwrap. left. split; [|done].
      split; [done|]. split; [lia|]. intros i Hi. symmetry.
      destruct (decide (i < idx)); [apply Hpre|apply Hrest]; lia.
    + intros (Hj & Hjrest & Hjne).
      assert (∀ k, 0 ≤ k < j → zget pat k = zget corpus (ms + k)) as Hjpre.
      { intros k Hk.
        destruct (decide (k < idx)); [apply Hpre|apply Hjrest]; lia. }
      destruct (zget_in_range skip_ j) as [s Hs]; [lia|].
      assert (-1 ≤ s < j ∧ (0 < j → lborder pat j s)) as (Hsj & Hsb).
      { destruct (decide (j = 0)) as [->|].
        - rewrite Hsk0 in Hs. injection Hs as <-. lia.
        - destruct (Hborders j) as (b & Hb & Hbb); [lia|].
          rewrite Hb in Hs. injection Hs as <-.
          pose proof Hbb as [[? _] _]. split; [lia|done]. }
      rewrite (kmp_start_again_eq pat skip_ j s ms) by (done || lia). simpl.
      split; [|lia]. split; [lia|]. split; [lia|]. split; [lia|]. split.
      * intros q Hq. pose proof (Hbefore q Hq) as Hle.
        destruct (decide (ms + (j - s) ≤ q)); [done|]. exfalso.
        destruct Hq as (_ & Hqn & Hq).
        destruct (decide (q = ms)) as [->|].
        { apply Hjne. symmetry. apply Hq. lia. }
        assert (0 < j) as Hj0 by lia.
        destruct (Hsb Hj0) as [_ Hmax].
        assert (border pat j (j - (q - ms))) as Hb.
        { split; [lia|]. intros k Hk.
          rewrite <- (Hq k) by lia. rewrite Hjpre by lia. f_equal. lia. }
        apply Hmax in Hb. lia.
      * intros k Hk. destruct (Hsb ltac:(lia)) as [[_ Hb] _].
        rewrite Hb by lia. rewrite Hjpre by lia. f_equal. lia.
  - simpl. split; [lia|]. split; [lia|]. split; [lia|]. split.
    + intros q (? & _). lia.
    + intros k ?. lia.
  - simpl. intros HF. specialize (Hfuel HF). lia.
Qed.

End kmp_search.

(** ** The brute-force scan finds the leftmost occurrence *)

Section naive.
Context {A : Type} `{EqDecision A}.
Implicit Types (pat corpus : list A).

Lemma zget_take (l : list A) (n : nat) i :
  0 ≤ i < Z.of_nat n → zget (take n l) i = zget l i.
Proof.
  intros ?. unfold zget. case_decide; [|done].
  apply lookup_take_lt. lia.
Qed.

Lemma occ_0_take pat corpus :
  occ pat corpus 0 ↔ take (length pat) corpus = pat.
Proof.
  split.
  - intros (_ & Hn & Hi). apply zget_ext.
    + unfold len in *. rewrite length_take. lia.
    + intros i. unfold len at 1. rewrite length_take. intros ?.
      rewrite zget_take by lia. rewrite <- Hi by (unfold len; lia).
      f_equal.
  - intros Heq. assert (len pat ≤ len corpus) as Hle.
    { unfold len. rewrite <- Heq at 1. rewrite length_take. lia. }
    split; [done|]. split; [lia|]. intros i Hi.
    transitivity (zget (take (length pat) corpus) i); [|by rewrite Heq].
    rewrite zget_take by (unfold len in *; lia). f_equal.
Qed.

Lemma occ_cons pat x corpus q :
  occ pat (x :: corpus) (q + 1) ↔ occ pat corpus q ∨ (q = -1 ∧ occ pat (x :: corpus) 0).
Proof.
  unfold occ, len. simpl length. split.
  - intros (? & ? & Hi). destruct (decide (q = -1)) as [->|].
    + right. split; [done|]. split; [done|]. split; [lia|]. apply Hi.
    + left. split; [lia|]. split; [lia|]. intros i ?.
      rewrite <- Hi by done. replace (q + 1 + i) with (q + i + 1) by lia.
      by rewrite zget_cons_succ by lia.
  - intros [(? & ? & Hi)|[-> ?]]; [|done].
    split; [lia|]. split; [lia|]. intros i ?.
    rewrite <- Hi by done. replace (q + 1 + i) with (q + i + 1) by lia.
    by rewrite zget_cons_succ by lia.
Qed.

Lemma naive_scan_spec pat corpus p :
  match naive_scan pat corpus p with
  | Some r => ∃ d, r = p + d ∧ occ pat corpus d ∧ ∀ q, occ pat corpus q → d ≤ q
  | None => ∀ q, ¬ occ pat corpus q
  end.
Proof.
  revert p. induction corpus as [|x corpus IH]; intros p; simpl.
  - case_decide as Hhere.
    + exists 0. split; [lia|]. split; [by apply occ_0_take|].
      by intros q (? & _).
    + intros q Hq. pose proof Hq as (? & ? & _).
      assert (q = 0) as -> by (pose proof (len_nonneg pat); unfold len in *; simpl in *; lia).
      by apply occ_0_take in Hq.
  - case_decide as Hhere.
    + exists 0. split; [lia|]. split; [by apply occ_0_take|].
      by intros q (? & _).
    + specialize (IH (p + 1)). destruct (naive_scan pat corpus (p + 1)) as [r|].
      * destruct IH as (d & -> & Hd & Hleft). exists (d + 1).
        split; [lia|]. split; [apply occ_cons; by left|].
        intros q Hq. pose proof Hq as (? & _).
        destruct (decide (q = 0)) as [->|]; [by apply occ_0_take in Hq|].
        replace q with (q - 1 + 1) in Hq by lia.
        apply occ_cons in Hq as [Hq|[? _]]; [|lia].
        apply Hleft in Hq. lia.
      * intros q Hq. pose proof Hq as (? & _).
        destruct (decide (q = 0)) as [->|]; [by apply occ_0_take in Hq|].
        replace q with (q - 1 + 1) in Hq by lia.
        apply occ_cons in Hq as [Hq|[? _]]; [|lia].
        by apply IH in Hq.
Qed.

Lemma found_naive_search pat corpus r :
  found pat corpus r → r = naive_search corpus pat.
Proof.
  unfold naive_search. pose proof (naive_scan_spec pat corpus 0) as Hscan.
  destruct (naive_scan pat corpus 0) as [r'|]; simpl.
  - destruct Hscan as (d & -> & Hd & Hleft).
    intros [[Hr Hrleft]|[_ Hnone]]; [|by apply Hnone in Hd].
    apply Hleft in Hr. apply Hrleft in Hd. lia.
  - intros [[Hr _]|[-> _]]; [by apply Hscan in Hr|done].
Qed.

Lemma naive_search_found pat corpus : found pat corpus (naive_search corpus pat).
Proof.
  unfold naive_search. pose proof (naive_scan_spec pat corpus 0) as Hscan.
  destruct (naive_scan pat corpus 0) as [r|]; simpl.
  - destruct Hscan as (d & -> & Hd & Hleft). left. by rewrite Z.add_0_l.
  - by right.
Qed.

End naive.

(** ** Knuth-Morris-Pratt, from the pattern to the result *)

Section kmp_correct.
Context {A : Type} `{EqDecision A}.
Implicit Types (pat corpus : list A).

Lemma kmp_new_sat (F : Prop) fuel pat :
  len pat < INT_MAX →
  (F → len pat < Z.of_nat fuel) →
  sat F (knuth_morris_pratt.new fuel pat)
    (λ kmp, ∃ skip_, kmp = knuth_morris_pratt.Build pat (len pat) skip_ ∧
                     kmp_table pat skip_).
Proof.
  intros Hpat Hfuel. pose proof (len_nonneg pat).
  unfold knuth_morris_pratt.new. unwrap. sat_bind.
  eapply sat_mono.
  - apply kmp_init_skip_table_sat; [done..|].
    rewrite len_replicate; lia.
  - intros skip_ Hskip. simpl. eauto.
Qed.

Lemma kmp_call_sat (F : Prop) fuel pat corpus (skip_ : list Z) :
  kmp_table pat skip_ →
  len pat < INT_MAX →
  len corpus ≤ PTRDIFF_MAX →
  (F → len corpus < Z.of_nat fuel) →
  sat F (knuth_morris_pratt.call fuel
           (knuth_morris_pratt.Build pat (len pat) skip_) (range_of corpus))
        (found pat corpus).
Proof.
  intros Htable Hpat Hn Hfuel.
  pose proof (len_nonneg pat). pose proof (len_nonneg corpus).
  unfold knuth_morris_pratt.call. simpl.
  case_decide as Hn0; simpl.
  { destruct (decide (len pat = 0)) as [Hm0|Hm0].
    - left. rewrite Hn0. split; [|by intros q (? & _)].
      split; [done|]. split; [lia|]. intros i ?. lia.
    - right. split; [done|]. intros q (? & ? & _). lia. }
  case_decide as Hm0; simpl.
  { left. split; [|by intros q (? & _)].
    split; [done|]. split; [lia|]. intros i ?. lia. }
  unwrap. case_decide as Hshort; simpl.
  { right. split; [done|]. intros q (? & ? & _). lia. }
  apply kmp_do_search_sat; [done|lia|done..].
Qed.

Lemma knuth_morris_pratt_search_sat (F : Prop) fuel pat corpus :
  len pat < INT_MAX →
  len corpus ≤ PTRDIFF_MAX →
  (F → len pat + len corpus < Z.of_nat fuel) →
  sat F (knuth_morris_pratt_search fuel (range_of corpus) pat)
        (λ r, r = naive_search corpus pat).
Proof.
  intros Hpat Hn Hfuel.
  pose proof (len_nonneg pat). pose proof (len_nonneg corpus).
  unfold knuth_morris_pratt_search. sat_bind.
  eapply sat_mono; [apply kmp_new_sat; [done|]|].
  { intros HF. specialize (Hfuel HF). lia. }
  intros kmp (skip_ & -> & Htable).
  eapply sat_mono; [apply kmp_call_sat; [done..|]|].
  { intros HF. specialize (Hfuel HF). lia. }
  apply found_naive_search.
Qed.

End kmp_correct.

(** ** The two skip tables do what a skip table has to do *)

Lemma skip_table_map_lookup_insert `{Countable K} (t : skip_table_map K)
    key val c :
  skip_lookup (skip_insert t key val) c =
    if decide (key = c) then val else skip_lookup t c.
Proof.
  simpl. rewrite lookup_insert. by destruct (decide (key = c)).
Qed.

#[global] Instance skip_table_map_laws `{Countable K} :
    SkipTableLaws K (skip_table_map K) := {
  skip_wf t := True;
  skip_wf_new _ _ := I;
  skip_wf_insert _ _ _ _ := I;
  skip_lookup_new _ _ _ := eq_refl;
  skip_lookup_insert t key val c _ := skip_table_map_lookup_insert t key val c;
}.

Lemma byte_to_nat_lt (b : Byte.byte) : (Byte.to_nat b < 256)%nat.
Proof. apply Nat.ltb_lt. by destruct b. Qed.

Lemma byte_to_nat_inj (b1 b2 : Byte.byte) :
  Byte.to_nat b1 = Byte.to_nat b2 → b1 = b2.
Proof.
  intros Heq. apply (f_equal Byte.of_nat) in Heq.
  rewrite !Byte.of_to_nat in Heq. congruence.
Qed.

Lemma skip_table_array_wf_new patSize default_value :
  skip_table_array_wf (skip_table_new patSize default_value).
Proof. apply length_replicate. Qed.

Lemma skip_table_array_wf_insert t key val :
  skip_table_array_wf t → skip_table_array_wf (skip_insert t key val).
Proof.
  unfold skip_table_array_wf. intros Hwf.
  etrans; [apply length_insert|done].
Qed.

Lemma skip_table_array_lookup_new patSize default_value (c : Byte.byte) :
  skip_lookup (T := skip_table_array) (skip_table_new patSize default_value) c
  = default_value.
Proof.
  apply list_lookup_total_correct, lookup_replicate_2, byte_to_nat_lt.
Qed.

Lemma skip_table_array_lookup_insert (t : skip_table_array) key val c :
  skip_table_array_wf t →
  skip_lookup (skip_insert t key val) c =
    if decide (key = c) then val else skip_lookup t c.
Proof.
  unfold skip_table_array_wf. intros Hwf.
  destruct (decide (key = c)) as [->|Hne].
  - apply list_lookup_total_correct, list_lookup_insert_eq.
    rewrite Hwf. apply byte_to_nat_lt.
  - apply list_lookup_total_insert_ne.
    intros Heq. by apply byte_to_nat_inj in Heq.
Qed.

#[global] Instance skip_table_array_laws :
    SkipTableLaws Byte.byte skip_table_array := {
  skip_wf := skip_table_array_wf;
  skip_wf_new := skip_table_array_wf_new;
  skip_wf_insert := skip_table_array_wf_insert;
  skip_lookup_new := skip_table_array_lookup_new;
  skip_lookup_insert := skip_table_array_lookup_insert;
}.


(** ** Boyer-Moore-Horspool *)

Section bmh.
Context {A : Type} `{EqDecision A} {T : Type} `{SkipTable A T}
  `{!SkipTableLaws A T}.
Implicit Types (pat corpus : list A).

Lemma bmh_new_sat (F : Prop) fuel pat :
  len pat < INT_MAX →
  (F → len pat < Z.of_nat fuel) →
  sat F (boyer_moore_horspool.new (T := T) fuel pat)
    (λ bmh, ∃ sk, bmh = boyer_moore_horspool.Build pat (len pat) sk ∧
                  skip_wf sk ∧ (0 < len pat → bmh_table pat sk)).
Proof.
  intros Hpat Hfuel. pose proof (len_nonneg pat).
  unfold boyer_moore_horspool.new. unwrap. sat_bind.
  case_decide as Hm; simpl.
  2:{ eexists. split; [done|]. split; [apply skip_wf_new|]. lia. }
  eapply sat_mono; [apply sat_while with
    (Inv := λ s : Z * Z * T, let '(iter, i, sk) := s in
       iter = i ∧ 0 ≤ i ≤ len pat - 1 ∧ skip_wf sk ∧
       ∀ c, rightmost pat i c (len pat - 1 - skip_lookup sk c))
    (mu := λ s, Z.to_nat (len pat - s.1.2))
    (Q := λ sk, skip_wf sk ∧ bmh_table pat sk)|].
  - intros [[iter i] sk] (-> & Hi & Hwf & Hsk).
    case_decide as Hcond; simpl.
    2:{ split; [done|]. assert (i = len pat - 1) as -> by lia. done. }
    sat_at as x Hx. simpl. unwrap.
    split; [|lia]. split; [done|]. split; [lia|].
    split; [by apply skip_wf_insert|]. intros c.
    rewrite skip_lookup_insert by done.
    destruct (Hsk c) as (? & Hk & Hafter).
    destruct (decide (x = c)) as [->|Hne].
    + split; [lia|]. split.
      * intros _. rewrite <- Hx. f_equal. lia.
      * intros i' ?. lia.
    + split; [lia|]. split; [done|]. intros i' ?.
      destruct (decide (i' = i)) as [->|]; [congruence|].
      apply Hafter. lia.
  - split; [done|]. split; [lia|]. split; [apply skip_wf_new|].
    intros c. rewrite skip_lookup_new. split; [lia|]. split; [lia|].
    intros i ?. lia.
  - simpl. intros HF. specialize (Hfuel HF). lia.
  - intros sk [Hwf Hsk]. simpl. eauto.
Qed.

Lemma bmh_match_here_sat (F : Prop) fuel pat corpus (sk : T) curPos :
  0 < len pat →
  len corpus ≤ PTRDIFF_MAX →
  0 ≤ curPos ≤ len corpus - len pat →
  (F → len pat < Z.of_nat fuel) →
  sat F (boyer_moore_horspool.match_here fuel
           (boyer_moore_horspool.Build pat (len pat) sk) (range_of corpus)
           curPos)
    (λ r, match r with
          | boyer_moore_horspool.Matched => occ pat corpus curPos
          | boyer_moore_horspool.Mismatch j => ¬ occ pat corpus curPos
          end).
Proof.
  intros Hm Hn HcurPos Hfuel.
  unfold boyer_moore_horspool.match_here. simpl. unwrap.
  apply sat_while with
    (Inv := λ j, 0 ≤ j < len pat ∧
       ∀ k, j < k < len pat → zget pat k = zget corpus (curPos + k))
    (mu := λ j, Z.to_nat j).
  - intros j (Hj & Hjpost). unwrap.
    sat_at as a Ha. sat_at as b Hb. case_decide as Heq; simpl.
    + case_decide as Hend; simpl.
      * split; [lia|]. split; [lia|]. intros i Hi.
        destruct (decide (i = j)) as [->|]; [congruence|].
        symmetry. apply Hjpost. lia.
      * unwrap. split; [|lia]. split; [lia|]. intros k Hk.
        destruct (decide (k = j)) as [->|]; [congruence|].
        apply Hjpost. lia.
    + intros (_ & _ & Hocc). specialize (Hocc j ltac:(lia)). congruence.
  - split; [lia|]. intros k ?. lia.
  - intros HF. specialize (Hfuel HF). lia.
Qed.

Lemma bmh_do_search_sat (F : Prop) fuel pat corpus (sk : T) :
  bmh_table pat sk →
  0 < len pat ≤ len corpus →
  len corpus ≤ PTRDIFF_MAX →
  (F → len corpus < Z.of_nat fuel) →
  sat F (boyer_moore_horspool.do_search fuel
           (boyer_moore_horspool.Build pat (len pat) sk) (range_of corpus)
           (len corpus))
        (found pat corpus).
Proof.
  intros Hsk Hm Hn Hfuel. unfold boyer_moore_horspool.do_search.
  apply sat_while with
    (Inv := λ curPos, 0 ≤ curPos ≤ len corpus ∧
                      ∀ q, occ pat corpus q → curPos ≤ q)
    (mu := λ curPos, Z.to_nat (len corpus + 1 - curPos)).
  - intros curPos (HcurPos & Hbefore).
    unfold boyer_moore_horspool.do_search_body.
    cbn [boyer_moore_horspool.k_pattern_length boyer_moore_horspool.skip_
         distance deref range_of].
    unwrap. case_decide as Hcond; simpl.
    2:{ right. split; [done|]. intros q Hq. pose proof (Hbefore q Hq).
        destruct Hq as (? & ? & _). lia. }
    sat_bind. eapply sat_mono.
    { apply bmh_match_here_sat; [lia|done|lia|].
      intros HF. specialize (Hfuel HF). lia. }
    intros [|j]; simpl; [intros Hocc; by left|].
    intros Hnocc. sat_at as c Hc. simpl.
    destruct (Hsk c) as (Hrange & Hk & Hafter). unwrap.
    split; [|lia]. split; [lia|].
    intros q Hq. pose proof (Hbefore q Hq) as Hle.
    destruct (decide (curPos + skip_lookup sk c ≤ q)); [done|]. exfalso.
    destruct (decide (q = curPos)) as [->|]; [done|].
    destruct Hq as (_ & _ & Hq).
    apply (Hafter (len pat - 1 - (q - curPos))); [lia|].
    rewrite <- Hq by lia. rewrite <- Hc. f_equal. lia.
  - split; [lia|]. intros q (? & _). lia.
  - simpl. intros HF. specialize (Hfuel HF). lia.
Qed.

Lemma bmh_call_sat (F : Prop) fuel pat corpus (sk : T) :
  (0 < len pat → bmh_table pat sk) →
  len pat < INT_MAX →
  len corpus ≤ PTRDIFF_MAX →
  (F → len corpus < Z.of_nat fuel) →
  sat F (boyer_moore_horspool.call fuel
           (boyer_moore_horspool.Build pat (len pat) sk) (range_of corpus))
        (found pat corpus).
Proof.
  intros Htable Hpat Hn Hfuel.
  pose proof (len_nonneg pat). pose proof (len_nonneg corpus).
  unfold boyer_moore_horspool.call. simpl.
  case_decide as Hn0; simpl.
  { destruct (decide (len pat = 0)) as [Hm0|Hm0].
    - left. rewrite Hn0. split; [|by intros q (? & _)].
      split; [done|]. split; [lia|]. intros i ?. lia.
    - right. split; [done|]. intros q (? & ? & _). lia. }
  case_decide as Hm0; simpl.
  { left. split; [|by intros q (? & _)].
    split; [done|]. split; [lia|]. intros i ?. lia. }
  unwrap. case_decide as Hshort; simpl.
  { right. split; [done|]. intros q (? & ? & _). lia. }
  apply bmh_do_search_sat; [apply Htable; lia|lia|done..].
Qed.

Lemma boyer_moore_horspool_search_sat (F : Prop) fuel pat corpus :
  len pat < INT_MAX →
  len corpus ≤ PTRDIFF_MAX →
  (F → len pat + len corpus < Z.of_nat fuel) →
  sat F (boyer_moore_horspool_search (T := T) fuel (range_of corpus) pat)
        (λ r, r = naive_search corpus pat).
Proof.
  intros Hpat Hn Hfuel.
  pose proof (len_nonneg pat). pose proof (len_nonneg corpus).
  unfold boyer_moore_horspool_search. sat_bind.
  eapply sat_mono; [apply bmh_new_sat; [done|]|].
  { intros HF. specialize (Hfuel HF). lia. }
  intros bmh (sk & -> & _ & Htable).
  eapply sat_mono; [apply bmh_call_sat; [done..|]|].
  { intros HF. specialize (Hfuel HF). lia. }
  apply found_naive_search.
Qed.

End bmh.

(** ** The tables of Boyer-Moore *)

Section bm_tables.
Context {A : Type} `{EqDecision A} {T : Type} `{SkipTable A T}
  `{!SkipTableLaws A T}.
Implicit Types (pat corpus s : list A).

Lemma bm_compute_bm_prefix_sat (F : Prop) fuel s (prefix : list Z) :
  0 < len s < INT_MAX →
  (F → len s < Z.of_nat fuel) →
  len prefix = len s →
  sat F (boyer_moore.compute_bm_prefix fuel s prefix) (bm_prefix s).
Proof.
  intros Hs Hfuel Hlen. unfold boyer_moore.compute_bm_prefix. unwrap.
  sat_assert. sat_assert. sat_write.
  apply sat_while with
    (Inv := λ st : Z * Z * list Z, let '(i, k, pr) := st in
       1 ≤ i ≤ len s ∧ len pr = len s ∧ zget pr (i - 1) = Some k ∧
       ∀ i', 0 ≤ i' < i → ∃ b, zget pr i' = Some b ∧ lborder s (i' + 1) b)
    (mu := λ st, Z.to_nat (len s - st.1.1)).
  - intros [[i k0] pr] (Hi & Hpr & Hk0 & Hborders).
    case_decide as Hcond; simpl.
    2:{ split; [done|]. intros i' ?. apply Hborders. lia. }
    assert (lborder s i k0) as Hk0b.
    { destruct (Hborders (i - 1)) as (b & Hb & Hbb); [lia|].
      rewrite Hk0 in Hb. injection Hb as <-.
      by replace (i - 1 + 1) with i in Hbb by lia. }
    pose proof Hk0b as [[Hk0i Hk0eq] Hk0max].
    sat_assert. sat_bind.
    eapply sat_mono; [apply sat_while with
      (Inv := λ k, border s i k ∧
         ∀ b, border s i b → k < b → zget s b ≠ zget s i)
      (mu := λ k, Z.to_nat k)
      (Q := λ k, border s i k ∧
         (∀ b, border s i b → k < b → zget s b ≠ zget s i) ∧
         (0 < k → zget s k = zget s i))|].
    + intros k (Hkb & Hkmax). pose proof Hkb as [Hki _].
      case_decide as Hk; simpl; [|split; [done|]; split; [done|lia]].
      unwrap. sat_at as a Ha. sat_at as b Hb.
      case_decide as Hne; simpl; [|split; [done|]; split; [done|congruence]].
      sat_assert. unwrap. sat_at as k' Hk'. simpl.
      destruct (Hborders (k - 1)) as (bk & Hbk & Hbkb & Hbkmax); [lia|].
      rewrite Hbk in Hk'. injection Hk' as <-.
      replace (k - 1 + 1) with k in * by lia. pose proof Hbkb as [? _].
      split; [|lia]. split; [by eapply border_trans|].
      intros b0 Hb0 Hlt. destruct (decide (k < b0)); [by apply Hkmax|].
      destruct (decide (b0 = k)) as [->|]; [congruence|]. exfalso.
      assert (border s k b0) as Hb0' by (eapply border_restrict; [done..|lia]).
      apply Hbkmax in Hb0'. lia.
    + split; [done|]. intros b Hb ?. apply Hk0max in Hb. lia.
    + intros HF. specialize (Hfuel HF). lia.
    + intros k (Hkb & Hkmax & Hkeq). pose proof Hkb as [Hki _]. simpl.
      unwrap. sat_at as a Ha. sat_at as b Hb.
      assert (lborder s (i + 1) (if decide (a = b) then k + 1 else k)) as Hnew.
      { case_decide as Heq.
        - split.
          + apply border_succ; replace (i + 1 - 1) with i by lia; [done|congruence].
          + intros b' Hb'. destruct (decide (b' ≤ k + 1)); [done|]. exfalso.
            destruct (border_pred _ _ _ Hb') as [Hlast Hrest]; [lia|].
            replace (i + 1 - 1) with i in * by lia.
            apply (Hkmax (b' - 1)); [apply Hrest|..]; [lia..|done].
        - assert (k = 0) as -> by (destruct (decide (k = 0)); [done|]; 
            exfalso; apply Heq; specialize (Hkeq ltac:(lia)); congruence).
          split; [apply border_0; lia|].
          intros b' Hb'. destruct (decide (b' ≤ 0)); [done|]. exfalso.
          destruct (border_pred _ _ _ Hb') as [Hlast Hrest]; [lia|].
          replace (i + 1 - 1) with i in * by lia.
          destruct (decide (b' = 1)) as [->|].
          + change (1 - 1) with 0 in Hlast. congruence.
          + apply (Hkmax (b' - 1)); [apply Hrest|..]; [lia..|done]. }
      unwrap.
      pose proof Hnew as [[? _] _].
      sat_write. simpl. unwrap. rewrite len_insert.
      split; [|lia]. split; [lia|]. split; [done|]. split.
      { replace (i + 1 - 1) with i by lia. apply zget_insert_eq. lia. }
      intros i' Hi'. destruct (decide (i' = i)) as [->|].
      * eexists. split; [apply zget_insert_eq; lia|done].
      * rewrite zget_insert_ne by lia. apply Hborders. lia.
  - rewrite len_insert. split; [lia|]. split; [done|].
    split; [apply (zget_insert_eq prefix 0); lia|].
    intros i' ?. assert (i' = 0) as -> by lia. exists 0.
    split; [apply (zget_insert_eq prefix 0); lia|].
    split; [apply border_0; lia|]. intros b' [? _]. lia.
  - simpl. intros HF. specialize (Hfuel HF). lia.
Qed.


Lemma bm_suffix_entry_safe pat (p v j : Z) :
  lborder pat (len pat) p →
  (∀ i, 0 ≤ i < len pat → ∃ b, lborder (reverse pat) (i + 1) b) →
  0 ≤ j ≤ len pat →
  v ≤ len pat - p →
  (∀ i b, 0 ≤ i < len pat → lborder (reverse pat) (i + 1) b →
          j = len pat - b → v ≤ i - b + 1) →
  ∀ sh, 1 ≤ sh → compat pat j sh → v ≤ sh.
Proof.
  intros [[Hp _] Hpmax] Hrev Hj Hv Hmin.
  assert (∀ n : nat, ∀ sh, 1 ≤ sh < Z.of_nat n → compat pat j sh → v ≤ sh)
    as Hind.
  2:{ intros sh ? Hsh. apply (Hind (Z.to_nat (sh + 1))); [lia|done]. }
  induction n as [|n IH]; intros sh Hsh Hcompat; [lia|].
  destruct (decide (len pat ≤ sh)); [lia|].
  destruct (decide (j < sh)) as [Hjs|Hjs].
  { assert (border pat (len pat) (len pat - sh)) as Hb.
    { split; [lia|]. intros k ?.
      replace (len pat - (len pat - sh) + k) with (sh + k) by lia.
      rewrite <- (Hcompat (sh + k)) by lia. f_equal. lia. }
    apply Hpmax in Hb. lia. }
  set (P := len pat - j).
  destruct (Hrev (sh + P - 1)) as (b & [[Hb Hbeq] Hbmax]); [lia|].
  replace (sh + P - 1 + 1) with (sh + P) in * by lia.
  assert (border (reverse pat) (sh + P) P) as HP.
  { split; [lia|]. intros k ?.
    rewrite !zget_reverse by lia.
    replace (len pat - 1 - (sh + P - P + k)) with (len pat - 1 - k - sh) by lia.
    symmetry. apply Hcompat; lia. }
  pose proof (Hbmax _ HP) as HPb.
  destruct (decide (b = P)) as [->|].
  { etrans; [apply (Hmin (sh + P - 1) P)|]; [lia| |lia..].
    replace (sh + P - 1 + 1) with (sh + P) by lia. done. }
  etrans; [apply (IH (sh - (b - P)))|lia]; [lia|].
  intros t ? ?.
  specialize (Hbeq (len pat - 1 - t) ltac:(lia)).
  rewrite !zget_reverse in Hbeq by lia.
  etrans; [|etrans; [symmetry; apply Hbeq|]]; f_equal; lia.
Qed.

Lemma bm_create_suffix_table_sat (F : Prop) fuel pat (suffix_ : list Z) :
  len pat < INT_MAX →
  (F → len pat + 1 < Z.of_nat fuel) →
  len suffix_ = len pat + 1 →
  sat F (boyer_moore.create_suffix_table fuel pat suffix_)
    (λ suffix_', 0 < len pat → bm_suffix pat suffix_').
Proof.
  intros Hpat Hfuel Hlen. pose proof (len_nonneg pat).
  unfold boyer_moore.create_suffix_table. unwrap.
  case_decide as Hm; simpl; [|lia].
  sat_bind. eapply sat_mono.
  { apply bm_compute_bm_prefix_sat; [lia| |by rewrite len_replicate by lia].
    intros HF. specialize (Hfuel HF). lia. }
  intros prefix [Hplen Hprefix]. simpl.
  sat_bind. eapply sat_mono.
  { apply bm_compute_bm_prefix_sat.
    - rewrite len_reverse. lia.
    - rewrite len_reverse. intros HF. specialize (Hfuel HF). lia.
    - rewrite len_reverse. by rewrite len_replicate by lia. }
  intros prefix_reversed [Hrlen Hreversed]. simpl.
  rewrite len_reverse in Hrlen, Hreversed.
  destruct (Hprefix (len pat - 1)) as (p & Hp & Hpb); [lia|].
  replace (len pat - 1 + 1) with (len pat) in Hpb by lia.
  pose proof Hpb as [[Hprange _] _].
  sat_bind. eapply sat_mono; [apply sat_while with
    (Inv := λ st : Z * list Z, let '(i, suf) := st in
       0 ≤ i ≤ len pat + 1 ∧ len suf = len pat + 1 ∧
       ∀ j, 0 ≤ j < i → zget suf j = Some (len pat - p))
    (mu := λ st, Z.to_nat (len pat + 1 - st.1))
    (Q := λ suf, len suf = len pat + 1 ∧
       ∀ j, 0 ≤ j ≤ len pat → zget suf j = Some (len pat - p))|].
  - intros [i suf] (Hi & Hsuf & Hfilled).
    case_decide as Hcond; simpl.
    2:{ split; [done|]. intros j ?. apply Hfilled. lia. }
    unwrap. sat_at as p' Hp'. rewrite Hp in Hp'. injection Hp' as <-.
    unwrap. sat_write. simpl. unwrap. rewrite len_insert.
    split; [|lia]. split; [lia|]. split; [done|]. intros j ?.
    destruct (decide (j = i)) as [->|].
    + apply zget_insert_eq. lia.
    + rewrite zget_insert_ne by lia. apply Hfilled. lia.
  - split; [lia|]. split; [done|]. intros j ?. lia.
  - simpl. intros HF. specialize (Hfuel HF). lia.
  - simpl. intros suf0 [Hsuf0 Hfilled].
    eapply sat_mono; [apply sat_while with
      (Inv := λ st : Z * list Z, let '(i, suf) := st in
         0 ≤ i ≤ len pat ∧ len suf = len pat + 1 ∧
         ∀ j, 0 ≤ j ≤ len pat →
           ∃ v, zget suf j = Some v ∧ 1 ≤ v ≤ len pat - p ∧
                ∀ i' b, 0 ≤ i' < i → lborder (reverse pat) (i' + 1) b →
                        j = len pat - b → v ≤ i' - b + 1)
      (mu := λ st, Z.to_nat (len pat - st.1))
      (Q := λ suf, len suf = len pat + 1 ∧
         ∀ j, 0 ≤ j ≤ len pat →
           ∃ v, zget suf j = Some v ∧ 1 ≤ v ≤ len pat - p ∧
                ∀ i' b, 0 ≤ i' < len pat →
                        lborder (reverse pat) (i' + 1) b →
                        j = len pat - b → v ≤ i' - b + 1)|].
    + intros [i suf] (Hi & Hsuf & Hentries).
      case_decide as Hcond; simpl.
      2:{ split; [done|]. intros j Hj.
          destruct (Hentries j Hj) as (v & ? & ? & Hv). exists v.
          split; [done|]. split; [done|]. intros i' b ?. apply Hv. lia. }
      destruct (Hreversed i) as (p1 & Hp1 & Hp1b); [lia|].
      pose proof Hp1b as [[Hp1range _] _].
      sat_at as p1' Hp1'. rewrite Hp1 in Hp1'. injection Hp1' as <-.
      sat_at as p1' Hp1'. rewrite Hp1 in Hp1'. injection Hp1' as <-.
      unwrap. sat_at as s0 Hs0.
      destruct (Hentries (len pat - p1)) as (s0' & Hs0' & Hs0range & Hs0min);
        [lia|].
      rewrite Hs0 in Hs0'. injection Hs0' as <-.
      sat_bind. case_decide as Hgt; simpl.
      * apply sat_write; [lia|]. rewrite len_insert.
        split; [|lia]. split; [lia|]. split; [done|]. intros j Hj.
        destruct (decide (j = len pat - p1)) as [->|Hne].
        -- exists (i - p1 + 1). split; [apply zget_insert_eq; lia|].
           split; [lia|]. intros i' b Hi' Hb Heq.
           destruct (decide (i' = i)) as [->|].
           ++ pose proof (lborder_unique _ _ _ _ Hb Hp1b). lia.
           ++ etrans; [|apply (Hs0min i' b)]; [lia|lia|done..].
        -- rewrite zget_insert_ne by lia.
           destruct (Hentries j Hj) as (v & ? & ? & Hv). exists v.
           split; [done|]. split; [done|]. intros i' b Hi' Hb Heq.
           destruct (decide (i' = i)) as [->|]; [|apply Hv; [lia|done..]].
           pose proof (lborder_unique _ _ _ _ Hb Hp1b). lia.
      * split; [|lia]. split; [lia|]. split; [done|]. intros j Hj.
        destruct (Hentries j Hj) as (v & Hvj & ? & Hv). exists v.
        split; [done|]. split; [done|]. intros i' b Hi' Hb Heq.
        destruct (decide (i' = i)) as [->|]; [|apply Hv; [lia|done..]].
        pose proof (lborder_unique _ _ _ _ Hb Hp1b). subst b j.
        rewrite Hs0 in Hvj. injection Hvj as <-. lia.
    + split; [lia|]. split; [done|]. intros j Hj. exists (len pat - p).
      split; [by apply Hfilled|]. split; [lia|]. intros i' b ?. lia.
    + simpl. intros HF. specialize (Hfuel HF). lia.
    + intros suf [Hsuf Hentries] _. split; [done|]. intros j Hj.
      destruct (Hentries j Hj) as (v & Hvj & ? & Hv). exists v.
      split; [done|]. split; [lia|].
      apply (bm_suffix_entry_safe pat p v j); [done| |done|lia|done].
      intros i ?. destruct (Hreversed i) as (b & _ & ?); [lia|]. eauto.
Qed.

Lemma bm_new_sat (F : Prop) fuel pat :
  len pat < INT_MAX →
  (F → len pat + 1 < Z.of_nat fuel) →
  sat F (boyer_moore.new (T := T) fuel pat)
    (λ bm, ∃ sk suf, bm = boyer_moore.Build pat (len pat) sk suf ∧
             skip_wf sk ∧ bm_table pat sk ∧
             (0 < len pat → bm_suffix pat suf)).
Proof.
  intros Hpat Hfuel. pose proof (len_nonneg pat).
  unfold boyer_moore.new, boyer_moore.build_bm_tables. unwrap.
  sat_bind. sat_bind.
  eapply sat_mono; [apply sat_while with
    (Inv := λ st : Z * Z * T, let '(iter, i, sk) := st in
       iter = i ∧ 0 ≤ i ≤ len pat ∧ skip_wf sk ∧
       ∀ c, rightmost pat i c (skip_lookup sk c))
    (mu := λ st, Z.to_nat (len pat - st.1.2))
    (Q := λ sk, skip_wf sk ∧ bm_table pat sk)|].
  - intros [[iter i] sk] (-> & Hi & Hwf & Hsk).
    case_decide as Hcond; simpl.
    2:{ split; [done|]. assert (i = len pat) as -> by lia. done. }
    sat_at as x Hx. simpl. unwrap.
    split; [|lia]. split; [done|]. split; [lia|].
    split; [by apply skip_wf_insert|]. intros c.
    rewrite skip_lookup_insert by done.
    destruct (Hsk c) as (? & Hk & Hafter).
    destruct (decide (x = c)) as [->|Hne].
    + split; [lia|]. split; [done|]. intros i' ?. lia.
    + split; [lia|]. split; [done|]. intros i' ?.
      destruct (decide (i' = i)) as [->|]; [congruence|].
      apply Hafter. lia.
  - split; [done|]. split; [lia|]. split; [apply skip_wf_new|].
    intros c. rewrite skip_lookup_new. split; [lia|]. split; [lia|].
    intros i ?. lia.
  - simpl. intros HF. specialize (Hfuel HF). lia.
  - intros sk [Hwf Hsk]. simpl. sat_bind.
    eapply sat_mono; [apply bm_create_suffix_table_sat; [done..|]|].
    { by rewrite len_replicate by lia. }
    intros suf Hsuf. simpl. exists sk, suf. split; [done|].
    split; [done|]. split; [done|]. done.
Qed.

(** ** The search of Boyer-Moore *)

Lemma bm_match_here_sat (F : Prop) fuel pat (sk : T) (suf : list Z) corpus
    curPos :
  0 < len pat < INT_MAX →
  len corpus ≤ PTRDIFF_MAX →
  0 ≤ curPos ≤ len corpus - len pat →
  (F → len pat < Z.of_nat fuel) →
  sat F (boyer_moore.match_here fuel
           (boyer_moore.Build pat (len pat) sk suf) (range_of corpus) curPos)
    (λ r, match r with
          | boyer_moore.Matched => occ pat corpus curPos
          | boyer_moore.Mismatch j =>
              1 ≤ j ≤ len pat ∧
              (∀ t, j ≤ t < len pat → zget pat t = zget corpus (curPos + t)) ∧
              zget pat (j - 1) ≠ zget corpus (curPos + (j - 1))
          end).
Proof.
  intros Hpat Hn HcurPos Hfuel. unfold boyer_moore.match_here. simpl.
  apply sat_while with
    (Inv := λ j, 1 ≤ j ≤ len pat ∧
       ∀ t, j ≤ t < len pat → zget pat t = zget corpus (curPos + t))
    (mu := λ j, Z.to_nat j).
  - intros j (Hj & Hjpost). unwrap.
    sat_at as a Ha. sat_at as b Hb. case_decide as Heq; simpl.
    + case_decide as Hend; simpl.
      * split; [lia|]. split; [lia|]. intros i Hi.
        destruct (decide (i = j - 1)) as [->|]; [congruence|].
        symmetry. apply Hjpost. lia.
      * split; [|lia]. split; [lia|]. intros t Ht.
        destruct (decide (t = j - 1)) as [->|]; [congruence|].
        apply Hjpost. lia.
    + split; [done|]. split; [done|]. congruence.
  - split; [lia|]. intros t ?. lia.
  - intros HF. specialize (Hfuel HF). lia.
Qed.

Lemma bm_skip_forward_eq pat (sk : T) (suf : list Z) (corpus : range A)
    curPos j c v :
  len pat < INT_MAX →
  bm_table pat sk →
  1 ≤ j ≤ len pat →
  deref corpus (curPos + (j - 1)) = Ok c →
  zget suf j = Some v →
  1 ≤ v ≤ len pat →
  boyer_moore.skip_forward (boyer_moore.Build pat (len pat) sk suf) corpus
    curPos j
  = Ok (curPos + bm_shift j (skip_lookup sk c) v).
Proof.
  intros Hpat Hsk Hj Hc Hv Hvrange.
  unfold boyer_moore.skip_forward, bm_shift. simpl. unwrap.
  rewrite Hc. simpl. destruct (Hsk c) as (Hk & _ & _).
  rewrite to_size_sub_r, to_size_sub_l, to_int_to_size. unwrap.
  unfold at_. rewrite Hv. simpl. unwrap.
  repeat case_decide; simpl; try done; try lia.
  f_equal. lia.
Qed.

Lemma bm_shift_safe pat (sk : T) (suf : list Z) corpus curPos j c v :
  bm_table pat sk →
  1 ≤ j ≤ len pat →
  (∀ t, j ≤ t < len pat → zget pat t = zget corpus (curPos + t)) →
  zget pat (j - 1) ≠ zget corpus (curPos + (j - 1)) →
  zget corpus (curPos + (j - 1)) = Some c →
  1 ≤ v ≤ len pat →
  (∀ sh, 1 ≤ sh → compat pat j sh → v ≤ sh) →
  1 ≤ bm_shift j (skip_lookup sk c) v ≤ len pat ∧
  ∀ q, occ pat corpus q → curPos ≤ q →
       curPos + bm_shift j (skip_lookup sk c) v ≤ q.
Proof.
  intros Hsk Hj Hmatched Hmismatch Hc Hv Hvmin.
  destruct (Hsk c) as (Hk & _ & Hafter). unfold bm_shift.
  split; [case_decide; lia|].
  intros q (_ & _ & Hq) Hle.
  destruct (decide (q = curPos)) as [->|].
  { exfalso. apply Hmismatch. symmetry. apply Hq. lia. }
  case_decide as Hcase.
  - destruct (decide (curPos + Z.max (j - skip_lookup sk c - 1) v ≤ q));
      [done|]. exfalso.
    apply (Hafter (j - 1 - (q - curPos))); [lia|].
    rewrite <- Hq by lia. rewrite <- Hc. f_equal. lia.
  - destruct (decide (curPos + v ≤ q)); [done|]. exfalso.
    assert (v ≤ q - curPos); [|lia]. apply Hvmin; [lia|].
    intros t ? ?. rewrite <- Hq by lia. rewrite Hmatched by lia.
    f_equal. lia.
Qed.

Lemma bm_do_search_sat (F : Prop) fuel pat corpus (sk : T) (suf : list Z) :
  bm_table pat sk →
  bm_suffix pat suf →
  0 < len pat ≤ len corpus →
  len pat < INT_MAX →
  len corpus ≤ PTRDIFF_MAX →
  (F → len corpus < Z.of_nat fuel) →
  sat F (boyer_moore.do_search fuel
           (boyer_moore.Build pat (len pat) sk suf) (range_of corpus)
           (len corpus))
        (found pat corpus).
Proof.
  intros Hsk [Hsuflen Hsuf] Hm Hpat Hn Hfuel. unfold boyer_moore.do_search.
  apply sat_while with
    (Inv := λ curPos, 0 ≤ curPos ≤ len corpus ∧
                      ∀ q, occ pat corpus q → curPos ≤ q)
    (mu := λ curPos, Z.to_nat (len corpus + 1 - curPos)).
  - intros curPos (HcurPos & Hbefore).
    unfold boyer_moore.do_search_body.
    cbn [boyer_moore.k_pattern_length distance range_of]. unwrap.
    case_decide as Hcond; simpl.
    2:{ right. split; [done|]. intros q Hq. pose proof (Hbefore q Hq).
        destruct Hq as (? & ? & _). lia. }
    sat_bind. eapply sat_mono.
    { apply bm_match_here_sat; [lia|done|lia|].
      intros HF. specialize (Hfuel HF). lia. }
    intros [|j]; simpl; [intros Hocc; by left|].
    intros (Hj & Hmatched & Hmismatch).
    destruct (zget_in_range corpus (curPos + (j - 1))) as [c Hc]; [lia|].
    destruct (Hsuf j) as (v & Hv & Hvrange & Hvmin); [lia|].
    rewrite (bm_skip_forward_eq pat sk suf _ curPos j c v); [|done|done|done| |done|done].
    2:{ simpl. unfold at_. by rewrite Hc. }
    simpl.
    destruct (bm_shift_safe pat sk suf corpus curPos j c v) as [Hshift Hsafe];
      [done..|].
    split; [|lia]. split; [lia|]. intros q Hq. apply Hsafe; [done|].
    by apply Hbefore.
  - split; [lia|]. intros q (? & _). lia.
  - simpl. intros HF. specialize (Hfuel HF). lia.
Qed.

Lemma bm_call_sat (F : Prop) fuel pat corpus (sk : T) (suf : list Z) :
  bm_table pat sk →
  (0 < len pat → bm_suffix pat suf) →
  len pat < INT_MAX →
  len corpus ≤ PTRDIFF_MAX →
  (F → len corpus < Z.of_nat fuel) →
  sat F (boyer_moore.call fuel
           (boyer_moore.Build pat (len pat) sk suf) (range_of corpus))
        (found pat corpus).
Proof.
  intros Hsk Hsuf Hpat Hn Hfuel.
  pose proof (len_nonneg pat). pose proof (len_nonneg corpus).
  unfold boyer_moore.call. simpl.
  case_decide as Hn0; simpl.
  { destruct (decide (len pat = 0)) as [Hm0|Hm0].
    - left. rewrite Hn0. split; [|by intros q (? & _)].
      split; [done|]. split; [lia|]. intros i ?. lia.
    - right. split; [done|]. intros q (? & ? & _). lia. }
  case_decide as Hm0; simpl.
  { left. split; [|by intros q (? & _)].
    split; [done|]. split; [lia|]. intros i ?. lia. }
  unwrap. case_decide as Hshort; simpl.
  { right. split; [done|]. intros q (? & ? & _). lia. }
  apply bm_do_search_sat; [done|apply Hsuf; lia|lia|done..].
Qed.

Lemma boyer_moore_search_sat (F : Prop) fuel pat corpus :
  len pat < INT_MAX →
  len corpus ≤ PTRDIFF_MAX →
  (F → len pat + len corpus + 1 < Z.of_nat fuel) →
  sat F (boyer_moore_search (T := T) fuel (range_of corpus) pat)
        (λ r, r = naive_search corpus pat).
Proof.
  intros Hpat Hn Hfuel.
  pose proof (len_nonneg pat). pose proof (len_nonneg corpus).
  unfold boyer_moore_search. sat_bind.
  eapply sat_mono; [apply bm_new_sat; [done|]|].
  { intros HF. specialize (Hfuel HF). lia. }
  intros bm (sk & suf & -> & _ & Hsk & Hsuf).
  eapply sat_mono; [apply bm_call_sat; [done..|]|].
  { intros HF. specialize (Hfuel HF). lia. }
  apply found_naive_search.
Qed.
End bm_tables.

(** ** The failure table, in the words of its specification *)

Section longest_border.
Context {A : Type} `{EqDecision A}.
Implicit Types (s pat : list A).

Lemma border_take_drop pat (i b : nat) :
  (b < i ≤ length pat)%nat →
  border pat (Z.of_nat i) (Z.of_nat b) ↔
  take b (take i pat) = drop (length (take i pat) - b) (take i pat).
Proof.
  intros Hb. rewrite length_take_le by lia. split.
  - intros [_ Heq]. apply list_eq. intros k.
    destruct (decide (k < b)%nat) as [Hk|Hk].
    + rewrite lookup_take_lt by done. rewrite lookup_drop.
      rewrite !lookup_take_lt by lia.
      specialize (Heq (Z.of_nat k) ltac:(lia)). unfold zget in Heq.
      rewrite !decide_True in Heq by lia. rewrite Nat2Z.id in Heq.
      rewrite Heq. f_equal. lia.
    + rewrite lookup_take_ge by lia. symmetry. apply lookup_ge_None.
      rewrite length_drop, length_take_le by lia. lia.
  - intros Heq. split; [lia|]. intros k Hk. unfold zget.
    rewrite !decide_True by lia.
    apply (f_equal (λ l, l !! Z.to_nat k)) in Heq.
    rewrite lookup_take_lt in Heq by lia. rewrite lookup_drop in Heq.
    rewrite !lookup_take_lt in Heq by lia.
    rewrite Heq. f_equal. lia.
Qed.

Lemma longest_border_below_spec s (n : nat) :
  (0 < n ≤ length s)%nat →
  (longest_border_below s n < n)%nat ∧
  take (longest_border_below s n) s
    = drop (length s - longest_border_below s n) s ∧
  ∀ b, (b < n)%nat → take b s = drop (length s - b) s →
       (b ≤ longest_border_below s n)%nat.
Proof.
  induction n as [|n IH]; [lia|]. intros Hn. simpl.
  case_decide as Hhere.
  - split; [lia|]. split; [done|]. intros b ? _. lia.
  - destruct (decide (n = 0)%nat) as [->|].
    { exfalso. apply Hhere. simpl. rewrite Nat.sub_0_r.
      by rewrite drop_all. }
    destruct IH as (? & ? & Hmax); [lia|].
    split; [lia|]. split; [done|]. intros b ? Hb.
    destruct (decide (b = n)) as [->|]; [done|]. apply Hmax; [lia|done].
Qed.

Lemma lborder_longest_border pat (i b : Z) :
  1 ≤ i ≤ len pat →
  lborder pat i b →
  b = Z.of_nat (longest_border (take (Z.to_nat i) pat)).
Proof.
  intros Hi [Hb Hmax]. pose proof Hb as [Hbi _]. unfold len in Hi.
  set (s := take (Z.to_nat i) pat).
  assert (length s = Z.to_nat i) as Hs by (apply length_take_le; lia).
  destruct (longest_border_below_spec s (length s)) as (Hlt & Heq & Hlongest);
    [lia|]. fold (longest_border s) in *.
  assert (border pat i (Z.of_nat (longest_border s))) as Hb'.
  { replace i with (Z.of_nat (Z.to_nat i)) by lia.
    apply border_take_drop; [lia|]. done. }
  apply Hmax in Hb'.
  assert (Z.to_nat b ≤ longest_border s)%nat; [|lia].
  apply Hlongest; [lia|]. subst s.
  apply border_take_drop; [lia|].
  by rewrite !Z2Nat.id by lia.
Qed.

End longest_border.

Section kmp_table_correct.
Context {A : Type} `{EqDecision A}.

(** C3: for a pattern of length [m], the failure table that
    [init_skip_table] builds for the Knuth-Morris-Pratt matcher has
    [m + 1] entries, entry 0 is -1, and entry [i], for every [i] from 1 to
    [m], is the length of the longest proper prefix of the first [i] symbols
    of the pattern that is also a suffix of these [i] symbols. *)
Theorem kmp_failure_table (fuel : nat) (pat : list A) :
  len pat < INT_MAX →
  len pat < Z.of_nat fuel →
  ∃ kmp,
    knuth_morris_pratt.new fuel pat = Ok kmp ∧
    len (knuth_morris_pratt.skip_ kmp) = len pat + 1 ∧
    zget (knuth_morris_pratt.skip_ kmp) 0 = Some (-1) ∧
    ∀ i, 1 ≤ i ≤ len pat →
      zget (knuth_morris_pratt.skip_ kmp) i
      = Some (Z.of_nat (longest_border (take (Z.to_nat i) pat))).
Proof.
  intros Hpat Hfuel.
  destruct (sat_Ok True (knuth_morris_pratt.new fuel pat) _
              (kmp_new_sat True fuel pat Hpat (λ _, Hfuel)) I)
    as (kmp & Hkmp & skip_ & -> & Hlen & H0 & Hborders).
  exists (knuth_morris_pratt.Build pat (len pat) skip_).
  split; [done|]. split; [done|]. split; [done|]. intros i Hi. simpl.
  destruct (Hborders i Hi) as (b & -> & Hb). f_equal.
  by apply lborder_longest_border.
Qed.

End kmp_table_correct.

Lemma kmp_failure_table_witness :
  ∃ kmp,
    knuth_morris_pratt.new 10 [1; 2; 1; 2; 3; 1; 2; 1; 2]%nat = Ok kmp ∧
    len (knuth_morris_pratt.skip_ kmp) = 9 + 1 ∧
    zget (knuth_morris_pratt.skip_ kmp) 0 = Some (-1) ∧
    ∀ i, 1 ≤ i ≤ 9 →
      zget (knuth_morris_pratt.skip_ kmp) i
      = Some (Z.of_nat (longest_border
                          (take (Z.to_nat i) [1; 2; 1; 2; 3; 1; 2; 1; 2]%nat))).
Proof.
  apply (kmp_failure_table 10 [1; 2; 1; 2; 3; 1; 2; 1; 2]%nat).
  - by vm_compute.
  - by vm_compute.
Defined.

(** ** The steps of the searches move forward *)

Lemma sat_False_Ok {A} (r : res A) (Q : A → Prop) a :
  sat False r Q → r = Ok a → Q a.
Proof. by intros Hsat ->. Qed.

Section steps.
Context {A : Type} `{EqDecision A} {T : Type} `{SkipTable A T}
  `{!SkipTableLaws A T}.
Implicit Types (pat corpus : list A).

Lemma bm_body_advances fuel pat (sk : T) (suf : list Z) corpus curPos curPos' :
  bm_table pat sk →
  (0 < len pat → bm_suffix pat suf) →
  len pat < INT_MAX →
  len corpus ≤ PTRDIFF_MAX →
  0 ≤ curPos →
  boyer_moore.do_search_body fuel (boyer_moore.Build pat (len pat) sk suf)
    (range_of corpus) curPos = Ok (Continue curPos') →
  curPos < curPos'.
Proof.
  intros Hsk Hsuf Hpat Hn HcurPos. pose proof (len_nonneg pat).
  unfold boyer_moore.do_search_body.
  cbn [boyer_moore.k_pattern_length distance range_of]. unwrap.
  case_decide as Hcond; [|done].
  destruct (decide (len pat = 0)) as [Hm0|Hm0].
  { unfold boyer_moore.match_here. simpl.
    destruct pat; [|unfold len in Hm0; simpl in Hm0; lia].
    by destruct fuel; simpl. }
  pose proof (bm_match_here_sat False fuel pat sk suf corpus curPos
    ltac:(lia) Hn ltac:(lia) ltac:(done)) as Hhere.
  destruct (boyer_moore.match_here _ _ _ _) as [[|j]| | |]; simpl in *;
    try done.
  destruct Hhere as (Hj & Hmatched & Hmismatch).
  destruct (zget_in_range corpus (curPos + (j - 1))) as [c Hc]; [lia|].
  destruct (Hsuf ltac:(lia)) as [_ Hentries].
  destruct (Hentries j) as (v & Hv & Hvrange & Hvmin); [lia|].
  rewrite (bm_skip_forward_eq pat sk suf _ curPos j c v);
    [|done|done|done| |done|done].
  2:{ simpl. unfold at_. by rewrite Hc. }
  simpl. intros [= <-].
  destruct (bm_shift_safe pat sk suf corpus curPos j c v) as [Hshift _];
    [done..|]. lia.
Qed.

Lemma bmh_body_advances fuel pat (sk : T) corpus curPos curPos' :
  (0 < len pat → bmh_table pat sk) →
  len pat < INT_MAX →
  len corpus ≤ PTRDIFF_MAX →
  0 ≤ curPos →
  boyer_moore_horspool.do_search_body fuel
    (boyer_moore_horspool.Build pat (len pat) sk) (range_of corpus) curPos
  = Ok (Continue curPos') →
  curPos < curPos'.
Proof.
  intros Hsk Hpat Hn HcurPos. pose proof (len_nonneg pat).
  unfold boyer_moore_horspool.do_search_body.
  cbn [boyer_moore_horspool.k_pattern_length boyer_moore_horspool.skip_
       distance deref range_of]. unwrap.
  case_decide as Hcond; [|done].
  destruct (decide (len pat = 0)) as [Hm0|Hm0].
  { unfold boyer_moore_horspool.match_here. simpl.
    destruct pat; [|unfold len in Hm0; simpl in Hm0; lia].
    by destruct fuel; simpl. }
  destruct (boyer_moore_horspool.match_here _ _ _ _) as [[|j]| | |];
    simpl; try done.
  destruct (at_ corpus _) as [c| | |]; simpl; try done.
  destruct (Hsk ltac:(lia) c) as (? & _). unwrap. intros [= <-]. lia.
Qed.

Lemma kmp_body_advances fuel pat (skip_ : list Z) corpus idx ms idx' ms' :
  kmp_table pat skip_ →
  len corpus ≤ PTRDIFF_MAX →
  0 ≤ idx < len pat →
  0 ≤ ms →
  knuth_morris_pratt.do_search_body fuel
    (knuth_morris_pratt.Build pat (len pat) skip_) (range_of corpus)
    (len corpus - len pat) (idx, ms)
  = Ok (Continue (idx', ms')) →
  ms < ms'.
Proof.
  intros (Hlen & Hsk0 & Hborders) Hn Hidx Hms.
  unfold knuth_morris_pratt.do_search_body.
  case_decide as Hcond; [|done].
  pose proof (kmp_match_here_sat False fuel pat corpus skip_ idx ms
    Hidx ltac:(lia) Hn ltac:(done)) as Hhere.
  destruct (knuth_morris_pratt.match_here _ _ _ _ _) as [[|j]| | |];
    simpl in *; try done.
  destruct Hhere as (Hj & _ & _).
  destruct (zget_in_range skip_ j) as [s Hs]; [lia|].
  assert (-1 ≤ s < j) as Hsj.
  { destruct (decide (j = 0)) as [->|].
    - rewrite Hsk0 in Hs. injection Hs as <-. lia.
    - destruct (Hborders j) as (b & Hb & [[? _] _]); [lia|].
      rewrite Hb in Hs. injection Hs as <-. lia. }
  rewrite (kmp_start_again_eq pat skip_ j s ms) by (done || lia). simpl.
  intros [= <- <-]. lia.
Qed.

End steps.

(** ** The searches *)

Section searches_correct.
Context {A : Type} `{EqDecision A} {T : Type} `{SkipTable A T}
  `{!SkipTableLaws A T}.
Implicit Types (pat corpus : list A).

(** C1: for every pattern and corpus, [boyer_moore_search],
    [boyer_moore_horspool_search] and [knuth_morris_pratt_search] return
    what the brute-force scan returns: the leftmost position at which the
    corpus reads as the pattern, or one past the end of the corpus if there is
    no such position. (The pattern is shorter than [INT_MAX], the type of the
    shifts, and the corpus is a range, not longer than [PTRDIFF_MAX].) *)
Theorem searches_agree_with_naive_search (fuel : nat) pat corpus :
  len pat < INT_MAX →
  len corpus ≤ PTRDIFF_MAX →
  len pat + len corpus + 1 < Z.of_nat fuel →
  boyer_moore_search (T := T) fuel (range_of corpus) pat
    = Ok (naive_search corpus pat) ∧
  boyer_moore_horspool_search (T := T) fuel (range_of corpus) pat
    = Ok (naive_search corpus pat) ∧
  knuth_morris_pratt_search fuel (range_of corpus) pat
    = Ok (naive_search corpus pat) ∧
  found pat corpus (naive_search corpus pat).
Proof.
  intros Hpat Hn Hfuel. split; [|split; [|split]]; [| | |apply naive_search_found].
  - destruct (sat_Ok True _ _
      (boyer_moore_search_sat True fuel pat corpus Hpat Hn (λ _, Hfuel)) I)
      as (r & -> & ->). done.
  - destruct (sat_Ok True _ _
      (boyer_moore_horspool_search_sat True fuel pat corpus Hpat Hn
         (λ _, ltac:(lia))) I) as (r & -> & ->). done.
  - destruct (sat_Ok True _ _
      (knuth_morris_pratt_search_sat True fuel pat corpus Hpat Hn
         (λ _, ltac:(lia))) I) as (r & -> & ->). done.
Qed.

(** C2: in the loop of the search of Boyer-Moore, after a mismatch at the
    index [j - 1] of the pattern against the symbol [c] of the corpus, with
    [k = skip_[c]] and [m = j - k - 1], the position moves forward by
    [max m suffix_[j]] if [k < j] and [m > suffix_[j]], and by [suffix_[j]]
    otherwise. *)
Theorem bm_mismatch_shift (fuel : nat) pat corpus bm curPos j :
  len pat < INT_MAX →
  len corpus ≤ PTRDIFF_MAX →
  boyer_moore.new (T := T) fuel pat = Ok bm →
  0 ≤ curPos ≤ len corpus - len pat →
  boyer_moore.match_here fuel bm (range_of corpus) curPos
    = Ok (boyer_moore.Mismatch j) →
  ∃ c s,
    zget corpus (curPos + (j - 1)) = Some c ∧
    zget pat (j - 1) ≠ Some c ∧
    zget (boyer_moore.suffix_ bm) j = Some s ∧
    let k := skip_lookup (boyer_moore.skip_ bm) c in
    let m := j - k - 1 in
    boyer_moore.do_search_body fuel bm (range_of corpus) curPos
    = Ok (Continue (curPos + (if decide (k < j ∧ m > s) then Z.max m s
                              else s))).
Proof.
  intros Hpat Hn Hnew HcurPos Hhere. pose proof (len_nonneg pat).
  pose proof (sat_False_Ok _ _ _
    (bm_new_sat False fuel pat Hpat ltac:(done)) Hnew)
    as (sk & suf & -> & _ & Hsk & Hsuf).
  destruct (decide (len pat = 0)) as [Hm0|Hm0].
  { exfalso. revert Hhere. unfold boyer_moore.match_here. simpl.
    destruct pat; [|unfold len in Hm0; simpl in Hm0; lia].
    by destruct fuel; simpl. }
  pose proof (sat_False_Ok _ _ _
    (bm_match_here_sat False fuel pat sk suf corpus curPos
       ltac:(lia) Hn HcurPos ltac:(done)) Hhere)
    as (Hj & Hmatched & Hmismatch).
  destruct (zget_in_range corpus (curPos + (j - 1))) as [c Hc]; [lia|].
  destruct (Hsuf ltac:(lia)) as [_ Hentries].
  destruct (Hentries j) as (v & Hv & Hvrange & Hvmin); [lia|].
  exists c, v. split; [done|]. split; [congruence|]. split; [done|].
  simpl. unfold boyer_moore.do_search_body.
  cbn [boyer_moore.k_pattern_length distance range_of]. unwrap.
  rewrite decide_True by lia. rewrite Hhere. simpl.
  rewrite (bm_skip_forward_eq pat sk suf _ curPos j c v);
    [done|done|done|done| |done|done].
  simpl. unfold at_. by rewrite Hc.
Qed.

(** C5: every search of a corpus ends. In each of the three loops, a run of
    the body that does not return moves the position forward, by a shift of
    at least one; the entries of the good suffix table of Boyer-Moore are
    at least one; and a fuel above the lengths of the pattern and of the
    corpus is enough for each of the searches to return. *)
Theorem searches_terminate (fuel : nat) pat corpus :
  len pat < INT_MAX →
  len corpus ≤ PTRDIFF_MAX →
  (∀ bm curPos curPos',
     boyer_moore.new (T := T) fuel pat = Ok bm →
     0 ≤ curPos →
     boyer_moore.do_search_body fuel bm (range_of corpus) curPos
       = Ok (Continue curPos') →
     curPos + 1 ≤ curPos') ∧
  (∀ bm j,
     boyer_moore.new (T := T) fuel pat = Ok bm →
     1 ≤ j ≤ len pat →
     ∃ s, zget (boyer_moore.suffix_ bm) j = Some s ∧ 1 ≤ s) ∧
  (∀ bmh curPos curPos',
     boyer_moore_horspool.new (T := T) fuel pat = Ok bmh →
     0 ≤ curPos →
     boyer_moore_horspool.do_search_body fuel bmh (range_of corpus) curPos
       = Ok (Continue curPos') →
     curPos + 1 ≤ curPos') ∧
  (∀ kmp idx match_start idx' match_start',
     knuth_morris_pratt.new fuel pat = Ok kmp →
     0 ≤ idx < len pat →
     0 ≤ match_start →
     knuth_morris_pratt.do_search_body fuel kmp (range_of corpus)
       (len corpus - len pat) (idx, match_start)
       = Ok (Continue (idx', match_start')) →
     match_start + 1 ≤ match_start') ∧
  (len pat + len corpus + 1 < Z.of_nat fuel →
     (∃ r, boyer_moore_search (T := T) fuel (range_of corpus) pat = Ok r) ∧
     (∃ r, boyer_moore_horspool_search (T := T) fuel (range_of corpus) pat
             = Ok r) ∧
     (∃ r, knuth_morris_pratt_search fuel (range_of corpus) pat = Ok r)).
Proof.
  intros Hpat Hn. pose proof (len_nonneg pat).
  split; [|split; [|split; [|split]]].
  - intros bm curPos curPos' Hnew HcurPos Hbody.
    pose proof (sat_False_Ok _ _ _
      (bm_new_sat False fuel pat Hpat ltac:(done)) Hnew)
      as (sk & suf & -> & _ & Hsk & Hsuf).
    pose proof (bm_body_advances _ _ _ _ _ _ _ Hsk Hsuf Hpat Hn HcurPos Hbody).
    lia.
  - intros bm j Hnew Hj.
    pose proof (sat_False_Ok _ _ _
      (bm_new_sat False fuel pat Hpat ltac:(done)) Hnew)
      as (sk & suf & -> & _ & Hsk & Hsuf).
    destruct (Hsuf ltac:(lia)) as [_ Hentries].
    destruct (Hentries j) as (v & Hv & Hvrange & _); [lia|].
    exists v. split; [done|lia].
  - intros bmh curPos curPos' Hnew HcurPos Hbody.
    pose proof (sat_False_Ok _ _ _
      (bmh_new_sat False fuel pat Hpat ltac:(done)) Hnew)
      as (sk & -> & _ & Hsk).
    pose proof (bmh_body_advances _ _ _ _ _ _ Hsk Hpat Hn HcurPos Hbody).
    lia.
  - intros kmp idx ms idx' ms' Hnew Hidx Hms Hbody.
    pose proof (sat_False_Ok _ _ _
      (kmp_new_sat False fuel pat Hpat ltac:(done)) Hnew)
      as (skip_ & -> & Hskip).
    pose proof (kmp_body_advances _ _ _ _ _ _ _ _ Hskip Hn Hidx Hms Hbody).
    lia.
  - intros Hfuel. split; [|split].
    + destruct (sat_Ok True _ _
        (boyer_moore_search_sat True fuel pat corpus Hpat Hn (λ _, Hfuel)) I)
        as (r & -> & _). by exists r.
    + destruct (sat_Ok True _ _
        (boyer_moore_horspool_search_sat True fuel pat corpus Hpat Hn
           (λ _, ltac:(lia))) I) as (r & -> & _). by exists r.
    + destruct (sat_Ok True _ _
        (knuth_morris_pratt_search_sat True fuel pat corpus Hpat Hn
           (λ _, ltac:(lia))) I) as (r & -> & _). by exists r.
Qed.

(** C6: for every corpus, the empty one too, the search for the empty
    pattern returns the position 0 of the corpus, with each of the three
    matchers. *)
Theorem empty_pattern_matches_at_start (fuel : nat) (corpus : range A) :
  boyer_moore_search (T := T) fuel corpus [] = Ok 0 ∧
  boyer_moore_horspool_search (T := T) fuel corpus [] = Ok 0 ∧
  knuth_morris_pratt_search fuel corpus [] = Ok 0.
Proof.
  unfold boyer_moore_search, boyer_moore_horspool_search,
    knuth_morris_pratt_search, boyer_moore.call, boyer_moore_horspool.call,
    knuth_morris_pratt.call.
  split; [|split]; destruct fuel; simpl; case_decide; unfold mret, res_ret;
    congruence.
Qed.

(** C7: for a pattern longer than the corpus, each of the three matchers
    returns one past the end of the corpus, and reads no symbol of the corpus
    for it: the result is the same whatever the read of a symbol of the
    corpus gives, and so with a corpus no symbol of which can be read. *)
Theorem longer_pattern_not_found (fuel : nat) pat (n : Z) (read : Z → res A) :
  len pat < INT_MAX →
  len pat + 1 < Z.of_nat fuel →
  0 ≤ n < len pat →
  boyer_moore_search (T := T) fuel (Range n read) pat = Ok n ∧
  boyer_moore_horspool_search (T := T) fuel (Range n read) pat = Ok n ∧
  knuth_morris_pratt_search fuel (Range n read) pat = Ok n.
Proof.
  intros Hpat Hfuel Hn. split; [|split].
  - unfold boyer_moore_search.
    destruct (sat_Ok True _ _
      (bm_new_sat True fuel pat Hpat (λ _, Hfuel)) I)
      as (bm & -> & sk & suf & -> & _). simpl.
    unfold boyer_moore.call. simpl. unwrap.
    repeat case_decide; try done; lia.
  - unfold boyer_moore_horspool_search.
    destruct (sat_Ok True _ _
      (bmh_new_sat True fuel pat Hpat (λ _, ltac:(lia))) I)
      as (bmh & -> & sk & -> & _). simpl.
    unfold boyer_moore_horspool.call. simpl. unwrap.
    repeat case_decide; try done; lia.
  - unfold knuth_morris_pratt_search.
    destruct (sat_Ok True _ _
      (kmp_new_sat True fuel pat Hpat (λ _, ltac:(lia))) I)
      as (kmp & -> & skip_ & -> & _). simpl.
    unfold knuth_morris_pratt.call. simpl. unwrap.
    repeat case_decide; try done; lia.
Qed.

(** C10: for a pattern of length [m] and a corpus of length [n], each of
    the three searches reads the pattern at indices from 0 to [m - 1] and the
    corpus at indices from 0 to [n - 1] only: with reads that are checked,
    no search ends in [OutOfBounds], whatever the fuel. *)
Theorem searches_stay_in_bounds (fuel : nat) pat corpus :
  len pat < INT_MAX →
  len corpus ≤ PTRDIFF_MAX →
  boyer_moore_search (T := T) fuel (range_of corpus) pat ≠ OutOfBounds ∧
  boyer_moore_horspool_search (T := T) fuel (range_of corpus) pat
    ≠ OutOfBounds ∧
  knuth_morris_pratt_search fuel (range_of corpus) pat ≠ OutOfBounds.
Proof.
  intros Hpat Hn. split; [|split].
  - eapply sat_in_bounds, (boyer_moore_search_sat False); done.
  - eapply sat_in_bounds, (boyer_moore_horspool_search_sat False); done.
  - eapply sat_in_bounds, (knuth_morris_pratt_search_sat False); done.
Qed.
End searches_correct.

Example scenario_ABABCABAB :
  all_searches 30 ABABDABACDABABCABAB ABABCABAB = replicate 5 (Ok 10).
Proof. by vm_compute. Qed.

Example scenario_AABA :
  all_searches 30 AABAACAADAABAABA AABA = replicate 5 (Ok 0).
Proof. by vm_compute. Qed.

Example scenario_X : all_searches 30 ABC only_X = replicate 5 (Ok 3).
Proof. by vm_compute. Qed.

Example scenario_empty_pattern : all_searches 30 ABC [] = replicate 5 (Ok 0).
Proof. by vm_compute. Qed.

Example scenario_AAAA : all_searches 30 AAA AAAA = replicate 5 (Ok 3).
Proof. by vm_compute. Qed.

Lemma searches_agree_with_naive_search_witness :
  boyer_moore_search (T := skip_table_array) 30
    (range_of ABABDABACDABABCABAB) ABABCABAB
    = Ok (naive_search ABABDABACDABABCABAB ABABCABAB) ∧
  boyer_moore_horspool_search (T := skip_table_array) 30
    (range_of ABABDABACDABABCABAB) ABABCABAB
    = Ok (naive_search ABABDABACDABABCABAB ABABCABAB) ∧
  knuth_morris_pratt_search 30 (range_of ABABDABACDABABCABAB) ABABCABAB
    = Ok (naive_search ABABDABACDABABCABAB ABABCABAB) ∧
  found ABABCABAB ABABDABACDABABCABAB
    (naive_search ABABDABACDABABCABAB ABABCABAB).
Proof.
  apply (searches_agree_with_naive_search 30 ABABCABAB ABABDABACDABABCABAB);
    by vm_compute.
Defined.

Lemma bm_mismatch_shift_witness :
  ∃ bm, boyer_moore.new (T := skip_table_array) 30 ABABCABAB = Ok bm ∧
  ∃ c s,
    zget ABABDABACDABABCABAB (0 + (9 - 1)) = Some c ∧
    zget ABABCABAB (9 - 1) ≠ Some c ∧
    zget (boyer_moore.suffix_ bm) 9 = Some s ∧
    let k := skip_lookup (boyer_moore.skip_ bm) c in
    let m := 9 - k - 1 in
    boyer_moore.do_search_body 30 bm (range_of ABABDABACDABABCABAB) 0
    = Ok (Continue (0 + (if decide (k < 9 ∧ m > s) then Z.max m s else s))).
Proof.
  eexists. split; [reflexivity|].
  apply (bm_mismatch_shift 30 ABABCABAB ABABDABACDABABCABAB _ 0 9).
  - by vm_compute.
  - by vm_compute.
  - reflexivity.
  - by vm_compute.
  - vm_compute. reflexivity.
Defined.

Lemma searches_terminate_witness :
  (∀ bm curPos curPos',
     boyer_moore.new (T := skip_table_array) 30 ABABCABAB = Ok bm →
     0 ≤ curPos →
     boyer_moore.do_search_body 30 bm (range_of ABABDABACDABABCABAB) curPos
       = Ok (Continue curPos') →
     curPos + 1 ≤ curPos') ∧
  (∀ bm j,
     boyer_moore.new (T := skip_table_array) 30 ABABCABAB = Ok bm →
     1 ≤ j ≤ len ABABCABAB →
     ∃ s, zget (boyer_moore.suffix_ bm) j = Some s ∧ 1 ≤ s) ∧
  (∀ bmh curPos curPos',
     boyer_moore_horspool.new (T := skip_table_array) 30 ABABCABAB = Ok bmh →
     0 ≤ curPos →
     boyer_moore_horspool.do_search_body 30 bmh
       (range_of ABABDABACDABABCABAB) curPos = Ok (Continue curPos') →
     curPos + 1 ≤ curPos') ∧
  (∀ kmp idx match_start idx' match_start',
     knuth_morris_pratt.new 30 ABABCABAB = Ok kmp →
     0 ≤ idx < len ABABCABAB →
     0 ≤ match_start →
     knuth_morris_pratt.do_search_body 30 kmp (range_of ABABDABACDABABCABAB)
       (len ABABDABACDABABCABAB - len ABABCABAB) (idx, match_start)
       = Ok (Continue (idx', match_start')) →
     match_start + 1 ≤ match_start') ∧
  (len ABABCABAB + len ABABDABACDABABCABAB + 1 < Z.of_nat 30 →
     (∃ r, boyer_moore_search (T := skip_table_array) 30
             (range_of ABABDABACDABABCABAB) ABABCABAB = Ok r) ∧
     (∃ r, boyer_moore_horspool_search (T := skip_table_array) 30
             (range_of ABABDABACDABABCABAB) ABABCABAB = Ok r) ∧
     (∃ r, knuth_morris_pratt_search 30 (range_of ABABDABACDABABCABAB)
             ABABCABAB = Ok r)).
Proof.
  apply (searches_terminate 30 ABABCABAB ABABDABACDABABCABAB); by vm_compute.
Defined.

Lemma longer_pattern_not_found_witness :
  boyer_moore_search (T := skip_table_array) 30
    (Range 3 (λ _, OutOfBounds)) AAAA = Ok 3 ∧
  boyer_moore_horspool_search (T := skip_table_array) 30
    (Range 3 (λ _, OutOfBounds)) AAAA = Ok 3 ∧
  knuth_morris_pratt_search 30 (Range 3 (λ _, OutOfBounds)) AAAA = Ok 3.
Proof.
  apply (longer_pattern_not_found 30 AAAA 3 (λ _, OutOfBounds));
    by vm_compute.
Defined.

Lemma searches_stay_in_bounds_witness :
  boyer_moore_search (T := skip_table_array) 3
    (range_of ABABDABACDABABCABAB) ABABCABAB ≠ OutOfBounds ∧
  boyer_moore_horspool_search (T := skip_table_array) 3
    (range_of ABABDABACDABABCABAB) ABABCABAB ≠ OutOfBounds ∧
  knuth_morris_pratt_search 3 (range_of ABABDABACDABABCABAB) ABABCABAB
    ≠ OutOfBounds.
Proof.
  apply (searches_stay_in_bounds 3 ABABCABAB ABABDABACDABABCABAB);
    by vm_compute.
Defined.

(** ** The two skip tables do the same *)

Section skip_table_runs.
Context {K : Type} `{EqDecision K} {T : Type} `{SkipTable K T}
  `{!SkipTableLaws K T}.

Lemma skip_inserts_lookup ops (t : T) c :
  skip_wf t →
  skip_lookup (skip_inserts ops t) c = last_inserted ops (skip_lookup t c) c.
Proof.
  revert t. induction ops as [|[key val] ops IH]; intros t Hwf; [done|].
  unfold skip_inserts in *. cbn [foldl last_inserted fst snd].
  rewrite IH by by apply skip_wf_insert. by rewrite skip_lookup_insert.
Qed.

End skip_table_runs.

(** C8: for a symbol type of one byte, the array and the map are
    equivalent: built with the same default value and after the same calls of
    [insert], where a later call for a symbol overwrites the earlier ones,
    the lookup of every symbol gives the same in both. *)
Theorem skip_tables_equivalent (patSize default_value : Z)
    (ops : list (Byte.byte * Z)) (c : Byte.byte) :
  skip_lookup
    (skip_inserts ops
       (skip_table_new patSize default_value : skip_table_array)) c
  = skip_lookup
      (skip_inserts ops
         (skip_table_new patSize default_value : skip_table_map Byte.byte)) c
  ∧ skip_lookup
      (skip_inserts ops
         (skip_table_new patSize default_value : skip_table_array)) c
    = last_inserted ops default_value c.
Proof.
  rewrite !skip_inserts_lookup by apply skip_wf_new.
  by rewrite !skip_lookup_new.
Qed.

(** ** The skip tables of the matchers, as maps *)

Lemma sat_and {A} (F : Prop) (r : res A) (Q1 Q2 : A → Prop) :
  sat F r Q1 → sat F r Q2 → sat F r (λ a, Q1 a ∧ Q2 a).
Proof. destruct r; simpl; auto. Qed.

Section skip_table_values.
Context {A : Type} `{EqDecision A} {T : Type} `{SkipTable A T}.
Implicit Types (pat : list A).

Lemma elem_of_zget (l : list A) c : c ∈ l ↔ ∃ i, zget l i = Some c.
Proof.
  rewrite list_elem_of_lookup. split.
  - intros [n Hn]. exists (Z.of_nat n). unfold zget.
    rewrite decide_True by lia. by rewrite Nat2Z.id.
  - intros [i Hi]. unfold zget in Hi. case_decide; [|done]. eauto.
Qed.

Lemma take_succ_zget (l : list A) i x :
  zget l i = Some x →
  take (Z.to_nat (i + 1)) l = take (Z.to_nat i) l ++ [x].
Proof.
  unfold zget. case_decide; [|done]. intros Hx.
  replace (Z.to_nat (i + 1)) with (S (Z.to_nat i)) by lia.
  by apply take_S_r.
Qed.

(** What the lookups of a skip table of Boyer-Moore give. *)
Lemma bm_table_values pat (sk : T) c :
  bm_table pat sk →
  (c ∈ pat →
     ∃ k, skip_lookup sk c = k ∧ 0 ≤ k < len pat ∧ zget pat k = Some c ∧
          ∀ i, k < i < len pat → zget pat i ≠ Some c) ∧
  (c ∉ pat → skip_lookup sk c = -1).
Proof.
  intros Hsk. destruct (Hsk c) as (Hrange & Hat & Hafter). split.
  - intros [i Hi]%elem_of_zget. exists (skip_lookup sk c). split; [done|].
    assert (0 ≤ skip_lookup sk c) as Hk.
    { destruct (decide (0 ≤ skip_lookup sk c)); [done|]. exfalso.
      apply (Hafter i); [|done]. apply zget_Some_range in Hi. lia. }
    split; [lia|]. split; [by apply Hat|done].
  - intros Hc. destruct (decide (0 ≤ skip_lookup sk c)); [|lia].
    exfalso. apply Hc, elem_of_zget. exists (skip_lookup sk c). by apply Hat.
Qed.

(** What the lookups of a skip table of Boyer-Moore-Horspool give. *)
Lemma bmh_table_values pat (sk : T) c :
  bmh_table pat sk →
  (c ∈ take (length pat - 1) pat →
     ∃ k, skip_lookup sk c = len pat - 1 - k ∧ 0 ≤ k < len pat - 1 ∧
          zget pat k = Some c ∧
          ∀ i, k < i < len pat - 1 → zget pat i ≠ Some c) ∧
  (c ∉ take (length pat - 1) pat → skip_lookup sk c = len pat).
Proof.
  intros Hsk. destruct (Hsk c) as (Hrange & Hat & Hafter). split.
  - intros [i Hi]%elem_of_zget.
    assert (0 ≤ i < len pat - 1 ∧ zget pat i = Some c) as [Hirange Hipat].
    { pose proof (zget_Some_range _ _ _ Hi) as Hr. unfold len in Hr.
      rewrite length_take in Hr. unfold len.
      split; [lia|]. rewrite <- Hi. symmetry. apply zget_take. lia. }
    exists (len pat - 1 - skip_lookup sk c). split; [lia|].
    assert (0 ≤ len pat - 1 - skip_lookup sk c) as Hk.
    { destruct (decide (0 ≤ len pat - 1 - skip_lookup sk c)); [done|].
      exfalso. apply (Hafter i); [lia|done]. }
    split; [lia|]. split; [by apply Hat|done].
  - intros Hc. destruct (decide (0 ≤ len pat - 1 - skip_lookup sk c)); [|lia].
    exfalso. apply Hc, elem_of_zget.
    exists (len pat - 1 - skip_lookup sk c).
    rewrite zget_take by (unfold len in *; lia). by apply Hat.
Qed.

End skip_table_values.

Section skip_table_domains.
Context {A : Type} `{Countable A}.
Implicit Types (pat : list A).

Lemma bm_new_domain_sat (F : Prop) fuel pat :
  len pat < INT_MAX →
  (F → len pat + 1 < Z.of_nat fuel) →
  sat F (boyer_moore.new (T := skip_table_map A) fuel pat)
    (λ bm, map_k_default_value (boyer_moore.skip_ bm) = -1 ∧
           dom (map_skip_ (boyer_moore.skip_ bm)) = list_to_set pat).
Proof.
  intros Hpat Hfuel. pose proof (len_nonneg pat).
  unfold boyer_moore.new, boyer_moore.build_bm_tables. unwrap.
  sat_bind. sat_bind.
  eapply sat_mono; [apply sat_while with
    (Inv := λ st : Z * Z * skip_table_map A, let '(iter, i, sk) := st in
       iter = i ∧ 0 ≤ i ≤ len pat ∧ map_k_default_value sk = -1 ∧
       dom (map_skip_ sk) = list_to_set (take (Z.to_nat i) pat))
    (mu := λ st, Z.to_nat (len pat - st.1.2))
    (Q := λ sk, map_k_default_value sk = -1 ∧
                dom (map_skip_ sk) = list_to_set pat)|].
  - intros [[iter i] sk] (-> & Hi & Hdefault & Hdom).
    case_decide as Hcond; simpl.
    2:{ split; [done|]. rewrite Hdom. f_equal. apply take_ge.
        unfold len in *. lia. }
    sat_at as x Hx. simpl. unwrap.
    split; [|lia]. split; [done|]. split; [lia|]. split; [done|].
    rewrite dom_insert_L, Hdom, (take_succ_zget _ _ _ Hx).
    rewrite list_to_set_app_L. simpl.
    rewrite (union_empty_r_L {[x]}). apply union_comm_L.
  - split; [done|]. split; [lia|]. split; [done|]. simpl. by rewrite dom_empty_L.
  - simpl. intros HF. specialize (Hfuel HF). lia.
  - intros sk [Hdefault Hdom]. simpl. sat_bind.
    eapply sat_mono; [apply bm_create_suffix_table_sat; [done..|]|].
    { by rewrite len_replicate by lia. }
    intros suf _. simpl. done.
Qed.

Lemma bmh_new_domain_sat (F : Prop) fuel pat :
  len pat < INT_MAX →
  (F → len pat < Z.of_nat fuel) →
  sat F (boyer_moore_horspool.new (T := skip_table_map A) fuel pat)
    (λ bmh, map_k_default_value (boyer_moore_horspool.skip_ bmh) = len pat ∧
            dom (map_skip_ (boyer_moore_horspool.skip_ bmh))
            = list_to_set (take (length pat - 1) pat)).
Proof.
  intros Hpat Hfuel. pose proof (len_nonneg pat).
  unfold boyer_moore_horspool.new. unwrap. sat_bind.
  case_decide as Hm; simpl.
  2:{ split; [done|]. destruct pat; [|unfold len in *; simpl in *; lia].
      simpl. by rewrite dom_empty_L. }
  eapply sat_mono; [apply sat_while with
    (Inv := λ st : Z * Z * skip_table_map A, let '(iter, i, sk) := st in
       iter = i ∧ 0 ≤ i ≤ len pat - 1 ∧ map_k_default_value sk = len pat ∧
       dom (map_skip_ sk) = list_to_set (take (Z.to_nat i) pat))
    (mu := λ st, Z.to_nat (len pat - st.1.2))
    (Q := λ sk, map_k_default_value sk = len pat ∧
                dom (map_skip_ sk) = list_to_set (take (length pat - 1) pat))|].
  - intros [[iter i] sk] (-> & Hi & Hdefault & Hdom).
    case_decide as Hcond; simpl.
    2:{ split; [done|]. rewrite Hdom. do 2 f_equal. unfold len in *. lia. }
    sat_at as x Hx. simpl. unwrap.
    split; [|lia]. split; [done|]. split; [lia|]. split; [done|].
    rewrite dom_insert_L, Hdom, (take_succ_zget _ _ _ Hx).
    rewrite list_to_set_app_L. simpl.
    rewrite (union_empty_r_L {[x]}). apply union_comm_L.
  - split; [done|]. split; [lia|]. split; [done|]. simpl. by rewrite dom_empty_L.
  - simpl. intros HF. specialize (Hfuel HF). lia.
  - intros sk [Hdefault Hdom]. simpl. done.
Qed.

(** C4, as the code has it. With the map, the skip table of a Boyer-Moore
    matcher holds exactly the symbols of the pattern, each with the index of
    its last occurrence, and gives -1 for every other symbol; the skip table
    of a Boyer-Moore-Horspool matcher holds exactly the symbols that the
    pattern has before its last position, each with the distance from its
    last occurrence there, an index before the last one, to the last
    position, and gives the length of the pattern for every other symbol.
    With the array, which is the skip table for symbols of one byte, there
    is an entry for each of the 256 symbols, and the lookups give the same:
    the index of the last occurrence, or -1, for Boyer-Moore, and the
    distance from the last occurrence before the last position to the last
    position, or the length of the pattern, for Boyer-Moore-Horspool. *)
Theorem skip_tables_of_matchers (fuel : nat) pat (bytes : list Byte.byte) :
  len pat < INT_MAX →
  len pat + 1 < Z.of_nat fuel →
  len bytes < INT_MAX →
  len bytes + 1 < Z.of_nat fuel →
  (∃ bm, boyer_moore.new (T := skip_table_map A) fuel pat = Ok bm ∧
     dom (map_skip_ (boyer_moore.skip_ bm)) = list_to_set pat ∧
     (∀ c, c ∈ pat →
        ∃ k, map_skip_ (boyer_moore.skip_ bm) !! c = Some k ∧
             0 ≤ k < len pat ∧ zget pat k = Some c ∧
             ∀ i, k < i < len pat → zget pat i ≠ Some c) ∧
     (∀ c, c ∉ pat → skip_lookup (boyer_moore.skip_ bm) c = -1)) ∧
  (∃ bmh, boyer_moore_horspool.new (T := skip_table_map A) fuel pat = Ok bmh ∧
     dom (map_skip_ (boyer_moore_horspool.skip_ bmh))
       = list_to_set (take (length pat - 1) pat) ∧
     (∀ c, c ∈ take (length pat - 1) pat →
        ∃ k, map_skip_ (boyer_moore_horspool.skip_ bmh) !! c
               = Some (len pat - 1 - k) ∧
             0 ≤ k < len pat - 1 ∧ zget pat k = Some c ∧
             ∀ i, k < i < len pat - 1 → zget pat i ≠ Some c) ∧
     (∀ c, c ∉ take (length pat - 1) pat →
        skip_lookup (boyer_moore_horspool.skip_ bmh) c = len pat)) ∧
  (∃ bm, boyer_moore.new (T := skip_table_array) fuel bytes = Ok bm ∧
     length (arr_skip_ (boyer_moore.skip_ bm)) = 256%nat ∧
     (∀ c, c ∈ bytes →
        ∃ k, skip_lookup (boyer_moore.skip_ bm) c = k ∧
             0 ≤ k < len bytes ∧ zget bytes k = Some c ∧
             ∀ i, k < i < len bytes → zget bytes i ≠ Some c) ∧
     (∀ c, c ∉ bytes → skip_lookup (boyer_moore.skip_ bm) c = -1)) ∧
  (∃ bmh, boyer_moore_horspool.new (T := skip_table_array) fuel bytes
            = Ok bmh ∧
     length (arr_skip_ (boyer_moore_horspool.skip_ bmh)) = 256%nat ∧
     (∀ c, c ∈ take (length bytes - 1) bytes →
        ∃ k, skip_lookup (boyer_moore_horspool.skip_ bmh) c
               = len bytes - 1 - k ∧
             0 ≤ k < len bytes - 1 ∧ zget bytes k = Some c ∧
             ∀ i, k < i < len bytes - 1 → zget bytes i ≠ Some c) ∧
     (∀ c, c ∉ take (length bytes - 1) bytes →
        skip_lookup (boyer_moore_horspool.skip_ bmh) c = len bytes)).
Proof.
  intros Hpat Hfuel Hbytes Hbfuel.
  pose proof (len_nonneg pat). pose proof (len_nonneg bytes).
  split; [|split; [|split]].
  - destruct (sat_Ok True _ _
      (sat_and _ _ _ _
         (bm_new_sat (T := skip_table_map A) True fuel pat Hpat (λ _, Hfuel))
         (bm_new_domain_sat True fuel pat Hpat (λ _, Hfuel))) I)
      as (bm & Hnew & (sk & suf & -> & _ & Hsk & _) & Hdefault & Hdom).
    exists (boyer_moore.Build pat (len pat) sk suf).
    simpl in *. split; [done|]. split; [done|]. split.
    + intros c Hc.
      destruct (bm_table_values pat sk c Hsk) as [Hin _].
      destruct (Hin Hc) as (k & Hk & Hrest). exists k. split; [|done].
      assert (c ∈ dom (map_skip_ sk)) as [v Hv]%elem_of_dom
        by (rewrite Hdom; by apply elem_of_list_to_set).
      simpl in Hk. rewrite Hv in Hk. by rewrite Hv, Hk.
    + intros c Hc. by apply (bm_table_values pat sk c Hsk).
  - destruct (sat_Ok True _ _
      (sat_and _ _ _ _
         (bmh_new_sat (T := skip_table_map A) True fuel pat Hpat
            (λ _, ltac:(lia)))
         (bmh_new_domain_sat True fuel pat Hpat (λ _, ltac:(lia)))) I)
      as (bmh & Hnew & (sk & -> & _ & Hsk) & Hdefault & Hdom).
    exists (boyer_moore_horspool.Build pat (len pat) sk).
    simpl in *. split; [done|]. split; [done|]. split.
    + intros c Hc.
      assert (0 < len pat) as Hm.
      { destruct pat; [by apply elem_of_nil in Hc|unfold len; simpl; lia]. }
      destruct (bmh_table_values pat sk c (Hsk Hm)) as [Hin _].
      destruct (Hin Hc) as (k & Hk & Hrest). exists k. split; [|done].
      assert (c ∈ dom (map_skip_ sk)) as [v Hv]%elem_of_dom
        by (rewrite Hdom; by apply elem_of_list_to_set).
      simpl in Hk. rewrite Hv in Hk. by rewrite Hv, Hk.
    + intros c Hc. assert (c ∉ dom (map_skip_ sk)) as Hnin
        by (rewrite Hdom; by rewrite elem_of_list_to_set).
      apply not_elem_of_dom in Hnin. by rewrite Hnin.
  - destruct (sat_Ok True _ _
      (bm_new_sat (T := skip_table_array) True fuel bytes Hbytes
         (λ _, Hbfuel)) I)
      as (bm & Hnew & sk & suf & -> & Hwf & Hsk & _).
    exists (boyer_moore.Build bytes (len bytes) sk suf).
    simpl in *. split; [done|]. split; [done|].
    split; intros c Hc; by apply (bm_table_values bytes sk c Hsk).
  - destruct (sat_Ok True _ _
      (bmh_new_sat (T := skip_table_array) True fuel bytes Hbytes
         (λ _, ltac:(lia))) I)
      as (bmh & Hnew & sk & -> & Hwf & Hsk).
    exists (boyer_moore_horspool.Build bytes (len bytes) sk).
    split; [done|]. split; [exact Hwf|].
    cbn [boyer_moore_horspool.skip_].
    destruct (decide (0 < len bytes)) as [Hm|Hm].
    + split; intros c Hc; by apply (bmh_table_values bytes sk c (Hsk Hm)).
    + destruct bytes as [|b bytes]; [|unfold len in Hm; simpl in Hm; lia].
      split; [by intros c ?%elem_of_nil|]. intros c _.
      unfold boyer_moore_horspool.new in Hnew.
      rewrite decide_False in Hnew by (intros Hne; by apply Hne).
      cbn [mbind res_bind mret res_ret] in Hnew. injection Hnew as <-.
      etrans; [apply (skip_table_array_lookup_new 0)|done].
Qed.

End skip_table_domains.

Lemma skip_tables_of_matchers_witness :
  (∃ bm, boyer_moore.new (T := skip_table_map Byte.byte) 30 ABABCABAB = Ok bm ∧
     dom (map_skip_ (boyer_moore.skip_ bm)) = list_to_set ABABCABAB ∧
     (∀ c, c ∈ ABABCABAB →
        ∃ k, map_skip_ (boyer_moore.skip_ bm) !! c = Some k ∧
             0 ≤ k < len ABABCABAB ∧ zget ABABCABAB k = Some c ∧
             ∀ i, k < i < len ABABCABAB → zget ABABCABAB i ≠ Some c) ∧
     (∀ c, c ∉ ABABCABAB → skip_lookup (boyer_moore.skip_ bm) c = -1)) ∧
  (∃ bmh, boyer_moore_horspool.new (T := skip_table_map Byte.byte) 30
            ABABCABAB = Ok bmh ∧
     dom (map_skip_ (boyer_moore_horspool.skip_ bmh))
       = list_to_set (take (length ABABCABAB - 1) ABABCABAB) ∧
     (∀ c, c ∈ take (length ABABCABAB - 1) ABABCABAB →
        ∃ k, map_skip_ (boyer_moore_horspool.skip_ bmh) !! c
               = Some (len ABABCABAB - 1 - k) ∧
             0 ≤ k < len ABABCABAB - 1 ∧ zget ABABCABAB k = Some c ∧
             ∀ i, k < i < len ABABCABAB - 1 → zget ABABCABAB i ≠ Some c) ∧
     (∀ c, c ∉ take (length ABABCABAB - 1) ABABCABAB →
        skip_lookup (boyer_moore_horspool.skip_ bmh) c = len ABABCABAB)) ∧
  (∃ bm, boyer_moore.new (T := skip_table_array) 30 ABABCABAB = Ok bm ∧
     length (arr_skip_ (boyer_moore.skip_ bm)) = 256%nat ∧
     (∀ c, c ∈ ABABCABAB →
        ∃ k, skip_lookup (boyer_moore.skip_ bm) c = k ∧
             0 ≤ k < len ABABCABAB ∧ zget ABABCABAB k = Some c ∧
             ∀ i, k < i < len ABABCABAB → zget ABABCABAB i ≠ Some c) ∧
     (∀ c, c ∉ ABABCABAB → skip_lookup (boyer_moore.skip_ bm) c = -1)) ∧
  (∃ bmh, boyer_moore_horspool.new (T := skip_table_array) 30 ABABCABAB
            = Ok bmh ∧
     length (arr_skip_ (boyer_moore_horspool.skip_ bmh)) = 256%nat ∧
     (∀ c, c ∈ take (length ABABCABAB - 1) ABABCABAB →
        ∃ k, skip_lookup (boyer_moore_horspool.skip_ bmh) c
               = len ABABCABAB - 1 - k ∧
             0 ≤ k < len ABABCABAB - 1 ∧ zget ABABCABAB k = Some c ∧
             ∀ i, k < i < len ABABCABAB - 1 → zget ABABCABAB i ≠ Some c) ∧
     (∀ c, c ∉ take (length ABABCABAB - 1) ABABCABAB →
        skip_lookup (boyer_moore_horspool.skip_ bmh) c = len ABABCABAB)).
Proof.
  apply (skip_tables_of_matchers 30 ABABCABAB ABABCABAB); by vm_compute.
Defined.

(** C4, as it is stated, fails for the pattern "AB": the symbol "B" is in
    the pattern, and the skip table of its Boyer-Moore-Horspool matcher does
    not hold it; its lookup gives the length of the pattern, and not the
    distance 0 of "B" from the end. *)
Lemma bmh_skip_table_misses_last_symbol :
  ∃ bmh,
    (boyer_moore_horspool.new (T := skip_table_map Byte.byte) 30
       [Byte.x41; Byte.x42] = Ok bmh) ∧
    (Byte.x42 ∈ [Byte.x41; Byte.x42]) ∧
    (Byte.x42 ∉ dom (map_skip_ (boyer_moore_horspool.skip_ bmh))) ∧
    (dom (map_skip_ (boyer_moore_horspool.skip_ bmh))
       ≠ list_to_set [Byte.x41; Byte.x42]) ∧
    skip_lookup (boyer_moore_horspool.skip_ bmh) Byte.x42 = 2.
Proof.
  exists (boyer_moore_horspool.Build [Byte.x41; Byte.x42] 2
            (skip_insert (skip_table_new 2 2 : skip_table_map Byte.byte)
               Byte.x41 1)).
  assert (Byte.x42 ∉ dom (map_skip_
    (skip_insert (skip_table_new 2 2 : skip_table_map Byte.byte)
       Byte.x41 1))) as Hnin.
  { apply not_elem_of_dom. by vm_compute. }
  split; [by vm_compute|]. split; [apply list_elem_of_further, list_elem_of_here|].
  split; [exact Hnin|]. split; [|by vm_compute].
  intros Heq. apply Hnin. cbn [boyer_moore_horspool.skip_] in Heq.
  rewrite Heq. apply elem_of_list_to_set, list_elem_of_further, list_elem_of_here.
Qed.

(** * The hex codec decodes, or fails in one of two ways *)

Section hex_proofs.
Import hex.

Lemma to_char_char c : -128 ≤ c ≤ 127 → to_char c = c.
Proof. intros ?. unfold to_char. rewrite Z.mod_small; lia. Qed.

Lemma to_char_range c : -128 ≤ to_char c ≤ 127.
Proof.
  unfold to_char. pose proof (Z.mod_pos_bound (c + 128) 256 ltac:(lia)). lia.
Qed.

(** For an input of [char], the elements that are taken for a digit are the
    digits. *)
Lemma is_hex_digit_element_char c :
  -128 ≤ c ≤ 127 → is_hex_digit_element c = is_hex_digit c.
Proof. intros ?. unfold is_hex_digit_element. by rewrite to_char_char. Qed.

(** [hex_char_to_int] ends in the same way on the low byte read as an
    unsigned [char]. *)
Lemma hex_char_to_int_unsigned_char c :
  hex_char_to_int (c `mod` 256) = hex_char_to_int (to_char c).
Proof.
  unfold to_char. pose proof (Z.mod_pos_bound c 256 ltac:(lia)).
  destruct (decide (c `mod` 256 < 128)).
  - replace ((c + 128) `mod` 256) with (c `mod` 256 + 128); [f_equal; lia|].
    rewrite <- Zplus_mod_idemp_l.
    by rewrite (Z.mod_small (c `mod` 256 + 128)) by lia.
  - replace ((c + 128) `mod` 256) with (c `mod` 256 - 128).
    + unfold hex_char_to_int. repeat case_decide; try done; lia.
    + rewrite <- Zplus_mod_idemp_l.
      replace (c `mod` 256 + 128) with (c `mod` 256 - 128 + 1 * 256) by lia.
      rewrite Z.mod_add by lia.
      by rewrite (Z.mod_small (c `mod` 256 - 128)) by lia.
Qed.

Lemma hex_char_to_int_digit c :
  is_hex_digit_element c = true →
  ∃ d, hex_char_to_int (to_char c) = Returns d.
Proof.
  unfold is_hex_digit_element, is_hex_digit, hex_char_to_int.
  intros Hc%bool_decide_eq_true. repeat case_decide; eauto; lia.
Qed.

Lemma hex_char_to_int_other c :
  is_hex_digit_element c = false →
  hex_char_to_int (to_char c) = Throws non_hex_input.
Proof.
  unfold is_hex_digit_element, is_hex_digit, hex_char_to_int.
  intros Hc%bool_decide_eq_false. repeat case_decide; try done; lia.
Qed.

(** [decode_one] on a range that ends where the input ends. *)
Lemma decode_loop_range T i first res :
  match decode_loop T i first (length first) res with
  | Returns (_, first', last') =>
      (i ≤ length first)%nat ∧ first' = drop i first ∧
      last' = length first' ∧ forallb is_hex_digit_element (take i first) = true
  | Throws non_hex_input => forallb is_hex_digit_element first = false
  | Throws not_enough_input =>
      (length first < i)%nat ∧ forallb is_hex_digit_element first = true
  | Stuck => False
  end.
Proof.
  revert first res. induction i as [|i IH]; intros first res; simpl.
  { split; [lia|]. by rewrite drop_0. }
  destruct first as [|c first]; simpl; [split; [lia|done]|].
  destruct (is_hex_digit_element c) eqn:Hc.
  - destruct (hex_char_to_int_digit c Hc) as [d ->]. simpl.
    rewrite Nat.sub_0_r.
    specialize (IH first (convert T (convert T (res * 16) + d))).
    destruct (decode_loop _ _ _ _ _) as [[[res' first'] last']|[]|];
      simpl in *; [|done| |done].
    + destruct IH as (? & ? & ? & ?). split; [lia|]. done.
    + destruct IH. split; [lia|done].
  - by rewrite (hex_char_to_int_other c Hc).
Qed.

Lemma mod_unit_sub (n u : nat) :
  (u ≤ n)%nat → ((n - u) `mod` u = n `mod` u)%nat.
Proof.
  intros ?. replace n with ((n - u) + 1 * u)%nat at 2 by lia.
  by rewrite Nat.Div0.mod_add.
Qed.

Lemma unit_size_pos T : (0 < unit_size T)%nat.
Proof. unfold unit_size. lia. Qed.

Lemma unhex_loop_range T fuel first out :
  (length first ≤ fuel)%nat →
  match unhex_loop T fuel first (length first) out with
  | Returns _ =>
      forallb is_hex_digit_element first = true ∧
      (length first `mod` unit_size T = 0)%nat
  | Throws non_hex_input => forallb is_hex_digit_element first = false
  | Throws not_enough_input =>
      forallb is_hex_digit_element first = true ∧
      (length first `mod` unit_size T ≠ 0)%nat
  | Stuck => False
  end.
Proof.
  pose proof (unit_size_pos T) as Hu.
  revert first out. induction fuel as [|fuel IH]; intros first out Hfuel.
  { destruct first; [|simpl in Hfuel; lia]. simpl.
    split; [done|]. by apply Nat.Div0.mod_0_l. }
  simpl. case_decide as Hlast; simpl.
  2:{ destruct first; [|done]. split; [done|]. by apply Nat.Div0.mod_0_l. }
  unfold decode_one.
  pose proof (decode_loop_range T (unit_size T) first 0) as Hloop.
  destruct (decode_loop _ _ _ _ _) as [[[res' first'] last']|[]|];
    simpl in *; [| | |done].
  - destruct Hloop as (Hle & -> & -> & Htake).
    assert (forallb is_hex_digit_element first
            = forallb is_hex_digit_element (drop (unit_size T) first)) as ->.
    { rewrite <- (take_drop (unit_size T) first) at 1.
      by rewrite forallb_app, Htake. }
    rewrite <- (mod_unit_sub (length first) (unit_size T)) by done.
    rewrite <- length_drop. apply IH. rewrite length_drop. lia.
  - done.
  - destruct Hloop as [Hlt Hall]. split; [done|].
    rewrite Nat.mod_small by done. done.
Qed.

(** [decode_one] on a string with its terminator, for a range that is as
    long as the loop. *)
Lemma decode_loop_ptr T i s last res :
  (i ≤ last)%nat →
  match decode_loop T i (s ++ [0]) last res with
  | Returns (_, first', _) =>
      (i ≤ length s)%nat ∧ first' = drop i s ++ [0]
  | Throws non_hex_input =>
      forallb is_hex_digit_element s = true → (length s < i)%nat
  | Throws not_enough_input => False
  | Stuck => False
  end.
Proof.
  revert s last res. induction i as [|i IH]; intros s last res Hlast; simpl.
  { split; [lia|]. by rewrite drop_0. }
  rewrite decide_False by lia.
  destruct s as [|c s]; simpl.
  { intros _. lia. }
  destruct (is_hex_digit_element c) eqn:Hc; simpl.
  - destruct (hex_char_to_int_digit c Hc) as [d ->]. simpl.
    specialize (IH s (last - 1)%nat (convert T (convert T (res * 16) + d))
                  ltac:(lia)).
    destruct (decode_loop _ _ _ _ _) as [[[res' first'] last']|[]|];
      simpl in *; [|intros Hall; specialize (IH Hall); lia|done|done].
    destruct IH. split; [lia|done].
  - by rewrite (hex_char_to_int_other c Hc).
Qed.

Lemma unhex_ptr_loop_spec T fuel s out :
  (length s ≤ fuel)%nat →
  match unhex_ptr_loop T fuel (s ++ [0]) out with
  | Returns _ =>
      forallb is_hex_digit_element s = true → (length s `mod` unit_size T = 0)%nat
  | Throws non_hex_input =>
      forallb is_hex_digit_element s = true → (length s `mod` unit_size T ≠ 0)%nat
  | Throws not_enough_input => False
  | Stuck => False
  end.
Proof.
  pose proof (unit_size_pos T) as Hu.
  revert s out. induction fuel as [|fuel IH]; intros s out Hfuel.
  { destruct s; [|simpl in Hfuel; lia]. simpl. intros _.
    by apply Nat.Div0.mod_0_l. }
  destruct s as [|c s].
  { simpl. intros _. by apply Nat.Div0.mod_0_l. }
  cbn [app unhex_ptr_loop]. case_decide as Hc; simpl.
  2:{ assert (c = 0) as -> by lia. done. }
  unfold decode_one.
  pose proof (decode_loop_ptr T (unit_size T) (c :: s) (unit_size T) 0
                ltac:(done)) as Hloop.
  cbn [app] in Hloop.
  destruct (decode_loop _ _ _ _ _) as [[[res' first'] last']|[]|];
    simpl in *; [| |done|done].
  - destruct Hloop as [Hle ->].
    specialize (IH (drop (unit_size T) (c :: s)) (out ++ [res'])).
    rewrite length_drop in IH. simpl in IH.
    specialize (IH ltac:(lia)).
    assert ((S (length s) - unit_size T) `mod` unit_size T
            = S (length s) `mod` unit_size T)%nat as Hmod
      by (by apply mod_unit_sub).
    assert (is_hex_digit_element c && forallb is_hex_digit_element s = true →
            forallb is_hex_digit_element (drop (unit_size T) (c :: s)) = true)
      as Hdrop.
    { intros Hall. change (forallb is_hex_digit_element (c :: s) = true) in Hall.
      rewrite <- (take_drop (unit_size T) (c :: s)) in Hall.
      rewrite forallb_app in Hall. by apply andb_true_iff in Hall as [_ ?]. }
    destruct (unhex_ptr_loop _ _ _ _) as [?|[]|]; simpl in *; try done.
    + intros Hall. rewrite <- Hmod. by apply IH, Hdrop.
    + intros Hall. rewrite <- Hmod. by apply IH, Hdrop.
  - intros Hall. specialize (Hloop Hall).
    rewrite Nat.mod_small by done. done.
Qed.

Lemma forallb_is_hex_digit (l : list Z) :
  forallb is_hex_digit_element l = true ↔ ∀ c, c ∈ l → is_hex_digit_element c = true.
Proof.
  rewrite forallb_forall. by setoid_rewrite list_elem_of_In.
Qed.

Lemma exists_non_hex_digit (l : list Z) :
  forallb is_hex_digit_element l = false ↔ ∃ c, c ∈ l ∧ is_hex_digit_element c = false.
Proof.
  induction l as [|a l IH]; simpl.
  - split; [done|]. by intros (c & Hc%elem_of_nil & _).
  - rewrite andb_false_iff, IH. split.
    + intros [Ha|(c & Hc & Hne)].
      * exists a. split; [apply list_elem_of_here|done].
      * exists c. split; [by apply list_elem_of_further|done].
    + intros (c & [->|Hc]%elem_of_cons & Hne); [by left|right; eauto].
Qed.

(** C9, as the code has it, for every type of the output ([bool] too) and
    every integral type of the elements of the input. An element counts as a
    hexadecimal digit if its conversion to [char], which is what
    [hex_char_to_int] gets, is one of 0-9, A-F, a-f; for an input of [char]
    that is to be such a digit ([is_hex_digit_element_char]). The decoding of
    a range fails in two ways: an element that does not count as a
    hexadecimal digit throws [non_hex_input], and an input of elements that
    count as hexadecimal digits and that ends inside of a unit of
    [2 * sizeof (T)] elements throws [not_enough_input]; an input of such
    elements that is whole units long decodes. The decoding of a string with
    a terminator never throws [not_enough_input]: a string of such elements
    that ends inside of a unit throws [non_hex_input], and one that is whole
    units long decodes. *)
Theorem unhex_failures (T : integral) (input : list Z) :
  (unhex T input = Throws non_hex_input ↔
     ∃ c, c ∈ input ∧ is_hex_digit_element c = false) ∧
  (unhex T input = Throws not_enough_input ↔
     (∀ c, c ∈ input → is_hex_digit_element c = true) ∧
     (length input `mod` unit_size T ≠ 0)%nat) ∧
  ((∃ out, unhex T input = Returns out) ↔
     (∀ c, c ∈ input → is_hex_digit_element c = true) ∧
     (length input `mod` unit_size T = 0)%nat) ∧
  unhex_ptr T input ≠ Throws not_enough_input ∧
  ((∀ c, c ∈ input → is_hex_digit_element c = true) →
   (length input `mod` unit_size T ≠ 0)%nat →
   unhex_ptr T input = Throws non_hex_input) ∧
  ((∀ c, c ∈ input → is_hex_digit_element c = true) →
   (length input `mod` unit_size T = 0)%nat →
   ∃ out, unhex_ptr T input = Returns out).
Proof.
  pose proof (unhex_loop_range T (length input) input [] ltac:(done)) as Hr.
  pose proof (unhex_ptr_loop_spec T (length input) input [] ltac:(done)) as Hp.
  fold (unhex T input) in Hr. fold (unhex_ptr T input) in Hp.
  rewrite <- forallb_is_hex_digit.
  rewrite <- exists_non_hex_digit.
  destruct (unhex T input) as [out|[]|];
    destruct (unhex_ptr T input) as [out'|[]|]; try done.
  all: repeat split; intros;
    repeat match goal with
           | H : _ ∧ _ |- _ => destruct H
           | H : ∃ _, _ |- _ => destruct H
           end;
    try done; try congruence; eauto;
    exfalso; specialize (Hp ltac:(done)); done.
Qed.

(** An element of a type wider than [char] is cut to its low byte: these
    four decode as "0A6a". *)
Example unhex_wide_elements :
  unhex (Integral 1 true) [304; 321; 54; 353] = Returns [10; 106].
Proof. by vm_compute. Qed.

(** C9, as it is stated, fails for the string "abc" and the overload that
    takes a pointer, decoding to characters of one byte: its characters are
    hexadecimal digits, it ends inside of a unit of two characters, and
    [non_hex_input] is thrown, not [not_enough_input] (which the overload
    that takes a range throws). *)
Lemma unhex_ptr_abc :
  (∀ c, c ∈ [97; 98; 99] → is_hex_digit c = true) ∧
  (length [97; 98; 99] `mod` unit_size (Integral 1 true) ≠ 0)%nat ∧
  unhex_ptr (Integral 1 true) [97; 98; 99] = Throws non_hex_input ∧
  unhex (Integral 1 true) [97; 98; 99] = Throws not_enough_input.
Proof.
  split; [|by vm_compute].
  intros c Hc. repeat (apply elem_of_cons in Hc as [->|Hc]; [done|]).
  by apply elem_of_nil in Hc.
Qed.

End hex_proofs.

(** * Further properties of the code *)

(** ** The hex codec: encoding, and decoding what was encoded *)

Section hex_codec.
Import hex.

Implicit Types (T : integral).

Lemma modulus_pos T : 0 < modulus T.
Proof. unfold modulus. apply Z.pow_pos_nonneg; lia. Qed.

Lemma modulus_half T : modulus T = 2 * 2 ^ (8 * Z.pos (sizeof T) - 1).
Proof.
  unfold modulus.
  replace (8 * Z.pos (sizeof T)) with (Z.succ (8 * Z.pos (sizeof T) - 1))
    at 1 by lia.
  apply Z.pow_succ_r. lia.
Qed.

Lemma modulus_unit T : modulus T = 16 ^ Z.of_nat (unit_size T).
Proof.
  unfold modulus, unit_size.
  replace (8 * Z.pos (sizeof T)) with (4 * Z.of_nat (Pos.to_nat (2 * sizeof T)))
    by lia.
  by rewrite Z.pow_mul_r by lia.
Qed.

Lemma convert_value T v : value_of T v → convert T v = v.
Proof.
  destruct T as [n signed|]; simpl.
  - pose proof (modulus_half (Integral n signed)) as Hh.
    unfold modulus in Hh. simpl in Hh.
    destruct signed; intros Hv; rewrite Z.mod_small; lia.
  - intros Hv. case_decide; lia.
Qed.

Lemma value_of_convert T x : value_of T (convert T x).
Proof.
  destruct T as [n signed|]; simpl.
  - pose proof (modulus_half (Integral n signed)) as Hh.
    pose proof (modulus_pos (Integral n signed)) as Hp.
    unfold modulus in Hh, Hp. simpl in Hh, Hp.
    destruct signed.
    + pose proof (Z.mod_pos_bound (x + 2 ^ (8 * Z.pos n - 1)) _ Hp). lia.
    + by apply Z.mod_pos_bound.
  - case_decide; lia.
Qed.

Lemma convert_0 T : convert T 0 = 0.
Proof.
  apply convert_value. destruct T as [n signed|]; simpl; [|lia].
  assert (0 < 2 ^ (8 * Z.pos n - 1)) by (apply Z.pow_pos_nonneg; lia).
  assert (0 < 2 ^ (8 * Z.pos n)) by (apply Z.pow_pos_nonneg; lia).
  destruct signed; lia.
Qed.

(** The powers of 16 that divide the modulus of [T]. *)
Lemma mod_pow16_modulus T (i : nat) x y :
  (i ≤ unit_size T)%nat →
  x `mod` modulus T = y `mod` modulus T →
  x `mod` 16 ^ Z.of_nat i = y `mod` 16 ^ Z.of_nat i.
Proof.
  intros Hi Hxy.
  assert ((16 ^ Z.of_nat i | modulus T)) as Hdiv.
  { rewrite modulus_unit.
    exists (16 ^ (Z.of_nat (unit_size T) - Z.of_nat i)).
    rewrite <- Z.pow_add_r by lia. f_equal. lia. }
  assert (0 < 16 ^ Z.of_nat i) as Hpos by (apply Z.pow_pos_nonneg; lia).
  rewrite <- (Z.mod_mod_divide x (modulus T) (16 ^ Z.of_nat i)) by done.
  rewrite <- (Z.mod_mod_divide y (modulus T) (16 ^ Z.of_nat i)) by done.
  by rewrite Hxy.
Qed.

Lemma mod_pow16_succ (i : nat) x :
  x `mod` 16 ^ Z.of_nat (S i)
  = x `mod` 16 + 16 * ((x `div` 16) `mod` 16 ^ Z.of_nat i).
Proof.
  rewrite Nat2Z.inj_succ, Z.pow_succ_r by lia.
  apply Z.rem_mul_r; [lia|]. apply Z.pow_pos_nonneg; lia.
Qed.

Lemma land_15 x : Z.land x 15 = x `mod` 16.
Proof. change 15 with (Z.ones 4). by rewrite Z.land_ones by lia. Qed.

Lemma shiftr_4 x : Z.shiftr x 4 = x `div` 16.
Proof. by rewrite Z.shiftr_div_pow2 by lia. Qed.

Lemma mod_16_bound x : 0 ≤ x `mod` 16 < 16.
Proof. apply Z.mod_pos_bound. lia. Qed.

Lemma length_nibbles T i x : length (nibbles T i x) = i.
Proof.
  revert x. induction i as [|i IH]; intros x; [done|].
  simpl. rewrite length_app, IH. simpl. lia.
Qed.

Lemma nibbles_bound T i x d : d ∈ nibbles T i x → 0 ≤ d < 16.
Proof.
  revert x. induction i as [|i IH]; intros x; simpl.
  { by intros ?%elem_of_nil. }
  intros [Hd|Hd%list_elem_of_singleton]%elem_of_app; [by eapply IH|].
  subst d. rewrite land_15. apply mod_16_bound.
Qed.

Lemma encode_loop_spec T i val p (res : list Z) :
  (i ≤ p ≤ length res)%nat →
  encode_loop T i val p res
  = take (p - i) res ++ ((λ d, digits !!! Z.to_nat d) <$> nibbles T i val)
    ++ drop p res.
Proof.
  revert val p res. induction i as [|i IH]; intros val p res Hp.
  { simpl. by rewrite Nat.sub_0_r, take_drop. }
  cbn [encode_loop nibbles]. rewrite IH by (rewrite length_insert; lia).
  rewrite fmap_app. simpl. rewrite <- !app_assoc. simpl.
  rewrite (insert_take_drop res (p - 1)) by lia.
  rewrite take_app_le by (rewrite length_take; lia).
  rewrite take_take, drop_app_length' by (rewrite length_take; lia).
  replace (S (p - 1)) with p by lia.
  replace ((p - 1 - i) `min` (p - 1))%nat with (p - S i)%nat by lia.
  done.
Qed.

Lemma encode_one_spec T val out : encode_one T val out = out ++ encoding T val.
Proof.
  unfold encode_one, encoding. f_equal.
  rewrite encode_loop_spec by (rewrite length_replicate; lia).
  rewrite Nat.sub_diag, take_0.
  rewrite drop_ge by (rewrite length_replicate; lia).
  by rewrite app_nil_r.
Qed.

Lemma hex_loop_spec T input out :
  hex_loop T input out = out ++ (input ≫= encoding T).
Proof.
  revert out. induction input as [|v input IH]; intros out; simpl.
  { by rewrite app_nil_r. }
  rewrite IH, encode_one_spec. by rewrite <- app_assoc.
Qed.

Lemma hex_spec T input : hex T input = input ≫= encoding T.
Proof. unfold hex. by rewrite hex_loop_spec. Qed.

Lemma hex_cons T v input : hex T (v :: input) = encoding T v ++ hex T input.
Proof. by rewrite !hex_spec. Qed.

Lemma hex_app T a b : hex T (a ++ b) = hex T a ++ hex T b.
Proof. rewrite !hex_spec. apply bind_app. Qed.

Lemma length_encoding T v : length (encoding T v) = unit_size T.
Proof. unfold encoding. by rewrite length_fmap, length_nibbles. Qed.

Lemma length_hex T input :
  length (hex T input) = (unit_size T * length input)%nat.
Proof.
  induction input as [|v input IH]; [simpl; lia|].
  rewrite hex_cons, length_app, length_encoding, IH. simpl. lia.
Qed.

Lemma sixteen_cases d :
  0 ≤ d < 16 →
  d = 0 ∨ d = 1 ∨ d = 2 ∨ d = 3 ∨ d = 4 ∨ d = 5 ∨ d = 6 ∨ d = 7 ∨ d = 8 ∨
  d = 9 ∨ d = 10 ∨ d = 11 ∨ d = 12 ∨ d = 13 ∨ d = 14 ∨ d = 15.
Proof. lia. Qed.

Lemma digits_upper d :
  0 ≤ d < 16 → is_upper_hex_digit (digits !!! Z.to_nat d) = true.
Proof.
  intros Hd%sixteen_cases.
  repeat (destruct Hd as [->|Hd]; [done|]). by subst.
Qed.

Lemma digits_value d :
  0 ≤ d < 16 → hex_char_to_int (to_char (digits !!! Z.to_nat d)) = Returns d.
Proof.
  intros Hd%sixteen_cases.
  repeat (destruct Hd as [->|Hd]; [done|]). by subst.
Qed.

Lemma encoding_upper T v c : c ∈ encoding T v → is_upper_hex_digit c = true.
Proof.
  unfold encoding. intros (d & -> & Hd)%list_elem_of_fmap.
  apply digits_upper. by eapply nibbles_bound.
Qed.

Lemma hex_upper T input c : c ∈ hex T input → is_upper_hex_digit c = true.
Proof.
  rewrite hex_spec. intros (v & Hc & _)%list_elem_of_bind.
  by eapply encoding_upper.
Qed.

(** One run of the loop of [decode_one], on the value of a digit. *)
Definition decode_step (T : integral) (res d : Z) : Z :=
  convert T (convert T (res * 16) + d).

(** [decode_one] on the characters of a sequence of groups. *)
Lemma decode_loop_digits T (ds rest : list Z) last res :
  (∀ d, d ∈ ds → 0 ≤ d < 16) →
  (length ds ≤ last)%nat →
  decode_loop T (length ds) (((λ d, digits !!! Z.to_nat d) <$> ds) ++ rest)
    last res
  = Returns (foldl (decode_step T) res ds, rest, (last - length ds)%nat).
Proof.
  revert last res. induction ds as [|d ds IH]; intros last res Hds Hlast.
  { simpl. by rewrite Nat.sub_0_r. }
  simpl in *. rewrite decide_False by lia.
  rewrite digits_value by (apply Hds; by left). simpl.
  rewrite IH; [|intros; apply Hds; by right|lia].
  by replace (last - 1 - length ds)%nat with (last - S (length ds))%nat by lia.
Qed.

Lemma hex_digit_cases c :
  is_hex_digit c = true →
  hex_char_to_int c = Returns (digit_value c) ∧
  0 ≤ digit_value c < 16 ∧
  digits !!! Z.to_nat (digit_value c) = toupper c.
Proof.
  unfold is_hex_digit. intros Hc%bool_decide_eq_true.
  assert (0 ≤ digit_value c < 16) as Hd
    by (unfold digit_value; repeat case_decide; lia).
  split; [|split; [done|]].
  - unfold hex_char_to_int, digit_value.
    repeat case_decide; try lia; f_equal; lia.
  - apply sixteen_cases in Hd. revert Hd. unfold digit_value, toupper.
    repeat case_decide; try lia; intros Hd;
      repeat (destruct Hd as [Hd|Hd];
              [first [lia | rewrite Hd; simpl; lia]|]);
      first [lia | rewrite Hd; simpl; lia].
Qed.

(** The value that [decode_one] reads. *)
Lemma decode_loop_value T i first res r first' last' :
  decode_loop T i first (length first) res = Returns (r, first', last') →
  r = foldl (decode_step T) res
        ((λ c, digit_value (to_char c)) <$> take i first).
Proof.
  revert first res. induction i as [|i IH]; intros first res; simpl.
  { by intros [= <- _ _]. }
  destruct first as [|c first]; [done|]. simpl.
  destruct (is_hex_digit_element c) eqn:Hc.
  - destruct (hex_digit_cases (to_char c) Hc) as (-> & _ & _). simpl.
    rewrite Nat.sub_0_r. apply IH.
  - by rewrite (hex_char_to_int_other c Hc).
Qed.

(** *** The integer and character types *)

Section modular.
Variables (n : positive) (signed : bool).

Lemma convert_mod x : convert (Integral n signed) x `mod` modulus (Integral n signed) = x `mod` modulus (Integral n signed).
Proof.
  unfold convert, modulus. simpl. destruct signed.
  - rewrite Zminus_mod_idemp_l. f_equal. lia.
  - apply Z.mod_mod. pose proof (modulus_pos (Integral n signed)) as Hp.
    unfold modulus in Hp. simpl in Hp. lia.
Qed.

Lemma convert_congr x y :
  x `mod` modulus (Integral n signed) = y `mod` modulus (Integral n signed) → convert (Integral n signed) x = convert (Integral n signed) y.
Proof.
  unfold convert, modulus. simpl. intros Hxy. destruct signed.
  - f_equal.
    rewrite <- (Zplus_mod_idemp_l x), <- (Zplus_mod_idemp_l y).
    by rewrite Hxy.
  - done.
Qed.

Lemma convert_mod_pow16 (i : nat) x :
  (i ≤ unit_size (Integral n signed))%nat →
  convert (Integral n signed) x `mod` 16 ^ Z.of_nat i = x `mod` 16 ^ Z.of_nat i.
Proof. intros Hi. apply (mod_pow16_modulus (Integral n signed)); [done|]. apply convert_mod. Qed.

(** The groups depend on the lowest [4 * i] bits only. *)
Lemma nibbles_congr i x y :
  (i ≤ unit_size (Integral n signed))%nat →
  x `mod` 16 ^ Z.of_nat i = y `mod` 16 ^ Z.of_nat i →
  nibbles (Integral n signed) i x = nibbles (Integral n signed) i y.
Proof.
  revert x y. induction i as [|i IH]; intros x y Hi Hxy; [done|].
  cbn [nibbles]. rewrite !mod_pow16_succ in Hxy.
  pose proof (mod_16_bound x). pose proof (mod_16_bound y).
  assert (0 < 16 ^ Z.of_nat i) as Hpos by (apply Z.pow_pos_nonneg; lia).
  pose proof (Z.mod_pos_bound (x `div` 16) _ Hpos).
  pose proof (Z.mod_pos_bound (y `div` 16) _ Hpos).
  rewrite !land_15, !shiftr_4. f_equal; [|f_equal; lia].
  apply IH; [lia|]. rewrite !convert_mod_pow16 by lia. lia.
Qed.

Lemma positional_nibbles i x :
  (i ≤ unit_size (Integral n signed))%nat →
  positional 0 (nibbles (Integral n signed) i x) = x `mod` 16 ^ Z.of_nat i.
Proof.
  revert x. induction i as [|i IH]; intros x Hi.
  { simpl. by rewrite Z.mod_1_r. }
  cbn [nibbles]. unfold positional in *. rewrite foldl_app. cbn [foldl].
  rewrite IH by lia. rewrite mod_pow16_succ, land_15, shiftr_4.
  rewrite convert_mod_pow16 by lia. lia.
Qed.

Lemma nibbles_positional X (ds : list Z) :
  (length ds ≤ unit_size (Integral n signed))%nat →
  (∀ d, d ∈ ds → 0 ≤ d < 16) →
  nibbles (Integral n signed) (length ds) (positional X ds) = ds.
Proof.
  induction ds as [|d ds IH] using rev_ind; intros Hlen Hds; [done|].
  rewrite length_app in *. cbn [length] in *.
  replace (length ds + 1)%nat with (S (length ds)) by lia.
  unfold positional in *. rewrite foldl_app. cbn [foldl nibbles].
  rewrite land_15, shiftr_4.
  assert (0 ≤ d < 16) as Hd by (apply Hds, elem_of_app; right; by left).
  assert (∀ N, (N * 16 + d) `div` 16 = N) as Hdiv
    by (intros N; symmetry; apply (Z.div_unique_pos _ _ _ d); lia).
  assert (∀ N, (N * 16 + d) `mod` 16 = d) as Hmod
    by (intros N; symmetry; apply (Z.mod_unique_pos _ _ N d); lia).
  rewrite Hdiv, Hmod. f_equal.
  etrans; [|apply IH; [lia|intros; apply Hds, elem_of_app; by left]].
  apply nibbles_congr; [lia|]. by rewrite convert_mod_pow16 by lia.
Qed.

(** The runs of the loop of [decode_one] add up the number that the digits
    stand for. *)
Lemma decode_steps_positional X (ds : list Z) :
  foldl (decode_step (Integral n signed)) (convert (Integral n signed) X) ds = convert (Integral n signed) (positional X ds).
Proof.
  revert X. induction ds as [|d ds IH]; intros X; [done|].
  cbn [foldl]. unfold positional. cbn [foldl]. fold (positional (X * 16 + d) ds).
  rewrite <- IH. f_equal. unfold decode_step.
  apply convert_congr. rewrite <- Zplus_mod_idemp_l, convert_mod.
  rewrite Zplus_mod_idemp_l. rewrite <- Zplus_mod_idemp_l.
  rewrite <- Zmult_mod_idemp_l, convert_mod, Zmult_mod_idemp_l.
  by rewrite Zplus_mod_idemp_l.
Qed.

Lemma decode_one_encoding_modular v rest last out :
  (unit_size (Integral n signed) ≤ last)%nat →
  decode_one (Integral n signed) (encoding (Integral n signed) v ++ rest) last out
  = Returns (rest, (last - unit_size (Integral n signed))%nat, out ++ [convert (Integral n signed) v]).
Proof.
  intros Hlast. unfold decode_one, encoding.
  pose proof (decode_loop_digits (Integral n signed) (nibbles (Integral n signed) (unit_size (Integral n signed)) v) rest last 0)
    as Hloop.
  rewrite length_nibbles in Hloop.
  rewrite Hloop; [|apply nibbles_bound|done]. cbn [mbind outcome_bind mret outcome_ret].
  do 4 f_equal. rewrite <- (convert_0 (Integral n signed)) at 1.
  rewrite decode_steps_positional, positional_nibbles by done.
  apply convert_congr. rewrite <- modulus_unit.
  apply Z.mod_mod. pose proof (modulus_pos (Integral n signed)). lia.
Qed.

Lemma encoding_decoded (cs : list Z) :
  length cs = unit_size (Integral n signed) →
  forallb is_hex_digit_element cs = true →
  encoding (Integral n signed)
    (foldl (decode_step (Integral n signed)) 0 ((λ c, digit_value (to_char c)) <$> cs))
  = (λ c, toupper (to_char c)) <$> cs.
Proof.
  intros Hlen Hcs. unfold encoding.
  rewrite forallb_is_hex_digit in Hcs.
  rewrite <- (convert_0 (Integral n signed)) at 1. rewrite decode_steps_positional.
  rewrite (nibbles_congr _ _
             (positional 0 ((λ c, digit_value (to_char c)) <$> cs)))
    by (by rewrite ?convert_mod_pow16).
  rewrite <- Hlen, <- (length_fmap (λ c, digit_value (to_char c))).
  rewrite nibbles_positional.
  - rewrite <- list_fmap_compose. apply list_fmap_ext.
    intros _ c Hc%list_elem_of_lookup_2. simpl.
    by apply hex_digit_cases, Hcs.
  - rewrite length_fmap. lia.
  - intros d (c & -> & Hc)%list_elem_of_fmap.
    by apply hex_digit_cases, Hcs.
Qed.

Lemma unhex_loop_hex_back fuel first out out' :
  unhex_loop (Integral n signed) fuel first (length first) out = Returns out' →
  ∃ new, out' = out ++ new ∧
         hex (Integral n signed) new = (λ c, toupper (to_char c)) <$> first.
Proof.
  pose proof (unit_size_pos (Integral n signed)) as Hu.
  revert first out. induction fuel as [|fuel IH]; intros first out;
    cbn [unhex_loop].
  { case_decide; [done|]. intros [= <-]. exists [].
    destruct first; [|done]. by rewrite app_nil_r. }
  case_decide as Hlast.
  2:{ intros [= <-]. exists []. destruct first; [|done].
      by rewrite app_nil_r. }
  unfold decode_one.
  pose proof (decode_loop_range (Integral n signed) (unit_size (Integral n signed)) first 0) as Hrange.
  pose proof (decode_loop_value (Integral n signed) (unit_size (Integral n signed)) first 0) as Hvalue.
  destruct (decode_loop _ _ _ _ _) as [[[r first'] last']|[]|];
    cbn [mbind outcome_bind mret outcome_ret] in *; try done.
  destruct Hrange as (Hle & -> & -> & Htake).
  specialize (Hvalue _ _ _ eq_refl). intros Hrest.
  apply IH in Hrest as (new & -> & Hhex).
  exists (r :: new). split; [by rewrite <- app_assoc|].
  rewrite hex_cons, Hhex, Hvalue.
  rewrite encoding_decoded by (rewrite ?length_take; first [done|lia]).
  by rewrite <- fmap_app, take_drop.
Qed.

End modular.

(** *** [bool] *)

Lemma decode_one_encoding_bool v rest last out :
  (unit_size Bool ≤ last)%nat →
  decode_one Bool (encoding Bool v ++ rest) last out
  = Returns (rest, (last - unit_size Bool)%nat, out ++ [convert Bool v]).
Proof.
  intros Hlast. unfold decode_one, encoding.
  pose proof (decode_loop_digits Bool (nibbles Bool (unit_size Bool) v) rest
                last 0) as Hloop.
  rewrite length_nibbles in Hloop.
  rewrite Hloop; [|apply nibbles_bound|done].
  cbn [mbind outcome_bind mret outcome_ret].
  do 4 f_equal. change (unit_size Bool) with 2%nat.
  cbn [nibbles app foldl]. unfold decode_step. rewrite !land_15, !shiftr_4.
  pose proof (mod_16_bound v). pose proof (Z.div_mod v 16 ltac:(lia)).
  unfold convert.
  destruct (decide (v `div` 16 ≠ 0)) as [Hdiv|Hdiv].
  - change (1 `mod` 16) with 1. repeat case_decide; lia.
  - change (0 `mod` 16) with 0. repeat case_decide; lia.
Qed.

Lemma decode_one_encoding T v rest last out :
  (unit_size T ≤ last)%nat →
  decode_one T (encoding T v ++ rest) last out
  = Returns (rest, (last - unit_size T)%nat, out ++ [convert T v]).
Proof.
  destruct T as [n signed|];
    [apply decode_one_encoding_modular|apply decode_one_encoding_bool].
Qed.

(** *** Every integral type *)

Lemma unhex_loop_hex T fuel input out :
  (length input ≤ fuel)%nat →
  unhex_loop T fuel (hex T input) (length (hex T input)) out
  = Returns (out ++ (convert T <$> input)).
Proof.
  revert fuel out. induction input as [|v input IH]; intros fuel out Hfuel.
  { destruct fuel; simpl; by rewrite app_nil_r. }
  destruct fuel as [|fuel]; [simpl in Hfuel; lia|].
  rewrite hex_cons, length_app, length_encoding.
  pose proof (unit_size_pos T). cbn [unhex_loop]. rewrite decide_True by lia.
  rewrite decode_one_encoding by lia. cbn [mbind outcome_bind].
  replace (unit_size T + length (hex T input) - unit_size T)%nat
    with (length (hex T input)) by lia.
  rewrite IH by (simpl in Hfuel; lia). by rewrite <- app_assoc.
Qed.

Lemma unhex_hex_convert T input :
  unhex T (hex T input) = Returns (convert T <$> input).
Proof.
  unfold unhex. apply (unhex_loop_hex T _ input []).
  rewrite length_hex. pose proof (unit_size_pos T). nia.
Qed.

(** X1: decoding what [hex] wrote gives the input back, for an input of
    values of the type [T]. *)
Theorem unhex_hex (T : integral) (input : list Z) :
  Forall (value_of T) input → unhex T (hex T input) = Returns input.
Proof.
  intros Hin. rewrite unhex_hex_convert. f_equal.
  induction Hin as [|v input Hv _ IH]; [done|].
  by rewrite fmap_cons, convert_value, IH.
Qed.

(** X2: [hex] writes [2 * sizeof (T)] characters for every element of the
    input, each of them a digit or a capital letter from A to F, whatever the
    input is. *)
Theorem hex_output (T : integral) (input : list Z) :
  length (hex T input) = (unit_size T * length input)%nat ∧
  ∀ c, c ∈ hex T input → is_upper_hex_digit c = true.
Proof. split; [apply length_hex|apply hex_upper]. Qed.

(** X3: for an integer or character type, encoding what [unhex] read gives
    the input back, each element as the [char] that [hex_char_to_int] took it
    for, and its letters made capital letters. (Not so for [bool]: see
    [hex_unhex_bool] below.) *)
Theorem hex_unhex (n : positive) (signed : bool) (input out : list Z) :
  unhex (Integral n signed) input = Returns out →
  hex (Integral n signed) out = (λ c, toupper (to_char c)) <$> input.
Proof.
  unfold unhex. intros (new & -> & Hhex)%unhex_loop_hex_back. done.
Qed.

Lemma unhex_loop_returns T fuel first out out' :
  unhex_loop T fuel first (length first) out = Returns out' →
  ∃ new, out' = out ++ new ∧ Forall (value_of T) new ∧
         length first = (unit_size T * length new)%nat.
Proof.
  pose proof (unit_size_pos T) as Hu.
  revert first out. induction fuel as [|fuel IH]; intros first out;
    cbn [unhex_loop].
  { case_decide; [done|]. intros [= <-]. exists [].
    destruct first; [|done]. rewrite app_nil_r. simpl. split; [done|].
    split; [done|lia]. }
  case_decide as Hlast.
  2:{ intros [= <-]. exists []. destruct first; [|done].
      rewrite app_nil_r. simpl. split; [done|]. split; [done|lia]. }
  unfold decode_one.
  pose proof (decode_loop_range T (unit_size T) first 0) as Hrange.
  pose proof (decode_loop_value T (unit_size T) first 0) as Hvalue.
  destruct (decode_loop _ _ _ _ _) as [[[r first'] last']|[]|];
    cbn [mbind outcome_bind mret outcome_ret] in *; try done.
  destruct Hrange as (Hle & -> & -> & Htake).
  specialize (Hvalue _ _ _ eq_refl). intros Hrest.
  apply IH in Hrest as (new & -> & Hnew & Hlen).
  exists (r :: new). split; [by rewrite <- app_assoc|]. split.
  - constructor; [|done]. subst r.
    destruct (unit_size T) as [|u]; [lia|].
    destruct first as [|c first]; [simpl in Hle; lia|].
    cbn [take fmap list_fmap]. generalize (digit_value (to_char c)).
    generalize ((λ c0, digit_value (to_char c0)) <$> take u first).
    intros ds. generalize 0.
    induction ds as [|d ds IHds] using rev_ind; intros res d0.
    + apply value_of_convert.
    + rewrite app_comm_cons, foldl_app. apply value_of_convert.
  - rewrite length_drop in Hlen. simpl. lia.
Qed.

(** X4: what [unhex] reads are values of the type [T], one for every
    [2 * sizeof (T)] characters of the input. *)
Theorem unhex_output (T : integral) (input out : list Z) :
  unhex T input = Returns out →
  length out = (length input `div` unit_size T)%nat ∧
  Forall (value_of T) out.
Proof.
  unfold unhex. intros (new & -> & Hnew & Hlen)%unhex_loop_returns.
  split; [|done]. simpl.
  rewrite Hlen. rewrite Nat.mul_comm, Nat.div_mul; [done|].
  pose proof (unit_size_pos T). lia.
Qed.

Lemma hex_char_to_int_toupper c :
  hex_char_to_int (to_char (toupper c)) = hex_char_to_int (to_char c).
Proof.
  unfold toupper. case_decide; [|done].
  rewrite !to_char_char by lia. unfold hex_char_to_int.
  repeat case_decide; try lia; try done; f_equal; lia.
Qed.

Lemma decode_loop_toupper T i (first : list Z) last res :
  decode_loop T i (toupper <$> first) last res
  = match decode_loop T i first last res with
    | Returns (r, first', last') => Returns (r, toupper <$> first', last')
    | Throws e => Throws e
    | Stuck => Stuck
    end.
Proof.
  revert first last res. induction i as [|i IH]; intros first last res; simpl;
    [done|].
  case_decide; [done|]. destruct first as [|c first]; [done|]. simpl.
  rewrite hex_char_to_int_toupper.
  destruct (hex_char_to_int (to_char c)) as [d|e|]; simpl; [|done|done].
  apply IH.
Qed.

Lemma unhex_loop_toupper T fuel (first : list Z) last out :
  unhex_loop T fuel (toupper <$> first) last out
  = unhex_loop T fuel first last out.
Proof.
  revert first last out. induction fuel as [|fuel IH]; intros first last out;
    simpl; [done|].
  case_decide; [|done]. unfold decode_one. rewrite decode_loop_toupper.
  destruct (decode_loop _ _ _ _ _) as [[[r first'] last']|e|]; simpl;
    [|done|done].
  apply IH.
Qed.

(** X5: [unhex] does not tell a small letter from a capital one: it reads
    the same from an input and from the input in capital letters, and fails
    on both in the same way. *)
Theorem unhex_toupper (T : integral) (input : list Z) :
  unhex T (toupper <$> input) = unhex T input.
Proof. unfold unhex. rewrite length_fmap. apply unhex_loop_toupper. Qed.

Lemma hex_ptr_loop_spec T (a b : list Z) out :
  0 ∉ a → hex_ptr_loop T (a ++ 0 :: b) out = Returns (out ++ hex T a).
Proof.
  revert out. induction a as [|v a IH]; intros out Ha; simpl.
  { by rewrite app_nil_r. }
  apply not_elem_of_cons in Ha as [Hv Ha].
  rewrite decide_True by done. rewrite IH by done.
  by rewrite encode_one_spec, hex_cons, <- app_assoc.
Qed.

(** X6: [hex ( ptr, out )] encodes what is before the first zero, as
    [hex ( first, last, out )] encodes a range, and nothing of what comes
    after it. *)
Theorem hex_ptr_until_zero (T : integral) (a b : list Z) :
  0 ∉ a →
  hex_ptr T a = Returns (hex T a) ∧
  hex_ptr T (a ++ 0 :: b) = Returns (hex T a).
Proof.
  intros Ha. unfold hex_ptr. split.
  - by rewrite (hex_ptr_loop_spec T a [] []).
  - rewrite <- app_assoc. simpl. by rewrite (hex_ptr_loop_spec T a _ []).
Qed.


(** X7: [hex] encodes the elements one by one. *)
Theorem hex_concatenation (T : integral) (a b : list Z) :
  hex T (a ++ b) = hex T a ++ hex T b.
Proof. apply hex_app. Qed.

Lemma unhex_loop_fuel T f1 f2 first out :
  (length first ≤ f1)%nat → (length first ≤ f2)%nat →
  unhex_loop T f1 first (length first) out
  = unhex_loop T f2 first (length first) out.
Proof.
  pose proof (unit_size_pos T) as Hu.
  revert f2 first out. induction f1 as [|f1 IH]; intros f2 first out H1 H2.
  { destruct first; [|simpl in H1; lia]. by destruct f2. }
  destruct f2 as [|f2].
  { destruct first; [|simpl in H2; lia]. done. }
  simpl. case_decide; [|done]. unfold decode_one.
  pose proof (decode_loop_range T (unit_size T) first 0) as Hrange.
  destruct (decode_loop _ _ _ _ _) as [[[r first'] last']|e|]; simpl;
    [|done|done].
  destruct Hrange as (Hle & -> & -> & _).
  apply IH; rewrite length_drop; lia.
Qed.

Lemma decode_loop_more T i first last res r first' last' (b : list Z) k :
  decode_loop T i first last res = Returns (r, first', last') →
  decode_loop T i (first ++ b) (last + k) res
  = Returns (r, first' ++ b, (last' + k)%nat).
Proof.
  revert first last res. induction i as [|i IH]; intros first last res; simpl.
  { by intros [= -> -> ->]. }
  case_decide; [done|]. rewrite decide_False by lia.
  destruct first as [|c first]; [done|]. simpl.
  destruct (hex_char_to_int (to_char c)) as [d|e|]; simpl; [|done|done].
  intros Hloop%IH. rewrite <- Hloop. f_equal. lia.
Qed.

Lemma unhex_loop_app T fuel fuel' (a b : list Z) out x :
  unhex_loop T fuel a (length a) out = Returns x →
  (length (a ++ b) ≤ fuel')%nat →
  unhex_loop T fuel' (a ++ b) (length (a ++ b)) out
  = unhex_loop T fuel' b (length b) x.
Proof.
  pose proof (unit_size_pos T) as Hu.
  revert fuel' a out.
  induction fuel as [|fuel IH]; intros fuel' a out Ha Hfuel'.
  { simpl in Ha. case_decide; [done|]. destruct a; [|done].
    by injection Ha as ->. }
  simpl in Ha. case_decide as Hlast.
  2:{ destruct a; [|done]. by injection Ha as ->. }
  unfold decode_one in Ha.
  pose proof (decode_loop_range T (unit_size T) a 0) as Hrange.
  destruct (decode_loop T (unit_size T) a (length a) 0)
    as [[[r first'] last']|e|] eqn:Hloop; simpl in Ha; [|done|done].
  destruct Hrange as (Hle & -> & -> & _).
  rewrite length_app in *.
  destruct fuel' as [|fuel']; [lia|].
  rewrite (unhex_loop_fuel T (S fuel') fuel' b x) by lia.
  cbn [unhex_loop]. rewrite decide_True by lia. unfold decode_one.
  rewrite (decode_loop_more _ _ _ _ _ _ _ _ b (length b) Hloop). simpl.
  rewrite <- length_app. apply (IH fuel' _ _ Ha).
  rewrite length_app, length_drop. lia.
Qed.

Lemma unhex_loop_out T fuel first last (x out : list Z) :
  unhex_loop T fuel first last (x ++ out)
  = match unhex_loop T fuel first last out with
    | Returns y => Returns (x ++ y)
    | Throws e => Throws e
    | Stuck => Stuck
    end.
Proof.
  revert first last out. induction fuel as [|fuel IH]; intros first last out;
    simpl.
  { by case_decide. }
  case_decide; [|done]. unfold decode_one.
  destruct (decode_loop _ _ _ _ _) as [[[r first'] last']|e|]; simpl;
    [|done|done].
  rewrite <- app_assoc. apply IH.
Qed.

(** X8: [unhex] reads the units one by one: after an input that it reads,
    it goes on as on what follows. *)
Theorem unhex_concatenation (T : integral) (a b x : list Z) :
  unhex T a = Returns x →
  unhex T (a ++ b)
  = match unhex T b with
    | Returns y => Returns (x ++ y)
    | Throws e => Throws e
    | Stuck => Stuck
    end.
Proof.
  unfold unhex. intros Ha.
  rewrite (unhex_loop_app T _ _ a b [] x Ha) by done.
  rewrite (unhex_loop_fuel T _ (length b)) by (rewrite ?length_app; lia).
  rewrite <- (app_nil_r x) at 1. apply unhex_loop_out.
Qed.


Lemma decode_loop_prefix T i first res r first' last' (b : list Z) last2 :
  decode_loop T i first (length first) res = Returns (r, first', last') →
  (i ≤ last2)%nat →
  decode_loop T i (first ++ b) last2 res
  = Returns (r, first' ++ b, (last2 - i)%nat).
Proof.
  revert first res last2. induction i as [|i IH]; intros first res last2; simpl.
  { intros [= -> -> _] _. by rewrite Nat.sub_0_r. }
  destruct first as [|c first]; [done|]. simpl.
  intros Hloop Hlast. rewrite decide_False by lia.
  destruct (hex_char_to_int (to_char c)) as [d|e|]; simpl in *; [|done|done].
  rewrite Nat.sub_0_r in Hloop.
  rewrite (IH _ _ (last2 - 1)%nat Hloop) by lia.
  by replace (last2 - 1 - i)%nat with (last2 - S i)%nat by lia.
Qed.

Lemma unhex_ptr_loop_unhex T fuel (s : list Z) out out' :
  unhex_loop T fuel s (length s) out = Returns out' →
  unhex_ptr_loop T fuel (s ++ [0]) out = Returns out'.
Proof.
  pose proof (unit_size_pos T) as Hu.
  revert s out. induction fuel as [|fuel IH]; intros s out.
  { destruct s; [done|]. intros Hs. by simpl in Hs. }
  destruct s as [|c s]; [done|].
  cbn [unhex_loop app unhex_ptr_loop].
  destruct (decide (length (c :: s) ≠ 0%nat)) as [_|Hn]; [|simpl in Hn; lia].
  unfold decode_one.
  pose proof (decode_loop_range T (unit_size T) (c :: s) 0) as Hrange.
  destruct (decode_loop T (unit_size T) (c :: s) (length (c :: s)) 0)
    as [[[r first'] last']|e|] eqn:Hloop; simpl; [|done|done].
  destruct Hrange as (Hle & -> & -> & Htake).
  assert (c ≠ 0) as Hc.
  { destruct (unit_size T) as [|u]; [lia|]. simpl in Htake.
    apply andb_true_iff in Htake as [Hc _]. intros ->. by vm_compute in Hc. }
  rewrite decide_True by done.
  pose proof (decode_loop_prefix _ _ _ _ _ _ _ [0] (unit_size T) Hloop
                ltac:(done)) as Hptr.
  cbn [app] in Hptr. rewrite Hptr. simpl. apply IH.
Qed.

(** X9: where [unhex ( first, last, out )] reads an input, [unhex ( ptr,
    out )] reads the same from it. *)
Theorem unhex_ptr_agrees (T : integral) (input out : list Z) :
  unhex T input = Returns out → unhex_ptr T input = Returns out.
Proof. apply unhex_ptr_loop_unhex. Qed.

End hex_codec.

(** ** [none_of] and [none_of_equal] *)

Section none_of_proofs.
Context {A : Type} `{EqDecision A}.
Implicit Types (l : list A) (p : A → bool) (r : range A).

Lemma none_of_from l p (fuel k : nat) :
  (k ≤ length l)%nat → (length l - k ≤ fuel)%nat →
  while fuel (λ first,
    if decide (first ≠ distance (range_of l)) then
      x ← deref (range_of l) first;
      if p x then mret (Break false)
      else mret (Continue (first + 1))
    else mret (Break true)) (Z.of_nat k)
  = Ok (bool_decide (Forall (λ x, p x = false) (drop k l))).
Proof.
  revert k. induction fuel as [|fuel IH]; intros k Hk Hfuel.
  - assert (k = length l) as -> by lia. simpl. unfold len.
    rewrite decide_False by lia. simpl.
    by rewrite drop_all, bool_decide_eq_true_2.
  - simpl. unfold len. case_decide as Hend; simpl.
    2:{ assert (k = length l) as -> by lia.
        by rewrite drop_all, bool_decide_eq_true_2. }
    destruct (lookup_lt_is_Some_2 l k ltac:(lia)) as [x Hx].
    unfold at_, zget. rewrite decide_True by lia.
    rewrite Nat2Z.id, Hx. simpl.
    rewrite (drop_S l x k Hx).
    destruct (p x) eqn:Hp; simpl.
    + rewrite bool_decide_eq_false_2; [done|].
      intros Hall%Forall_cons_1. destruct Hall. congruence.
    + replace (Z.of_nat k + 1) with (Z.of_nat (S k)) by lia.
      rewrite IH by lia. f_equal. apply bool_decide_ext.
      rewrite Forall_cons. tauto.
Qed.

(** X10: [none_of] on a sequence returns, and returns [true] exactly if the
    predicate holds for no element; on the empty sequence it returns
    [true]. *)
Theorem none_of_correct (fuel : nat) l p :
  (length l ≤ fuel)%nat →
  none_of fuel (range_of l) p
  = Ok (bool_decide (Forall (λ x, p x = false) l)).
Proof.
  intros Hfuel. apply (none_of_from l p fuel 0); lia.
Qed.

(** X11: [none_of] stops at the first element that the predicate holds for:
    it returns [false] whatever the reads after that element would give,
    and wherever the range ends after it. *)
Theorem none_of_first_match (fuel : nat) r p (k : nat) (x : A) :
  (∀ i : nat, (i < k)%nat → ∃ y, deref r (Z.of_nat i) = Ok y ∧ p y = false) →
  deref r (Z.of_nat k) = Ok x →
  p x = true →
  Z.of_nat k < distance r →
  (k ≤ fuel)%nat →
  none_of fuel r p = Ok false.
Proof.
  intros Hbefore Hx Hp Hlast Hfuel. unfold none_of.
  assert (∀ i : nat, (i ≤ k)%nat → Z.of_nat i ≠ distance r) as Hdist
    by (intros; lia).
  assert (∀ (f j : nat), (j ≤ k)%nat → (k - j ≤ f)%nat →
            while f (λ first,
              if decide (first ≠ distance r) then
                x ← deref r first;
                if p x then mret (Break false)
                else mret (Continue (first + 1))
              else mret (Break true)) (Z.of_nat j) = Ok false) as Hloop.
  { induction f as [|f IH]; intros j Hj Hf.
    - assert (j = k) as -> by lia. simpl.
      rewrite decide_True by (by apply Hdist).
      rewrite Hx. simpl. by rewrite Hp.
    - simpl. rewrite decide_True by (apply Hdist; lia).
      destruct (decide (j = k)) as [->|Hne].
      + rewrite Hx. simpl. by rewrite Hp.
      + destruct (Hbefore j ltac:(lia)) as (y & Hy & Hpy).
        rewrite Hy. simpl. rewrite Hpy. simpl.
        replace (Z.of_nat j + 1) with (Z.of_nat (S j)) by lia.
        apply IH; lia. }
  apply (Hloop fuel 0%nat); lia.
Qed.

Lemma none_of_equal_none_of (fuel : nat) r (val : A) :
  none_of_equal fuel r val = none_of fuel r (λ x, bool_decide (val = x)).
Proof.
  unfold none_of_equal, none_of. generalize 0.
  induction fuel as [|fuel IH]; intros first; simpl.
  - case_decide; [|done]. destruct (deref r first) as [x| | |]; simpl; try done.
    destruct (decide (val = x));
      [by rewrite bool_decide_eq_true_2|by rewrite bool_decide_eq_false_2].
  - case_decide; [|done]. destruct (deref r first) as [x| | |]; simpl; try done.
    destruct (decide (val = x)); [by rewrite bool_decide_eq_true_2|].
    rewrite bool_decide_eq_false_2 by done. simpl. apply IH.
Qed.

(** X12: [none_of_equal] on a sequence returns [true] exactly if the value
    is no element of it, and it is [none_of] with the predicate "is equal to
    the value". *)
Theorem none_of_equal_correct (fuel : nat) l (val : A) :
  (length l ≤ fuel)%nat →
  none_of_equal fuel (range_of l) val = Ok (bool_decide (val ∉ l)) ∧
  none_of_equal fuel (range_of l) val
  = none_of fuel (range_of l) (λ x, bool_decide (val = x)).
Proof.
  intros Hfuel. rewrite none_of_equal_none_of. split; [|done].
  etrans; [apply (none_of_from l _ fuel 0); lia|].
  f_equal. apply bool_decide_ext. rewrite drop_0, Forall_forall. split.
  - intros Hall Hin. specialize (Hall val Hin).
    by rewrite bool_decide_eq_false in Hall.
  - intros Hnot x Hin. apply bool_decide_eq_false. by intros <-.
Qed.

End none_of_proofs.

(** ** The steps of the searches *)

Section search_steps.
Context {A : Type} `{EqDecision A} {T : Type} `{SkipTable A T}
  `{!SkipTableLaws A T}.
Implicit Types (pat corpus : list A).

(** X13: a step of the search of Boyer-Moore that does not return moves the
    position forward by the length of the pattern at most, and over no
    position at which the corpus reads as the pattern. *)
Theorem bm_step_passes_no_occurrence (fuel : nat) pat corpus bm curPos curPos' :
  len pat < INT_MAX →
  len corpus ≤ PTRDIFF_MAX →
  boyer_moore.new (T := T) fuel pat = Ok bm →
  0 ≤ curPos →
  boyer_moore.do_search_body fuel bm (range_of corpus) curPos
    = Ok (Continue curPos') →
  curPos' ≤ curPos + len pat ∧
  ∀ q, occ pat corpus q → curPos ≤ q → curPos' ≤ q.
Proof.
  intros Hpat Hn Hnew HcurPos. pose proof (len_nonneg pat).
  pose proof (sat_False_Ok _ _ _
    (bm_new_sat False fuel pat Hpat ltac:(done)) Hnew)
    as (sk & suf & -> & _ & Hsk & Hsuf).
  unfold boyer_moore.do_search_body.
  cbn [boyer_moore.k_pattern_length distance range_of]. unwrap.
  case_decide as Hcond; [|done].
  destruct (decide (len pat = 0)) as [Hm0|Hm0].
  { unfold boyer_moore.match_here. simpl.
    destruct pat; [|unfold len in Hm0; simpl in Hm0; lia].
    by destruct fuel; simpl. }
  pose proof (bm_match_here_sat False fuel pat sk suf corpus curPos
    ltac:(lia) Hn ltac:(lia) ltac:(done)) as Hhere.
  destruct (boyer_moore.match_here _ _ _ _) as [[|j]| | |]; simpl in *;
    try done.
  destruct Hhere as (Hj & Hmatched & Hmismatch).
  destruct (zget_in_range corpus (curPos + (j - 1))) as [c Hc]; [lia|].
  destruct (Hsuf ltac:(lia)) as [_ Hentries].
  destruct (Hentries j) as (v & Hv & Hvrange & Hvmin); [lia|].
  rewrite (bm_skip_forward_eq pat sk suf _ curPos j c v);
    [|done|done|done| |done|done].
  2:{ simpl. unfold at_. by rewrite Hc. }
  simpl. intros [= <-].
  destruct (bm_shift_safe pat sk suf corpus curPos j c v) as [Hshift Hsafe];
    [done..|]. split; [lia|done].
Qed.

(** X14: a step of the search of Boyer-Moore-Horspool that does not return
    moves the position forward by the length of the pattern at most, and
    over no position at which the corpus reads as the pattern. *)
Theorem bmh_step_passes_no_occurrence (fuel : nat) pat corpus bmh curPos
    curPos' :
  len pat < INT_MAX →
  len corpus ≤ PTRDIFF_MAX →
  boyer_moore_horspool.new (T := T) fuel pat = Ok bmh →
  0 ≤ curPos →
  boyer_moore_horspool.do_search_body fuel bmh (range_of corpus) curPos
    = Ok (Continue curPos') →
  curPos' ≤ curPos + len pat ∧
  ∀ q, occ pat corpus q → curPos ≤ q → curPos' ≤ q.
Proof.
  intros Hpat Hn Hnew HcurPos. pose proof (len_nonneg pat).
  pose proof (sat_False_Ok _ _ _
    (bmh_new_sat False fuel pat Hpat ltac:(done)) Hnew)
    as (sk & -> & _ & Hsk).
  unfold boyer_moore_horspool.do_search_body.
  cbn [boyer_moore_horspool.k_pattern_length boyer_moore_horspool.skip_
       distance deref range_of]. unwrap.
  case_decide as Hcond; [|done].
  destruct (decide (len pat = 0)) as [Hm0|Hm0].
  { unfold boyer_moore_horspool.match_here. simpl.
    destruct pat; [|unfold len in Hm0; simpl in Hm0; lia].
    by destruct fuel; simpl. }
  pose proof (bmh_match_here_sat False fuel pat corpus sk curPos
    ltac:(lia) Hn ltac:(lia) ltac:(done)) as Hhere.
  destruct (boyer_moore_horspool.match_here _ _ _ _) as [[|j]| | |];
    simpl in *; try done.
  unfold at_. unwrap.
  destruct (zget corpus (curPos + (len pat - 1))) as [c|] eqn:Hc; simpl;
    [|done].
  destruct (Hsk ltac:(lia) c) as (Hrange & Hk & Hafter). unwrap.
  intros [= <-]. split; [lia|].
  intros q Hq Hle.
  destruct (decide (curPos + skip_lookup sk c ≤ q)); [done|]. exfalso.
  destruct (decide (q = curPos)) as [->|]; [done|].
  destruct Hq as (_ & _ & Hq).
  apply (Hafter (len pat - 1 - (q - curPos))); [lia|].
  rewrite <- Hq by lia. rewrite <- Hc. f_equal. lia.
Qed.

End search_steps.

Section kmp_steps.
Context {A : Type} `{EqDecision A}.
Implicit Types (pat corpus : list A).

Lemma kmp_step (fuel : nat) pat corpus kmp idx ms idx' ms' :
  len pat < INT_MAX →
  len corpus ≤ PTRDIFF_MAX →
  knuth_morris_pratt.new fuel pat = Ok kmp →
  0 ≤ idx < len pat →
  0 ≤ ms →
  (∀ k, 0 ≤ k < idx → zget pat k = zget corpus (ms + k)) →
  knuth_morris_pratt.do_search_body fuel kmp (range_of corpus)
    (len corpus - len pat) (idx, ms) = Ok (Continue (idx', ms')) →
  ∃ j s, idx ≤ j < len pat ∧
    zget (knuth_morris_pratt.skip_ kmp) j = Some s ∧ -1 ≤ s < j ∧
    (0 < j → lborder pat j s) ∧
    idx' = Z.max s 0 ∧ ms' = ms + (j - s) ∧
    ms + j < len corpus ∧
    (∀ k, 0 ≤ k < j → zget pat k = zget corpus (ms + k)) ∧
    zget pat j ≠ zget corpus (ms + j).
Proof.
  intros Hpat Hn Hnew Hidx Hms Hpre.
  pose proof (sat_False_Ok _ _ _
    (kmp_new_sat False fuel pat Hpat ltac:(done)) Hnew)
    as (skip_ & -> & Hlen & Hsk0 & Hborders).
  unfold knuth_morris_pratt.do_search_body.
  case_decide as Hcond; [|done].
  pose proof (kmp_match_here_sat False fuel pat corpus skip_ idx ms
    Hidx ltac:(lia) Hn ltac:(done)) as Hhere.
  destruct (knuth_morris_pratt.match_here _ _ _ _ _) as [[|j]| | |];
    simpl in *; try done.
  destruct Hhere as (Hj & Hjrest & Hjne).
  destruct (zget_in_range skip_ j) as [s Hs]; [lia|].
  assert (-1 ≤ s < j ∧ (0 < j → lborder pat j s)) as (Hsj & Hsb).
  { destruct (decide (j = 0)) as [->|].
    - rewrite Hsk0 in Hs. injection Hs as <-. lia.
    - destruct (Hborders j) as (b & Hb & Hbb); [lia|].
      rewrite Hb in Hs. injection Hs as <-.
      pose proof Hbb as [[? _] _]. split; [lia|done]. }
  rewrite (kmp_start_again_eq pat skip_ j s ms) by (done || lia). simpl.
  intros [= <- <-]. exists j, s.
  split; [done|]. split; [done|]. split; [done|]. split; [done|].
  split; [done|]. split; [done|]. split; [lia|]. split; [|done].
  intros k Hk. destruct (decide (k < idx)); [apply Hpre|apply Hjrest]; lia.
Qed.

(** X15: a step of the search of Knuth-Morris-Pratt that does not return
    moves the start of the match over no position at which the corpus reads
    as the pattern, and by the length of the pattern at most. *)
Theorem kmp_step_passes_no_occurrence (fuel : nat) pat corpus kmp idx
    match_start idx' match_start' :
  len pat < INT_MAX →
  len corpus ≤ PTRDIFF_MAX →
  knuth_morris_pratt.new fuel pat = Ok kmp →
  0 ≤ idx < len pat →
  0 ≤ match_start →
  (∀ k, 0 ≤ k < idx → zget pat k = zget corpus (match_start + k)) →
  knuth_morris_pratt.do_search_body fuel kmp (range_of corpus)
    (len corpus - len pat) (idx, match_start)
    = Ok (Continue (idx', match_start')) →
  match_start' ≤ match_start + len pat ∧
  ∀ q, occ pat corpus q → match_start ≤ q → match_start' ≤ q.
Proof.
  intros Hpat Hn Hnew Hidx Hms Hpre Hbody.
  destruct (kmp_step _ _ _ _ _ _ _ _ Hpat Hn Hnew Hidx Hms Hpre Hbody)
    as (j & s & Hj & Hs & Hsj & Hsb & -> & -> & Hin & Hjpre & Hjne).
  split; [lia|]. intros q Hq Hle.
  destruct (decide (match_start + (j - s) ≤ q)); [done|]. exfalso.
  destruct Hq as (_ & Hqn & Hq).
  destruct (decide (q = match_start)) as [->|].
  { apply Hjne. symmetry. apply Hq. lia. }
  assert (0 < j) as Hj0 by lia.
  destruct (Hsb Hj0) as [_ Hmax].
  assert (border pat j (j - (q - match_start))) as Hb.
  { split; [lia|]. intros k Hk.
    rewrite <- (Hq k) by lia. rewrite Hjpre by lia. f_equal. lia. }
  apply Hmax in Hb. lia.
Qed.

(** X16: what a step of the loop of Knuth-Morris-Pratt keeps. After a step
    that does not return, [idx] is an index of the pattern and [match_start]
    has moved forward (the two assertions of [do_search] that are commented
    out), [match_start] is not past the end of the corpus, the [idx] symbols
    of the pattern before [idx] are the ones of the corpus from
    [match_start] on, and the position [match_start + idx] that is compared
    next is the position of the mismatch or the one after it, inside of the
    corpus or at its end: the search never steps back in the corpus. *)
Theorem kmp_step_invariants (fuel : nat) pat corpus kmp idx match_start idx'
    match_start' :
  len pat < INT_MAX →
  len corpus ≤ PTRDIFF_MAX →
  knuth_morris_pratt.new fuel pat = Ok kmp →
  0 ≤ idx < len pat →
  0 ≤ match_start →
  (∀ k, 0 ≤ k < idx → zget pat k = zget corpus (match_start + k)) →
  knuth_morris_pratt.do_search_body fuel kmp (range_of corpus)
    (len corpus - len pat) (idx, match_start)
    = Ok (Continue (idx', match_start')) →
  0 ≤ idx' < len pat ∧
  match_start < match_start' ≤ len corpus ∧
  (∀ k, 0 ≤ k < idx' → zget pat k = zget corpus (match_start' + k)) ∧
  match_start + idx ≤ match_start' + idx' ≤ len corpus ∧
  ∃ j, idx ≤ j < len pat ∧
       zget pat j ≠ zget corpus (match_start + j) ∧
       match_start + j ≤ match_start' + idx' ≤ match_start + j + 1.
Proof.
  intros Hpat Hn Hnew Hidx Hms Hpre Hbody.
  destruct (kmp_step _ _ _ _ _ _ _ _ Hpat Hn Hnew Hidx Hms Hpre Hbody)
    as (j & s & Hj & Hs & Hsj & Hsb & -> & -> & Hin & Hjpre & Hjne).
  split; [lia|]. split; [lia|]. split; [|split; [lia|]].
  - intros k Hk. destruct (Hsb ltac:(lia)) as [[_ Hb] _].
    rewrite Hb by lia. rewrite Hjpre by lia. f_equal. lia.
  - exists j. split; [done|]. split; [done|]. lia.
Qed.

End kmp_steps.

Lemma sat_asserts_hold {A} (F : Prop) (r : res A) (Q : A → Prop) :
  sat F r Q → r ≠ AssertFailed.
Proof. by destruct r. Qed.

Section bm_prefix_kmp.
Context {A : Type} `{EqDecision A}.
Implicit Types (pat corpus : list A).

(** X17: the table of [compute_bm_prefix] is the failure table of
    Knuth-Morris-Pratt, one index on: for a pattern that is not empty, its
    entry at [i] is the entry at [i + 1] of the table of [init_skip_table],
    the length of the longest border of the first [i + 1] symbols. *)
Theorem bm_prefix_is_kmp_table (fuel : nat) pat :
  0 < len pat < INT_MAX →
  len pat < Z.of_nat fuel →
  ∃ prefix kmp,
    boyer_moore.compute_bm_prefix fuel pat (replicate (length pat) 0)
      = Ok prefix ∧
    knuth_morris_pratt.new fuel pat = Ok kmp ∧
    len prefix = len pat ∧
    ∀ i, 0 ≤ i < len pat →
      ∃ b, zget prefix i = Some b ∧
           zget (knuth_morris_pratt.skip_ kmp) (i + 1) = Some b ∧
           lborder pat (i + 1) b.
Proof.
  intros Hpat Hfuel.
  destruct (sat_Ok True _ _
    (bm_compute_bm_prefix_sat True fuel pat (replicate (length pat) 0)
       Hpat (λ _, Hfuel) ltac:(unfold len; by rewrite length_replicate)) I)
    as (prefix & Hprefix & Hplen & Hpentries).
  destruct (sat_Ok True _ _
    (kmp_new_sat True fuel pat ltac:(lia) (λ _, Hfuel)) I)
    as (kmp & Hnew & skip_ & -> & Hlen & Hsk0 & Hborders).
  exists prefix, (knuth_morris_pratt.Build pat (len pat) skip_).
  split; [done|]. split; [done|]. split; [done|].
  intros i Hi. destruct (Hpentries i Hi) as (b & Hb & Hbb).
  destruct (Hborders (i + 1)) as (b' & Hb' & Hbb'); [lia|].
  exists b. split; [done|]. split; [|done]. simpl.
  by rewrite (lborder_unique _ _ _ _ Hbb Hbb').
Qed.

End bm_prefix_kmp.

Section bm_assertions.
Context {A : Type} `{EqDecision A} {T : Type} `{SkipTable A T}
  `{!SkipTableLaws A T}.
Implicit Types (pat corpus : list A).

(** X18: the assertions of [compute_bm_prefix] hold in every search of
    Boyer-Moore, whatever the fuel; the first one, that the pattern is not
    empty, is what [create_suffix_table] checks before it calls
    [compute_bm_prefix], which fails it on an empty pattern. *)
Theorem bm_assertions_hold (fuel : nat) pat corpus (prefix : list Z) :
  len pat < INT_MAX →
  len corpus ≤ PTRDIFF_MAX →
  boyer_moore.new (T := T) fuel pat ≠ AssertFailed ∧
  boyer_moore_search (T := T) fuel (range_of corpus) pat ≠ AssertFailed ∧
  boyer_moore.compute_bm_prefix fuel ([] : list A) prefix = AssertFailed.
Proof.
  intros Hpat Hn. split; [|split].
  - eapply sat_asserts_hold, (bm_new_sat False); done.
  - eapply sat_asserts_hold, (boyer_moore_search_sat False); done.
  - done.
Qed.

End bm_assertions.

Section sublists.
Context {A : Type} `{EqDecision A} {T : Type} `{SkipTable A T}
  `{!SkipTableLaws A T}.
Implicit Types (pat corpus : list A).

Lemma occ_split pat corpus (p : Z) :
  occ pat corpus p ↔
  ∃ l1 l2, corpus = l1 ++ pat ++ l2 ∧ len l1 = p.
Proof.
  split.
  - intros (Hp & Hn & Hi).
    exists (take (Z.to_nat p) corpus),
      (drop (length pat) (drop (Z.to_nat p) corpus)).
    unfold len in *. split; [|rewrite length_take; lia].
    rewrite <- (take_drop (Z.to_nat p) corpus) at 1. f_equal.
    rewrite <- (take_drop (length pat) (drop (Z.to_nat p) corpus)) at 1.
    f_equal. apply occ_0_take. split; [done|]. unfold len.
    rewrite length_drop. split; [lia|]. intros i Hi'.
    rewrite <- Hi by done. unfold zget.
    rewrite !decide_True by lia. rewrite lookup_drop. f_equal. lia.
  - intros (l1 & l2 & -> & <-). pose proof (len_nonneg l1).
    unfold occ, len in *. rewrite !length_app.
    split; [lia|]. split; [lia|]. intros i Hi.
    unfold zget. rewrite !decide_True by lia.
    rewrite lookup_app_r by lia. rewrite lookup_app_l by lia.
    f_equal. lia.
Qed.

(** X19: a pattern that the corpus holds is found: if the corpus is [l1],
    the pattern and [l2] in a row, each search returns a position that is
    not after the end of [l1], and the corpus reads as the pattern from the
    position that is returned. *)
Theorem searches_find_sublist (fuel : nat) pat (l1 l2 : list A) :
  len pat < INT_MAX →
  len (l1 ++ pat ++ l2) ≤ PTRDIFF_MAX →
  len pat + len (l1 ++ pat ++ l2) + 1 < Z.of_nat fuel →
  ∃ r,
    boyer_moore_search (T := T) fuel (range_of (l1 ++ pat ++ l2)) pat = Ok r ∧
    boyer_moore_horspool_search (T := T) fuel (range_of (l1 ++ pat ++ l2)) pat
      = Ok r ∧
    knuth_morris_pratt_search fuel (range_of (l1 ++ pat ++ l2)) pat = Ok r ∧
    0 ≤ r ≤ len l1 ∧
    take (length pat) (drop (Z.to_nat r) (l1 ++ pat ++ l2)) = pat.
Proof.
  intros Hpat Hn Hfuel. remember (l1 ++ pat ++ l2) as corpus eqn:Hcorpus.
  exists (naive_search corpus pat).
  destruct (sat_Ok True _ _
    (boyer_moore_search_sat True fuel pat corpus Hpat Hn (λ _, Hfuel)) I)
    as (r1 & Hr1 & ->).
  destruct (sat_Ok True _ _
    (boyer_moore_horspool_search_sat True fuel pat corpus Hpat Hn
       (λ _, ltac:(lia))) I) as (r2 & Hr2 & ->).
  destruct (sat_Ok True _ _
    (knuth_morris_pratt_search_sat True fuel pat corpus Hpat Hn
       (λ _, ltac:(lia))) I) as (r3 & Hr3 & ->).
  split; [done|]. split; [done|]. split; [done|].
  assert (occ pat corpus (len l1)) as Hocc
    by (apply occ_split; by exists l1, l2).
  clear Hcorpus.
  destruct (naive_search_found pat corpus) as [[Hr Hleft]|[_ Hnone]];
    [|by apply Hnone in Hocc].
  pose proof (Hleft _ Hocc). pose proof Hr as (? & _).
  split; [lia|].
  apply occ_split in Hr as (l1' & l2' & Heq & Hlen).
  rewrite <- Hlen, Heq. unfold len. rewrite Nat2Z.id.
  rewrite drop_app_length. by rewrite take_app_length.
Qed.

End sublists.

(** ** The properties above, on the scenarios *)

Lemma unhex_hex_witness :
  hex.unhex (hex.Integral 1 true) (hex.hex (hex.Integral 1 true) [72; 105; -1])
  = hex.Returns [72; 105; -1].
Proof.
  apply (unhex_hex (hex.Integral 1 true) [72; 105; -1]).
  repeat constructor; by vm_compute.
Defined.

Lemma hex_unhex_witness :
  hex.hex (hex.Integral 1 true) [106; 107]
  = (λ c, toupper (hex.to_char c)) <$> [310; 97; 54; 66].
Proof.
  apply (hex_unhex 1 true [310; 97; 54; 66] [106; 107]). by vm_compute.
Defined.

(** For [bool], encoding what [unhex] read need not give the input back:
    from "02" it reads [true], which [hex] writes as "01". *)
Example hex_unhex_bool :
  hex.unhex hex.Bool [48; 50] = hex.Returns [1] ∧
  hex.hex hex.Bool [1] = [48; 49].
Proof. by vm_compute. Qed.

Lemma unhex_output_witness :
  length [106; 107]
  = (length [54; 97; 54; 66] `div` hex.unit_size (hex.Integral 1 true))%nat ∧
  Forall (value_of (hex.Integral 1 true)) [106; 107].
Proof.
  apply (unhex_output (hex.Integral 1 true) [54; 97; 54; 66] [106; 107]).
  by vm_compute.
Defined.

Lemma hex_ptr_until_zero_witness :
  hex.hex_ptr (hex.Integral 1 true) [72; 105]
  = hex.Returns (hex.hex (hex.Integral 1 true) [72; 105]) ∧
  hex.hex_ptr (hex.Integral 1 true) ([72; 105] ++ 0 :: [33])
  = hex.Returns (hex.hex (hex.Integral 1 true) [72; 105]).
Proof.
  apply (hex_ptr_until_zero (hex.Integral 1 true) [72; 105] [33]).
  apply (bool_decide_unpack _). by vm_compute.
Defined.

Lemma unhex_concatenation_witness :
  hex.unhex (hex.Integral 1 true) ([52; 56] ++ [54; 57])
  = match hex.unhex (hex.Integral 1 true) [54; 57] with
    | hex.Returns y => hex.Returns ([72] ++ y)
    | hex.Throws e => hex.Throws e
    | hex.Stuck => hex.Stuck
    end.
Proof.
  apply (unhex_concatenation (hex.Integral 1 true) [52; 56] [54; 57] [72]).
  by vm_compute.
Defined.

Lemma unhex_ptr_agrees_witness :
  hex.unhex_ptr (hex.Integral 1 true) [54; 97; 54; 66]
  = hex.Returns [106; 107].
Proof.
  apply (unhex_ptr_agrees (hex.Integral 1 true) [54; 97; 54; 66] [106; 107]).
  by vm_compute.
Defined.

Lemma none_of_correct_witness :
  none_of 3 (range_of [1; 2; 3]) (λ x, bool_decide (3 < x))
  = Ok (bool_decide (Forall (λ x, bool_decide (3 < x) = false) [1; 2; 3])).
Proof.
  apply (none_of_correct 3 [1; 2; 3] (λ x, bool_decide (3 < x))).
  by vm_compute.
Defined.

Lemma none_of_first_match_witness :
  none_of 1
    (Range 5 (λ i, if decide (i ≤ 1) then Ok i else OutOfBounds))
    (λ x, bool_decide (x = 1))
  = Ok false.
Proof.
  apply (none_of_first_match 1
           (Range 5 (λ i, if decide (i ≤ 1) then Ok i else OutOfBounds))
           (λ x, bool_decide (x = 1)) 1 1).
  - intros i Hi. exists 0. assert (i = 0%nat) as -> by lia. by vm_compute.
  - by vm_compute.
  - by vm_compute.
  - by vm_compute.
  - by vm_compute.
Defined.

Lemma none_of_equal_correct_witness :
  none_of_equal 3 (range_of [1; 2; 3]) 2 = Ok (bool_decide (2 ∉ [1; 2; 3])) ∧
  none_of_equal 3 (range_of [1; 2; 3]) 2
  = none_of 3 (range_of [1; 2; 3]) (λ x, bool_decide (2 = x)).
Proof.
  apply (none_of_equal_correct 3 [1; 2; 3] 2). by vm_compute.
Defined.

Lemma bm_step_passes_no_occurrence_witness :
  ∃ bm, boyer_moore.new (T := skip_table_array) 30 ABABCABAB = Ok bm ∧
    boyer_moore.do_search_body 30 bm (range_of ABABDABACDABABCABAB) 0
      = Ok (Continue 4) ∧
    4 ≤ 0 + len ABABCABAB ∧
    ∀ q, occ ABABCABAB ABABDABACDABABCABAB q → 0 ≤ q → 4 ≤ q.
Proof.
  eexists. split; [reflexivity|]. split; [by vm_compute|].
  eapply (bm_step_passes_no_occurrence (T := skip_table_array) 30 ABABCABAB
           ABABDABACDABABCABAB _ 0 4).
  - by vm_compute.
  - by vm_compute.
  - reflexivity.
  - by vm_compute.
  - by vm_compute.
Defined.

Lemma bmh_step_passes_no_occurrence_witness :
  ∃ bmh, boyer_moore_horspool.new (T := skip_table_array) 30 ABABCABAB
           = Ok bmh ∧
    boyer_moore_horspool.do_search_body 30 bmh
      (range_of ABABDABACDABABCABAB) 0 = Ok (Continue 4) ∧
    4 ≤ 0 + len ABABCABAB ∧
    ∀ q, occ ABABCABAB ABABDABACDABABCABAB q → 0 ≤ q → 4 ≤ q.
Proof.
  eexists. split; [reflexivity|]. split; [by vm_compute|].
  eapply (bmh_step_passes_no_occurrence (T := skip_table_array) 30 ABABCABAB
           ABABDABACDABABCABAB _ 0 4).
  - by vm_compute.
  - by vm_compute.
  - reflexivity.
  - by vm_compute.
  - by vm_compute.
Defined.

Lemma kmp_step_passes_no_occurrence_witness :
  ∃ kmp, knuth_morris_pratt.new 30 ABABCABAB = Ok kmp ∧
    knuth_morris_pratt.do_search_body 30 kmp (range_of ABABDABACDABABCABAB)
      (len ABABDABACDABABCABAB - len ABABCABAB) (2, 2)
      = Ok (Continue (0, 4)) ∧
    4 ≤ 2 + len ABABCABAB ∧
    ∀ q, occ ABABCABAB ABABDABACDABABCABAB q → 2 ≤ q → 4 ≤ q.
Proof.
  eexists. split; [reflexivity|]. split; [by vm_compute|].
  eapply (kmp_step_passes_no_occurrence 30 ABABCABAB ABABDABACDABABCABAB _
           2 2 0 4).
  - by vm_compute.
  - by vm_compute.
  - reflexivity.
  - by vm_compute.
  - by vm_compute.
  - intros k Hk. assert (k = 0 ∨ k = 1) as [-> | ->] by lia; by vm_compute.
  - by vm_compute.
Defined.

Lemma kmp_step_invariants_witness :
  ∃ kmp, knuth_morris_pratt.new 30 ABABCABAB = Ok kmp ∧
    knuth_morris_pratt.do_search_body 30 kmp (range_of ABABDABACDABABCABAB)
      (len ABABDABACDABABCABAB - len ABABCABAB) (0, 0)
      = Ok (Continue (2, 2)) ∧
    0 ≤ 2 < len ABABCABAB ∧
    0 < 2 ≤ len ABABDABACDABABCABAB ∧
    (∀ k, 0 ≤ k < 2 →
       zget ABABCABAB k = zget ABABDABACDABABCABAB (2 + k)) ∧
    0 + 0 ≤ 2 + 2 ≤ len ABABDABACDABABCABAB ∧
    ∃ j, 0 ≤ j < len ABABCABAB ∧
         zget ABABCABAB j ≠ zget ABABDABACDABABCABAB (0 + j) ∧
         0 + j ≤ 2 + 2 ≤ 0 + j + 1.
Proof.
  eexists. split; [reflexivity|]. split; [by vm_compute|].
  eapply (kmp_step_invariants 30 ABABCABAB ABABDABACDABABCABAB _ 0 0 2 2).
  - by vm_compute.
  - by vm_compute.
  - reflexivity.
  - by vm_compute.
  - by vm_compute.
  - intros k Hk. lia.
  - by vm_compute.
Defined.

(** The end of the corpus is the bound of [match_start], and not
    [k_corpus_length - k_pattern_length + 1], which the comments of
    [do_search] give for it: for the pattern "ABCD" and the corpus "ABCX", the
    first step moves [match_start] from 0 to 3. *)
Example kmp_match_start_past_last_match :
  ∃ kmp,
    knuth_morris_pratt.new 30 [Byte.x41; Byte.x42; Byte.x43; Byte.x44]
      = Ok kmp ∧
    knuth_morris_pratt.do_search_body 30 kmp
      (range_of [Byte.x41; Byte.x42; Byte.x43; Byte.x58]) (4 - 4) (0, 0)
      = Ok (Continue (0, 3)).
Proof. eexists. split; [reflexivity|]. by vm_compute. Qed.

Lemma bm_prefix_is_kmp_table_witness :
  ∃ prefix kmp,
    boyer_moore.compute_bm_prefix 30 ABABCABAB (replicate (length ABABCABAB) 0)
      = Ok prefix ∧
    knuth_morris_pratt.new 30 ABABCABAB = Ok kmp ∧
    len prefix = len ABABCABAB ∧
    ∀ i, 0 ≤ i < len ABABCABAB →
      ∃ b, zget prefix i = Some b ∧
           zget (knuth_morris_pratt.skip_ kmp) (i + 1) = Some b ∧
           lborder ABABCABAB (i + 1) b.
Proof.
  apply (bm_prefix_is_kmp_table 30 ABABCABAB); by vm_compute.
Defined.

Lemma bm_assertions_hold_witness :
  boyer_moore.new (T := skip_table_array) 3 ABABCABAB ≠ AssertFailed ∧
  boyer_moore_search (T := skip_table_array) 3
    (range_of ABABDABACDABABCABAB) ABABCABAB ≠ AssertFailed ∧
  boyer_moore.compute_bm_prefix 3 ([] : list Byte.byte) [0] = AssertFailed.
Proof.
  apply (bm_assertions_hold (T := skip_table_array) 3 ABABCABAB
           ABABDABACDABABCABAB [0]); by vm_compute.
Defined.

Lemma searches_find_sublist_witness :
  ∃ r,
    boyer_moore_search (T := skip_table_array) 30
      (range_of (AABA ++ ABC ++ AABA)) ABC = Ok r ∧
    boyer_moore_horspool_search (T := skip_table_array) 30
      (range_of (AABA ++ ABC ++ AABA)) ABC = Ok r ∧
    knuth_morris_pratt_search 30 (range_of (AABA ++ ABC ++ AABA)) ABC
      = Ok r ∧
    0 ≤ r ≤ len AABA ∧
    take (length ABC) (drop (Z.to_nat r) (AABA ++ ABC ++ AABA)) = ABC.
Proof.
  apply (searches_find_sublist (T := skip_table_array) 30 ABC AABA AABA);
    by vm_compute.
Defined.
